(** * Multigrid V-cycle for the 2-D Poisson equation (poisson.hpp)

    A shallow embedding of [src/poisson.hpp] and the properties of its
    smoothers, residual operator, V-cycle, driver and problem container.

    - Scalars: the code is a template over the scalar type [T]; the
      embedding is generic over a [Scalar] interface that provides the
      arithmetic the code uses.  Exact rationals ([Q]) are an instance,
      IEEE 754 binary64 numbers ([double]) are another.
    - Integers: [int] is a 32-bit signed integer.  Signed overflow and
      invalid shifts are undefined behaviour in C++ and are modelled as
      faults.  [size_t] is a 64-bit unsigned integer with wrap-around.
    - Memory: blocks of cells with an extent; a pointer is a block and an
      offset, every access is bounds-checked and an access outside the
      block is a fault.
    - Ghost state: a history of the calls that were made (each with the
      memory at that moment) and the list of memory accesses.  Erasing
      the ghost state gives back the source program. *)

From Stdlib Require Import ZArith QArith Qabs Qminmax Qround Lia Lqa List Floats.
From stdpp Require Import base list list_numbers sorting.

Open Scope Z_scope.

#[local] Set Default Proof Using "Type".

(** ** Scalars: the template parameter [T] *)

Class Scalar (T : Type) := {
  lit : Q -> T;            (* a numeric literal, or an [int] converted to [T] *)
  add : T -> T -> T;
  sub : T -> T -> T;
  mul : T -> T -> T;
  div : T -> T -> T;
  neg : T -> T;
  sin : T -> T;
  fabs : T -> T;
  sizeof_T : Z;            (* [sizeof(T)] in bytes *)
}.

Declare Scope scalar_scope.
Delimit Scope scalar_scope with T.
Notation "x + y" := (add x y) : scalar_scope.
Notation "x - y" := (sub x y) : scalar_scope.
Notation "x * y" := (mul x y) : scalar_scope.
Notation "x / y" := (div x y) : scalar_scope.
Notation "- x" := (neg x) : scalar_scope.

(** [M_PI] of <cmath>, a decimal literal. *)
Definition M_PI `{Scalar T} : T := lit (314159265358979323846 # 100000000000000000000).

(** ** Faults and results *)

Inductive fault :=
| SignedOverflow     (* an [int] result is not representable *)
| InvalidShift       (* a shift count outside [0, 32), or of a negative value *)
| DivisionByZero     (* [a % 0] *)
| OutOfBounds        (* a load or store outside the block of its pointer *)
| OutOfFuel.         (* the recursion bound of the embedding was too small *)

Inductive result (A : Type) :=
| Ok (a : A)
| Err (e : fault).
Arguments Ok {A} a.
Arguments Err {A} e.

Definition rbind {A B} (r : result A) (k : A -> result B) : result B :=
  match r with
  | Ok a => k a
  | Err e => Err e
  end.

(** ** [int] and [size_t] arithmetic *)

Definition INT_MIN : Z := -2147483648.
Definition INT_MAX : Z := 2147483647.

Definition in_int (z : Z) : bool := (INT_MIN <=? z) && (z <=? INT_MAX).

Definition check_int (z : Z) : result Z :=
  if in_int z then Ok z else Err SignedOverflow.

Definition of_int (z : Z) : result Z := Ok z.
Coercion of_int : Z >-> result.

Definition iadd (a b : result Z) : result Z :=
  rbind a (fun x => rbind b (fun y => check_int (x + y))).
Definition isub (a b : result Z) : result Z :=
  rbind a (fun x => rbind b (fun y => check_int (x - y))).
Definition imul (a b : result Z) : result Z :=
  rbind a (fun x => rbind b (fun y => check_int (x * y))).

(** [a << s] on [int]: the count must lie in [0, 32) and the result must be
    representable. *)
Definition ishl (a s : result Z) : result Z :=
  rbind a (fun x => rbind s (fun y =>
    if (0 <=? y) && (y <? 32) then
      if 0 <=? x then check_int (x * 2 ^ y) else Err InvalidShift
    else Err InvalidShift)).

(** [a % b] on [int], truncating like C++. *)
Definition irem (a b : result Z) : result Z :=
  rbind a (fun x => rbind b (fun y =>
    if y =? 0 then Err DivisionByZero else check_int (Z.rem x y))).

Declare Scope int_scope.
Delimit Scope int_scope with int.
Bind Scope int_scope with result.
Notation "x + y" := (iadd x y) : int_scope.
Notation "x - y" := (isub x y) : int_scope.
Notation "x * y" := (imul x y) : int_scope.
Notation "x << y" := (ishl x y) (at level 45, left associativity) : int_scope.
Notation "x % y" := (irem x y) (at level 40, left associativity) : int_scope.

Definition SIZE_MOD : Z := 2 ^ 64.
Definition size_t (z : Z) : Z := z mod SIZE_MOD.

(** ** Memory, pointers and the ghost state *)

Record ptr := Ptr { blk : nat; ofs : Z }.

(** [&p[k]] *)
Definition ptr_add (p : ptr) (k : Z) : ptr := Ptr (blk p) (ofs p + k).

Inductive access :=
| Load (p : ptr) (k : Z)       (* a read of [p[k]] *)
| Store (p : ptr) (k : Z).     (* a write of [p[k]] *)

Section Model.

Context {T : Type} `{Scalar T}.

(** The content of a cell, by block and address. *)
Definition memory := nat -> Z -> T.

Definition rd (m : memory) (p : ptr) (k : Z) : T := m (blk p) (ofs p + k).

Definition wr (m : memory) (p : ptr) (k : Z) (x : T) : memory :=
  fun b a => if (b =? blk p)%nat && (a =? ofs p + k) then x else m b a.

Inductive call :=
| call_gauss_seidel (u f : ptr) (n : Z) (h : T)
| call_gauss_seidel_red_black (u f : ptr) (n : Z) (h : T)
| call_poisson_residual (r u f : ptr) (n : Z) (h : T)
| call_base_case (u f : ptr) (h : T)
| call_grid_restrict (dst : ptr) (dst_n dst_m : Z) (src : ptr) (src_n src_m : Z) (a b : T)
| call_grid_prolongate (dst : ptr) (dst_n dst_m : Z) (src : ptr) (src_n src_m : Z) (a b : T)
| call_multigrid_v_cycle (l : Z) (u f r v w : ptr) (h : T)
| return_multigrid_v_cycle (l : Z).

Record world := World {
  mem : memory;                       (* cell contents *)
  ext : nat -> Z;                     (* number of cells of each block, 0 when not allocated *)
  next_block : nat;                   (* the next block [malloc] hands out *)
  history : list (call * memory);     (* ghost: calls made, with the memory at the call *)
  accesses : list access;             (* ghost: loads and stores, in order *)
}.

Inductive outcome (A : Type) :=
| Done (a : A) (w : world)
| Fault (e : fault).
Arguments Done {A} a w.
Arguments Fault {A} e.

Definition M (A : Type) := world -> outcome A.

Definition ret {A} (a : A) : M A := fun w => Done a w.

Definition bind {A B} (m : M A) (k : A -> M B) : M B :=
  fun w => match m w with
           | Done a w' => k a w'
           | Fault e => Fault e
           end.

Definition fail {A} (e : fault) : M A := fun _ => Fault e.

Definition int {A} (r : result A) : M A :=
  fun w => match r with
           | Ok a => Done a w
           | Err e => Fault e
           end.

Notation "'let!' x ':=' m 'in' k" := (bind m (fun x => k))
  (at level 10, x name, m at level 100, k at level 200).
Notation "m ';;' k" := (bind m (fun _ => k))
  (at level 100, k at level 200, right associativity).

Definition in_bounds (w : world) (p : ptr) (k : Z) : bool :=
  (0 <=? ofs p + k) && (ofs p + k <? ext w (blk p)).

Definition note_access (a : access) (w : world) : world :=
  World (mem w) (ext w) (next_block w) (history w) (accesses w ++ [a]).

Definition note_call (c : call) (w : world) : world :=
  World (mem w) (ext w) (next_block w) (history w ++ [(c, mem w)]) (accesses w).

Definition set_mem (m : memory) (w : world) : world :=
  World m (ext w) (next_block w) (history w) (accesses w).

(** [p[k]] as an rvalue *)
Definition load (p : ptr) (k : Z) : M T :=
  fun w => if in_bounds w p k
           then Done (rd (mem w) p k) (note_access (Load p k) w)
           else Fault OutOfBounds.

(** [p[k] = x] *)
Definition store (p : ptr) (k : Z) (x : T) : M unit :=
  fun w => if in_bounds w p k
           then Done tt (note_access (Store p k) (set_mem (wr (mem w) p k x) w))
           else Fault OutOfBounds.

Definition enter (c : call) : M unit := fun w => Done tt (note_call c w).

(** [p[e]] and [p[e] = x] with the index an [int] expression *)
Definition load_at (p : ptr) (e : result Z) : M T :=
  let! k := int e in load p k.
Definition store_at (p : ptr) (e : result Z) (x : T) : M unit :=
  let! k := int e in store p k x.

(** [for (int i = lo; i < hi; ++i) body(i)] *)
Definition for_range (lo hi : Z) (body : Z -> M unit) : M unit :=
  foldr (fun i k => body i ;; k) (ret tt) (seqZ lo (hi - lo)).

Notation "p .[ e ]" := (load_at p e%int)
  (at level 1, e at level 200, left associativity, format "p .[ e ]").
Notation "p .[ e ] ::= x" := (store_at p e%int x%T)
  (at level 1, left associativity, e at level 200, x at level 99,
   format "p .[ e ]  ::=  x").

(** ** Smoothers (poisson.hpp, lines 7-54) *)

(** The assignment in the body of the smoother loops:
    [u[j + i*n] = -0.25 * (h*h*f[j + i*n] - u[j+1 + i*n] - u[j-1 + i*n]
                           - u[j + (i+1)*n] - u[j + (i-1)*n])].
    The right-hand side is evaluated left to right, then the store. *)
Definition gs_update (u f : ptr) (n : Z) (h : T) (i j : Z) : M unit :=
  let! fc := f.[j + i * n] in
  let! ue := u.[j + 1 + i * n] in
  let! uw := u.[j - 1 + i * n] in
  let! us := u.[j + (i + 1) * n] in
  let! un := u.[j + (i - 1) * n] in
  u.[j + i * n] ::= - lit 0.25 * (h * h * fc - ue - uw - us - un).

Definition gauss_seidel (u f : ptr) (n : Z) (h : T) : M unit :=
  enter (call_gauss_seidel u f n h) ;;
  let! m := int (n - 1)%int in
  for_range 1 m (fun i =>
    for_range 1 m (fun j =>
      gs_update u f n h i j)).

(** One loop nest of [gauss_seidel_red_black]: the update is guarded by
    [(i + j) % 2 == color].  The source writes the nest twice, with the
    constants 0 and 1. *)
Definition rb_update (color : Z) (u f : ptr) (n : Z) (h : T) (i j : Z) : M unit :=
  let! c := int ((i + j) % 2)%int in
  if c =? color then gs_update u f n h i j else ret tt.

Definition color_pass (color : Z) (u f : ptr) (n : Z) (h : T) : M unit :=
  let! m := int (n - 1)%int in
  for_range 1 m (fun i =>
    for_range 1 m (fun j =>
      rb_update color u f n h i j)).

Definition gauss_seidel_red_black (u f : ptr) (n : Z) (h : T) : M unit :=
  enter (call_gauss_seidel_red_black u f n h) ;;
  color_pass 0 u f n h ;;
  color_pass 1 u f n h.

(** ** Residual (lines 56-70) *)

Definition residual_update (r u f : ptr) (n : Z) (hi2 : T) (i j : Z) : M unit :=
  let! fc := f.[j + i * n] in
  let! ue := u.[j + 1 + i * n] in
  let! uw := u.[j - 1 + i * n] in
  let! uc := u.[j + i * n] in
  let! us := u.[j + (i + 1) * n] in
  let! un := u.[j + (i - 1) * n] in
  r.[j + i * n] ::= fc - (ue + uw + - lit 4 * uc + us + un) * hi2.

Definition poisson_residual (r u f : ptr) (n : Z) (h : T) : M unit :=
  enter (call_poisson_residual r u f n h) ;;
  let hi2 := (lit 1 / (h * h))%T in
  let! m := int (n - 1)%int in
  for_range 1 m (fun i =>
    for_range 1 m (fun j =>
      residual_update r u f n hi2 i j)).

(** ** Allocation and [memset] *)

(** [malloc(num_bytes)]: a fresh block of [num_bytes / sizeof(T)] cells.
    The cells keep whatever the memory held: their content is not
    specified.  This is the allocation that succeeds; the return of a null
    pointer is not modelled, so a completed run through [malloc] is a run
    in which every allocation succeeded. *)
Definition malloc (num_bytes : Z) : M ptr :=
  fun w =>
    let b := next_block w in
    Done (Ptr b 0)
         (World (mem w)
                (fun b' => if (b' =? b)%nat then num_bytes / sizeof_T else ext w b')
                (S b) (history w) (accesses w)).

Definition free (p : ptr) : M unit :=
  fun w =>
    Done tt
         (World (mem w)
                (fun b' => if (b' =? blk p)%nat then 0 else ext w b')
                (next_block w) (history w) (accesses w)).

(** [memset(p, 0, num_bytes)]: all-zero bytes are the scalar zero. *)
Definition memset (p : ptr) (num_bytes : Z) : M unit :=
  for_range 0 (num_bytes / sizeof_T) (fun k => store p k (lit 0)).

(** ** Manufactured test case (lines 72-94) *)

Definition forcing_function (f : ptr) (n : Z) (h modes : T) : M unit :=
  let! n1 := int (n - 1)%int in
  let s := (lit 2 * M_PI * modes / (h * lit (inject_Z n1)))%T in
  let! nn := int (n * n)%int in
  memset f (size_t (size_t nn * sizeof_T)) ;;
  for_range 0 n (fun i =>
    for_range 0 n (fun j =>
      f.[j + n * i] ::= lit (inject_Z (-2)) * s * s
                        * sin (s * h * lit (inject_Z i))
                        * sin (s * h * lit (inject_Z j)))).

Definition exact_solution (u : ptr) (n : Z) (h modes : T) : M unit :=
  let! n1 := int (n - 1)%int in
  let s := (lit 2 * M_PI * modes / (h * lit (inject_Z n1)))%T in
  for_range 0 n (fun i =>
    for_range 0 n (fun j =>
      u.[j + n * i] ::= sin (s * h * lit (inject_Z j))
                        * sin (s * h * lit (inject_Z i)))).

(** ** Grid transfer and norms (grid.hpp, not under src/) *)

(** The stencils of restriction and interpolation are not given by the
    spec: they are parameters.  [Restriction sn sm dn dm src k] is entry
    [k] of the restriction of the [sn] x [sm] field [src] to [dn] x [dm]. *)
Variable Restriction : Z -> Z -> Z -> Z -> list T -> Z -> T.
Variable Interpolation : Z -> Z -> Z -> Z -> list T -> Z -> T.

(** Reads [p[0 .. len-1]]. *)
Definition load_field (p : ptr) (len : Z) : M (list T) :=
  foldr (fun k rest => let! x := load p k in let! xs := rest in ret (x :: xs))
        (ret []) (seqZ 0 len).

(** Modelled from the spec: [grid_restrict] of grid.hpp is not under
    src/.  Spec section 6: "maps a fine field of shape src_n x src_m to a
    coarse field of shape dst_n x dst_m, computing
    dst <- existing_weight * dst + incoming_weight * Restriction(src)". *)
Definition grid_restrict (dst : ptr) (dst_n dst_m : Z) (src : ptr) (src_n src_m : Z)
    (existing_weight incoming_weight : T) : M unit :=
  enter (call_grid_restrict dst dst_n dst_m src src_n src_m
                            existing_weight incoming_weight) ;;
  let! s := load_field src (src_n * src_m) in
  for_range 0 (dst_n * dst_m) (fun k =>
    let! d := load dst k in
    store dst k (existing_weight * d
                 + incoming_weight * Restriction src_n src_m dst_n dst_m s k)%T).

(** Modelled from the spec: [grid_prolongate] of grid.hpp is not under
    src/.  Spec section 6: "inverse-direction interpolation,
    dst <- existing_weight * dst + incoming_weight * Interpolation(src)". *)
Definition grid_prolongate (dst : ptr) (dst_n dst_m : Z) (src : ptr) (src_n src_m : Z)
    (existing_weight incoming_weight : T) : M unit :=
  enter (call_grid_prolongate dst dst_n dst_m src src_n src_m
                              existing_weight incoming_weight) ;;
  let! s := load_field src (src_n * src_m) in
  for_range 0 (dst_n * dst_m) (fun k =>
    let! d := load dst k in
    store dst k (existing_weight * d
                 + incoming_weight * Interpolation src_n src_m dst_n dst_m s k)%T).

(** Modelled from the spec: [grid_subtract] of grid.hpp is not under
    src/.  Spec section 6: "elementwise dst = a - b over an n x m field". *)
Definition grid_subtract (dst a b : ptr) (n m : Z) : M unit :=
  for_range 0 (n * m) (fun k =>
    let! x := load a k in
    let! y := load b k in
    store dst k (x - y)%T).

(** The weighted sum of absolute values of a list of cells. *)
Definition l1norm (cells : list T) (hx hy : T) : T :=
  (foldl (fun acc x => acc + fabs x) (lit 0) cells * (hx * hy))%T.

(** Modelled from the spec: [grid_l1norm] of grid.hpp is not under src/.
    Spec section 6: "discrete L1 norm weighted by cell area hx * hy". *)
Definition grid_l1norm (field : ptr) (n m : Z) (hx hy : T) : M T :=
  let! cells := load_field field (n * m) in
  ret (l1norm cells hx hy).

(** ** V-cycle (lines 96-130) *)

Definition base_case (u f : ptr) (h : T) : M unit :=
  enter (call_base_case u f h) ;;
  let! fc := f.[1 + 3 * 1] in
  u.[1 + 3 * 1] ::= - lit 0.5 * fc * h * h.

(** The smoother classes [GaussSeidel] and [GaussSeidelRedBlack]
    (lines 183-222); [smooth] is their [operator()(u, f, n, h)]. *)
Inductive smoother := GaussSeidel | GaussSeidelRedBlack.

Definition smooth (S : smoother) (u f : ptr) (n : Z) (h : T) : M unit :=
  match S with
  | GaussSeidel => gauss_seidel u f n h
  | GaussSeidelRedBlack => gauss_seidel_red_black u f n h
  end.

(** The recursion is on [l]; [fuel] bounds its depth. *)
Fixpoint v_cycle (fuel : nat) (l : Z) (S : smoother) (u f r v w : ptr) (h : T)
    : M unit :=
  enter (call_multigrid_v_cycle l u f r v w h) ;;
  if l =? 1 then
    base_case u f h ;;
    enter (return_multigrid_v_cycle l)
  else
    let! nu := int ((1 << l) + 1)%int in
    let! nv := int ((1 << (l - 1)) + 1)%int in
    let! el := int (nv * nv)%int in
    let el := ptr_add v el in
    let! rl := int (nv * nv)%int in
    let rl := ptr_add w rl in
    smooth S u f nu h ;;
    poisson_residual r u f nu h ;;
    grid_restrict rl nv nv r nu nu (lit 0) (lit 1) ;;
    let! l1 := int (l - 1)%int in
    match fuel with
    | O => fail OutOfFuel
    | Datatypes.S fuel' => v_cycle fuel' l1 S el rl r v w (lit 2 * h)%T
    end ;;
    grid_prolongate u nu nu el nv nv (lit 1) (lit 1) ;;
    smooth S u f nu h ;;
    enter (return_multigrid_v_cycle l).

Definition multigrid_v_cycle (l : Z) (S : smoother) (u f r v w : ptr) (h : T)
    : M unit :=
  v_cycle (Z.to_nat l) l S u f r v w h.

(** [multigrid_size] (lines 132-140): [size] is a [size_t], [n * n] an
    [int] product. *)
Definition multigrid_size (l : Z) : result Z :=
  foldl (fun acc (i : Z) =>
           rbind acc (fun size =>
           rbind ((1 << i) + 1)%int (fun n =>
           rbind (n * n)%int (fun nn =>
           Ok (size_t (size + size_t nn))))))
        (Ok 0) (seqZ 0 (l + 1)).

(** ** The problem container (lines 224-269) *)

Record Poisson := {
  p_n : Z;
  p_l : Z;
  p_h : T;
  p_modes : T;
  p_u : ptr;
  p_f : ptr;
  p_r : ptr;
  p_num_bytes : Z;
}.

Definition Poisson_new (l : Z) (h modes : T) : M Poisson :=
  let! n := int ((1 << l) + 1)%int in
  let num_bytes := size_t (size_t (sizeof_T * size_t n) * size_t n) in
  let! u := malloc num_bytes in
  let! f := malloc num_bytes in
  let! r := malloc num_bytes in
  memset u num_bytes ;;
  memset f num_bytes ;;
  memset r num_bytes ;;
  forcing_function f n h modes ;;
  ret {| p_n := n; p_l := l; p_h := h; p_modes := modes;
         p_u := u; p_f := f; p_r := r; p_num_bytes := num_bytes |}.

Definition Poisson_error (p : Poisson) : M T :=
  let! v := malloc (p_num_bytes p) in
  memset v (p_num_bytes p) ;;
  exact_solution v (p_n p) (p_h p) (p_modes p) ;;
  grid_subtract (p_r p) (p_u p) v (p_n p) (p_n p) ;;
  let! err := grid_l1norm (p_r p) (p_n p) (p_n p) (p_h p) (p_h p) in
  free v ;;
  ret err.

Definition Poisson_residual (p : Poisson) : M unit :=
  poisson_residual (p_r p) (p_u p) (p_f p) (p_n p) (p_h p).

Definition Poisson_norm (p : Poisson) : M T :=
  grid_l1norm (p_r p) (p_n p) (p_n p) (p_h p) (p_h p).

(** ** The driver (lines 142-181) *)

Record Multigrid := {
  mg_v : ptr;
  mg_w : ptr;
  mg_r : ptr;
  mg_l : Z;
  mg_num_bytes : Z;
  mg_smoother : smoother;
}.

Definition Multigrid_new (S : smoother) (p : Poisson) : M Multigrid :=
  let! size := int (multigrid_size (p_l p)) in
  let num_bytes := size_t (size * sizeof_T) in
  let! v := malloc num_bytes in
  let! w := malloc num_bytes in
  let! n := int ((1 << p_l p) + 1)%int in
  let! r := malloc (size_t (size_t (sizeof_T * size_t n) * size_t n)) in
  ret {| mg_v := v; mg_w := w; mg_r := r; mg_l := p_l p;
         mg_num_bytes := num_bytes; mg_smoother := S |}.

(** [Multigrid::operator()(P& p)] *)
Definition Multigrid_call (mg : Multigrid) (p : Poisson) : M unit :=
  memset (mg_v mg) (mg_num_bytes mg) ;;
  memset (mg_w mg) (mg_num_bytes mg) ;;
  multigrid_v_cycle (mg_l mg) (mg_smoother mg) (p_u p) (p_f p)
                    (mg_r mg) (mg_v mg) (mg_w mg) (p_h p).


(** * Reasoning about the embedding *)

(** ** [int] expressions *)

Lemma in_int_true z : in_int z = true <-> INT_MIN <= z <= INT_MAX.
Proof. unfold in_int. rewrite andb_true_iff, !Z.leb_le. reflexivity. Qed.

Lemma check_int_Ok z k : check_int z = Ok k -> k = z /\ in_int z = true.
Proof. unfold check_int. destruct (in_int z); [|discriminate]. intros [= <-]. auto. Qed.

Lemma rbind_Ok {A B} (r : result A) (k : A -> result B) b :
  rbind r k = Ok b -> exists a, r = Ok a /\ k a = Ok b.
Proof. destruct r as [a|e]; simpl; [eauto|discriminate]. Qed.

Lemma iadd_Ok a b k :
  iadd a b = Ok k ->
  exists x y, a = Ok x /\ b = Ok y /\ k = x + y /\ in_int (x + y) = true.
Proof.
  unfold iadd. intros (x & -> & (y & -> & Hc)%rbind_Ok)%rbind_Ok.
  apply check_int_Ok in Hc as [-> ?]. eauto 6.
Qed.

Lemma isub_Ok a b k :
  isub a b = Ok k ->
  exists x y, a = Ok x /\ b = Ok y /\ k = x - y /\ in_int (x - y) = true.
Proof.
  unfold isub. intros (x & -> & (y & -> & Hc)%rbind_Ok)%rbind_Ok.
  apply check_int_Ok in Hc as [-> ?]. eauto 6.
Qed.

Lemma imul_Ok a b k :
  imul a b = Ok k ->
  exists x y, a = Ok x /\ b = Ok y /\ k = x * y /\ in_int (x * y) = true.
Proof.
  unfold imul. intros (x & -> & (y & -> & Hc)%rbind_Ok)%rbind_Ok.
  apply check_int_Ok in Hc as [-> ?]. eauto 6.
Qed.

Lemma ishl_Ok a s k :
  ishl a s = Ok k ->
  exists x y, a = Ok x /\ s = Ok y /\ k = x * 2 ^ y /\ 0 <= y < 32 /\ 0 <= x
              /\ in_int (x * 2 ^ y) = true.
Proof.
  unfold ishl. intros (x & -> & (y & -> & Hc)%rbind_Ok)%rbind_Ok.
  destruct ((0 <=? y) && (y <? 32)) eqn:Hy; [|discriminate].
  destruct (0 <=? x) eqn:Hx; [|discriminate].
  apply check_int_Ok in Hc as [-> ?].
  apply andb_true_iff in Hy as [?%Z.leb_le ?%Z.ltb_lt]. apply Z.leb_le in Hx.
  exists x, y. repeat split; auto.
Qed.

Lemma irem_Ok a b k :
  irem a b = Ok k ->
  exists x y, a = Ok x /\ b = Ok y /\ k = Z.rem x y /\ y <> 0.
Proof.
  unfold irem. intros (x & -> & (y & -> & Hc)%rbind_Ok)%rbind_Ok.
  destruct (y =? 0) eqn:Hy; [discriminate|].
  apply check_int_Ok in Hc as [-> ?]. apply Z.eqb_neq in Hy. eauto 6.
Qed.

Lemma of_int_Ok x k : of_int x = Ok k -> k = x.
Proof. now intros [= <-]. Qed.

(** Inversion of [e = Ok k] for an [int] expression [e]: [k] is the
    mathematical value of [e] and every intermediate result is an [int]. *)
Ltac int_inv H :=
  lazymatch type of H with
  | iadd _ _ = Ok _ =>
      let Ha := fresh "Ha" in let Hb := fresh "Hb" in let Hr := fresh "Hr" in
      apply iadd_Ok in H as (? & ? & Ha & Hb & -> & Hr); int_inv Ha; int_inv Hb
  | isub _ _ = Ok _ =>
      let Ha := fresh "Ha" in let Hb := fresh "Hb" in let Hr := fresh "Hr" in
      apply isub_Ok in H as (? & ? & Ha & Hb & -> & Hr); int_inv Ha; int_inv Hb
  | imul _ _ = Ok _ =>
      let Ha := fresh "Ha" in let Hb := fresh "Hb" in let Hr := fresh "Hr" in
      apply imul_Ok in H as (? & ? & Ha & Hb & -> & Hr); int_inv Ha; int_inv Hb
  | ishl _ _ = Ok _ =>
      let Ha := fresh "Ha" in let Hb := fresh "Hb" in
      let Hs := fresh "Hs" in let Hx := fresh "Hx" in let Hr := fresh "Hr" in
      apply ishl_Ok in H as (? & ? & Ha & Hb & -> & Hs & Hx & Hr);
      int_inv Ha; int_inv Hb
  | irem _ _ = Ok _ =>
      let Ha := fresh "Ha" in let Hb := fresh "Hb" in let Hr := fresh "Hr" in
      apply irem_Ok in H as (? & ? & Ha & Hb & -> & Hr); int_inv Ha; int_inv Hb
  | of_int _ = Ok _ => apply of_int_Ok in H; subst
  | _ => idtac
  end.

Lemma iadd_run (x y : Z) :
  in_int (x + y) = true -> iadd (of_int x) (of_int y) = of_int (x + y).
Proof. intros Hr. unfold iadd, of_int, check_int. simpl. now rewrite Hr. Qed.

Lemma isub_run (x y : Z) :
  in_int (x - y) = true -> isub (of_int x) (of_int y) = of_int (x - y).
Proof. intros Hr. unfold isub, of_int, check_int. simpl. now rewrite Hr. Qed.

Lemma imul_run (x y : Z) :
  in_int (x * y) = true -> imul (of_int x) (of_int y) = of_int (x * y).
Proof. intros Hr. unfold imul, of_int, check_int. simpl. now rewrite Hr. Qed.

Lemma ishl_run (x y : Z) :
  0 <= y < 32 -> 0 <= x -> in_int (x * 2 ^ y) = true ->
  ishl (of_int x) (of_int y) = of_int (x * 2 ^ y).
Proof.
  intros Hy Hx Hr. unfold ishl, of_int, check_int. simpl.
  replace (0 <=? y) with true by (symmetry; apply Z.leb_le; lia).
  replace (y <? 32) with true by (symmetry; apply Z.ltb_lt; lia).
  replace (0 <=? x) with true by (symmetry; apply Z.leb_le; lia).
  simpl. now rewrite Hr.
Qed.

Lemma irem_run (x y : Z) :
  y <> 0 -> in_int (Z.rem x y) = true ->
  irem (of_int x) (of_int y) = of_int (Z.rem x y).
Proof.
  intros Hy Hr. unfold irem, of_int, check_int. simpl.
  replace (y =? 0) with false by (symmetry; apply Z.eqb_neq; lia).
  now rewrite Hr.
Qed.

(** ** The monad *)

Lemma bind_Done {A B} (m : M A) (k : A -> M B) w b w' :
  bind m k w = Done b w' -> exists a w1, m w = Done a w1 /\ k a w1 = Done b w'.
Proof. unfold bind. destruct (m w) as [a w1|e]; [eauto|discriminate]. Qed.

Lemma bind_run {A B} (m : M A) (k : A -> M B) w a w1 :
  m w = Done a w1 -> bind m k w = k a w1.
Proof. unfold bind. now intros ->. Qed.

Lemma int_Done {A} (r : result A) w a w' : int r w = Done a w' -> r = Ok a /\ w' = w.
Proof. unfold int. destruct r; [|discriminate]. now intros [= -> ->]. Qed.

Lemma int_run (k : Z) w : int (of_int k) w = Done k w.
Proof. reflexivity. Qed.

Lemma ret_Done {A} (a b : A) w w' : ret a w = Done b w' -> b = a /\ w' = w.
Proof. now intros [= -> ->]. Qed.

Lemma in_bounds_true w p k :
  in_bounds w p k = true <-> 0 <= ofs p + k < ext w (blk p).
Proof. unfold in_bounds. rewrite andb_true_iff, Z.leb_le, Z.ltb_lt. reflexivity. Qed.

Lemma load_Done p k w x w' :
  load p k w = Done x w' ->
  in_bounds w p k = true /\ x = rd (mem w) p k /\ w' = note_access (Load p k) w.
Proof. unfold load. destruct (in_bounds w p k); [|discriminate]. now intros [= <- <-]. Qed.

Lemma load_run p k w :
  in_bounds w p k = true ->
  load p k w = Done (rd (mem w) p k) (note_access (Load p k) w).
Proof. unfold load. now intros ->. Qed.

Lemma store_Done p k x w w' :
  store p k x w = Done tt w' ->
  in_bounds w p k = true
  /\ w' = note_access (Store p k) (set_mem (wr (mem w) p k x) w).
Proof. unfold store. destruct (in_bounds w p k); [|discriminate]. now intros [= <-]. Qed.

Lemma store_run p k x w :
  in_bounds w p k = true ->
  store p k x w = Done tt (note_access (Store p k) (set_mem (wr (mem w) p k x) w)).
Proof. unfold store. now intros ->. Qed.

Lemma load_at_Done p e w x w' :
  load_at p e w = Done x w' ->
  exists k, e = Ok k /\ in_bounds w p k = true /\ x = rd (mem w) p k
            /\ w' = note_access (Load p k) w.
Proof.
  unfold load_at. intros (k & w1 & [-> ->]%int_Done & Hl)%bind_Done.
  apply load_Done in Hl as (Hb & Hx & Hw). exists k. auto.
Qed.

Lemma store_at_Done p e x w w' :
  store_at p e x w = Done tt w' ->
  exists k, e = Ok k /\ in_bounds w p k = true
            /\ w' = note_access (Store p k) (set_mem (wr (mem w) p k x) w).
Proof.
  unfold store_at. intros (k & w1 & [-> ->]%int_Done & Hl)%bind_Done.
  apply store_Done in Hl as (Hb & Hw). exists k. auto.
Qed.

Lemma load_at_run p k w :
  in_bounds w p k = true ->
  load_at p (of_int k) w = Done (rd (mem w) p k) (note_access (Load p k) w).
Proof. intros Hb. unfold load_at. rewrite (bind_run _ _ _ _ _ (int_run k w)). now apply load_run. Qed.

Lemma store_at_run p k x w :
  in_bounds w p k = true ->
  store_at p (of_int k) x w
  = Done tt (note_access (Store p k) (set_mem (wr (mem w) p k x) w)).
Proof. intros Hb. unfold store_at. rewrite (bind_run _ _ _ _ _ (int_run k w)). now apply store_run. Qed.

(** ** Pure world transformers *)

(** A run that succeeds changes the memory by [g] and appends the accesses
    [a]; it leaves the extents, the allocator and the history alone. *)
Definition upd_world (g : memory -> memory) (a : list access) (w : world) : world :=
  World (g (mem w)) (ext w) (next_block w) (history w) (accesses w ++ a).

Lemma upd_world_id w : upd_world (fun m => m) [] w = w.
Proof. destruct w. unfold upd_world. simpl. now rewrite app_nil_r. Qed.

Lemma upd_world_compose g1 a1 g2 a2 w :
  upd_world g2 a2 (upd_world g1 a1 w) = upd_world (fun m => g2 (g1 m)) (a1 ++ a2) w.
Proof. unfold upd_world. simpl. now rewrite app_assoc. Qed.

Lemma note_access_upd a w : note_access a w = upd_world (fun m => m) [a] w.
Proof. reflexivity. Qed.

Lemma store_upd p k x w :
  note_access (Store p k) (set_mem (wr (mem w) p k x) w)
  = upd_world (fun m => wr m p k x) [Store p k] w.
Proof. reflexivity. Qed.

Lemma foldl_upd_world {A} (g : A -> memory -> memory) (a : A -> list access) l w :
  foldl (fun w x => upd_world (g x) (a x) w) w l
  = upd_world (fun m => foldl (fun m x => g x m) m l) (flat_map a l) w.
Proof.
  revert w. induction l as [|x l IH]; intros w; simpl.
  - now rewrite upd_world_id.
  - rewrite IH, upd_world_compose. reflexivity.
Qed.

(** ** Loops *)

Lemma for_range_unfold lo hi (body : Z -> M unit) :
  lo < hi ->
  for_range lo hi body = (body lo ;; for_range (lo + 1) hi body).
Proof.
  intros Hlt. unfold for_range. rewrite seqZ_cons by lia. simpl.
  replace (Z.succ lo) with (lo + 1) by lia.
  replace (Z.pred (hi - lo)) with (hi - (lo + 1)) by lia.
  reflexivity.
Qed.

Lemma for_range_nil lo hi (body : Z -> M unit) :
  hi <= lo -> for_range lo hi body = ret tt.
Proof. intros Hle. unfold for_range. now rewrite seqZ_nil by lia. Qed.

(** A loop whose body, when it succeeds, acts as [step]. *)
Lemma for_range_Done (step : Z -> world -> world) lo hi body w w' :
  (forall i w1 w2, lo <= i < hi -> body i w1 = Done tt w2 -> w2 = step i w1) ->
  for_range lo hi body w = Done tt w' ->
  w' = foldl (fun w i => step i w) w (seqZ lo (hi - lo)).
Proof.
  intros Hbody. unfold for_range.
  assert (Hin : forall i, i ∈ seqZ lo (hi - lo) -> lo <= i < hi).
  { intros i Hi%elem_of_seqZ. lia. }
  revert w Hin. induction (seqZ lo (hi - lo)) as [|i l IH]; intros w Hin; simpl.
  - now intros [= <-].
  - intros (a & w1 & Hb & Hrest)%bind_Done. destruct a.
    apply Hbody in Hb; [|apply Hin; left]. subst w1.
    apply IH; [|assumption]. intros i' Hi'. apply Hin. now right.
Qed.

(** A loop whose body succeeds and acts as [step] under an invariant. *)
Lemma for_range_run (I : world -> Prop) (step : Z -> world -> world) lo hi body w :
  (forall i w1, lo <= i < hi -> I w1 -> body i w1 = Done tt (step i w1) /\ I (step i w1)) ->
  I w ->
  for_range lo hi body w = Done tt (foldl (fun w i => step i w) w (seqZ lo (hi - lo)))
  /\ I (foldl (fun w i => step i w) w (seqZ lo (hi - lo))).
Proof.
  intros Hbody. unfold for_range.
  assert (Hin : forall i, i ∈ seqZ lo (hi - lo) -> lo <= i < hi).
  { intros i Hi%elem_of_seqZ. lia. }
  revert w Hin. induction (seqZ lo (hi - lo)) as [|i l IH]; intros w Hin Hw; simpl.
  - split; [reflexivity|assumption].
  - destruct (Hbody i w) as [Hb Hi]; [apply Hin; left|assumption|].
    rewrite (bind_run _ _ _ _ _ Hb).
    apply IH; [|assumption]. intros i' Hi'. apply Hin. now right.
Qed.

(** ** The smoothers as memory transformers *)

(** Row-major index of the grid point [(i, j)]. *)
Definition idx (n : Z) (p : Z * Z) : Z := p.2 + p.1 * n.

(** The interior points [1 <= i, j <= n - 2], row by row. *)
Definition interior (n : Z) : list (Z * Z) :=
  flat_map (fun i => map (fun j => (i, j)) (seqZ 1 (n - 1 - 1))) (seqZ 1 (n - 1 - 1)).

(** The value the smoother assigns to the point [p], read from [m]. *)
Definition stencil (m : memory) (u f : ptr) (n : Z) (h : T) (p : Z * Z) : T :=
  let '(i, j) := p in
  (- lit 0.25 * (h * h * rd m f (j + i * n)
                 - rd m u (j + 1 + i * n) - rd m u (j - 1 + i * n)
                 - rd m u (j + (i + 1) * n) - rd m u (j + (i - 1) * n)))%T.

Definition gs_mem (u f : ptr) (n : Z) (h : T) (p : Z * Z) (m : memory) : memory :=
  wr m u (idx n p) (stencil m u f n h p).

Definition gs_acc (u f : ptr) (n : Z) (p : Z * Z) : list access :=
  let '(i, j) := p in
  [Load f (j + i * n); Load u (j + 1 + i * n); Load u (j - 1 + i * n);
   Load u (j + (i + 1) * n); Load u (j + (i - 1) * n); Store u (j + i * n)].

(** The points of one colour. *)
Definition has_color (color : Z) (p : Z * Z) : bool := Z.rem (p.1 + p.2) 2 =? color.

Definition sweep (u f : ptr) (n : Z) (h : T) (pts : list (Z * Z)) (m : memory) : memory :=
  foldl (fun m p => gs_mem u f n h p m) m pts.

Definition sweep_acc (u f : ptr) (n : Z) (pts : list (Z * Z)) : list access :=
  flat_map (gs_acc u f n) pts.

(** The value the residual operator assigns to [r] at the point [p]. *)
Definition residual_at (m : memory) (u f : ptr) (n : Z) (hi2 : T) (p : Z * Z) : T :=
  let '(i, j) := p in
  (rd m f (j + i * n)
   - (rd m u (j + 1 + i * n) + rd m u (j - 1 + i * n) + - lit 4 * rd m u (j + i * n)
      + rd m u (j + (i + 1) * n) + rd m u (j + (i - 1) * n)) * hi2)%T.

Definition res_mem (r u f : ptr) (n : Z) (hi2 : T) (p : Z * Z) (m : memory) : memory :=
  wr m r (idx n p) (residual_at m u f n hi2 p).

Definition res_acc (r u f : ptr) (n : Z) (p : Z * Z) : list access :=
  let '(i, j) := p in
  [Load f (j + i * n); Load u (j + 1 + i * n); Load u (j - 1 + i * n);
   Load u (j + i * n); Load u (j + (i + 1) * n); Load u (j + (i - 1) * n);
   Store r (j + i * n)].

(** Runs of the loop bodies. *)

Ltac run_inv H :=
  repeat first
    [ progress cbv beta zeta in H
    | lazymatch type of H with
      | bind (load_at _ _) _ _ = Done _ _ =>
          let x := fresh "x" in let w1 := fresh "w" in let k := fresh "k" in
          let H1 := fresh "H" in let He := fresh "He" in let Hb := fresh "Hb" in
          apply bind_Done in H as (x & w1 & H1 & H);
          apply load_at_Done in H1 as (k & He & Hb & -> & ->); int_inv He
      | bind (int _) _ _ = Done _ _ =>
          let x := fresh "x" in let w1 := fresh "w" in
          let He := fresh "He" in
          apply bind_Done in H as (x & w1 & [He ->]%int_Done & H); int_inv He
      | store_at _ _ _ _ = Done _ _ =>
          let k := fresh "k" in let He := fresh "He" in let Hb := fresh "Hb" in
          apply store_at_Done in H as (k & He & Hb & ->); int_inv He
      end ].

Lemma gs_update_Done u f n h i j w w' :
  gs_update u f n h i j w = Done tt w' ->
  w' = upd_world (gs_mem u f n h (i, j)) (gs_acc u f n (i, j)) w.
Proof.
  unfold gs_update. intros Hrun. run_inv Hrun.
  unfold upd_world, note_access, set_mem, gs_mem, stencil, idx. simpl.
  rewrite <- !app_assoc. reflexivity.
Qed.

Lemma residual_update_Done r u f n hi2 i j w w' :
  residual_update r u f n hi2 i j w = Done tt w' ->
  w' = upd_world (res_mem r u f n hi2 (i, j)) (res_acc r u f n (i, j)) w.
Proof.
  unfold residual_update. intros Hrun. run_inv Hrun.
  unfold upd_world, note_access, set_mem, res_mem, residual_at, idx. simpl.
  rewrite <- !app_assoc. reflexivity.
Qed.

Definition rb_mem (color : Z) (u f : ptr) (n : Z) (h : T) (p : Z * Z) (m : memory)
    : memory :=
  if has_color color p then gs_mem u f n h p m else m.

Definition rb_acc (color : Z) (u f : ptr) (n : Z) (p : Z * Z) : list access :=
  if has_color color p then gs_acc u f n p else [].

Lemma rb_update_Done color u f n h i j w w' :
  rb_update color u f n h i j w = Done tt w' ->
  w' = upd_world (rb_mem color u f n h (i, j)) (rb_acc color u f n (i, j)) w.
Proof.
  unfold rb_update. intros Hrun. run_inv Hrun.
  unfold rb_mem, rb_acc, has_color. simpl.
  destruct (Z.rem (i + j) 2 =? color).
  - now apply gs_update_Done.
  - apply ret_Done in Hrun as [_ ->]. now rewrite upd_world_id.
Qed.

(** ** Loop nests over a square of grid points *)

Definition grid (lo hi : Z) : list (Z * Z) :=
  flat_map (fun i => map (fun j => (i, j)) (seqZ lo (hi - lo))) (seqZ lo (hi - lo)).

Lemma interior_grid n : interior n = grid 1 (n - 1).
Proof. reflexivity. Qed.

Lemma elem_of_grid lo hi i j : (i, j) ∈ grid lo hi <-> lo <= i < hi /\ lo <= j < hi.
Proof.
  unfold grid. rewrite list_elem_of_In, in_flat_map. split.
  - intros (i' & Hi' & Hin). apply in_map_iff in Hin as (j' & [= <- <-] & Hj').
    apply list_elem_of_In, elem_of_seqZ in Hi'. apply list_elem_of_In, elem_of_seqZ in Hj'. lia.
  - intros [Hi Hj]. exists i. split.
    + apply list_elem_of_In, elem_of_seqZ. lia.
    + apply in_map_iff. exists j. split; [reflexivity|].
      apply list_elem_of_In, elem_of_seqZ. lia.
Qed.

Lemma elem_of_interior n i j : (i, j) ∈ interior n <-> 1 <= i <= n - 2 /\ 1 <= j <= n - 2.
Proof. rewrite interior_grid, elem_of_grid. lia. Qed.

Lemma foldl_flat_map {A B C} (f : A -> B -> A) (g : C -> list B) l a :
  foldl f a (flat_map g l) = foldl (fun a x => foldl f a (g x)) a l.
Proof.
  revert a. induction l as [|x l IH]; intros a; simpl; [reflexivity|].
  now rewrite foldl_app, IH.
Qed.

Lemma flat_map_flat_map {A B C} (f : B -> list C) (g : A -> list B) l :
  flat_map f (flat_map g l) = flat_map (fun x => flat_map f (g x)) l.
Proof.
  induction l as [|x l IH]; simpl; [reflexivity|].
  now rewrite flat_map_app, IH.
Qed.

Lemma flat_map_map {A B C} (f : B -> list C) (g : A -> B) l :
  flat_map f (map g l) = flat_map (fun x => f (g x)) l.
Proof. induction l as [|x l IH]; simpl; [reflexivity|]. now rewrite IH. Qed.

Lemma foldl_map {A B C} (f : A -> B -> A) (g : C -> B) l a :
  foldl f a (map g l) = foldl (fun a x => f a (g x)) a l.
Proof. revert a. induction l as [|x l IH]; intros a; simpl; [reflexivity|]. now rewrite IH. Qed.

Lemma rows_cols_steps (g : Z * Z -> memory -> memory) (a : Z * Z -> list access)
    (rows cols : list Z) w :
  foldl (fun w i => foldl (fun w j => upd_world (g (i, j)) (a (i, j)) w) w cols) w rows
  = upd_world (fun m => foldl (fun m p => g p m) m
                              (flat_map (fun i => map (fun j => (i, j)) cols) rows))
              (flat_map a (flat_map (fun i => map (fun j => (i, j)) cols) rows)) w.
Proof.
  revert w. induction rows as [|i rows IH]; intros w; simpl.
  - destruct w. unfold upd_world. simpl. now rewrite app_nil_r.
  - rewrite (foldl_upd_world (fun j => g (i, j)) (fun j => a (i, j))), IH.
    rewrite upd_world_compose. unfold upd_world. f_equal.
    + now rewrite foldl_app, foldl_map.
    + now rewrite flat_map_app, flat_map_map.
Qed.

Lemma grid_steps (g : Z * Z -> memory -> memory) (a : Z * Z -> list access) lo hi w :
  foldl (fun w i =>
           foldl (fun w j => upd_world (g (i, j)) (a (i, j)) w) w (seqZ lo (hi - lo)))
        w (seqZ lo (hi - lo))
  = upd_world (fun m => foldl (fun m p => g p m) m (grid lo hi))
              (flat_map a (grid lo hi)) w.
Proof. apply rows_cols_steps. Qed.

(** A loop nest whose body, when it succeeds, acts as [g] and [a]. *)
Lemma nest_Done (g : Z * Z -> memory -> memory) (a : Z * Z -> list access)
    (body : Z -> Z -> M unit) lo hi w w' :
  (forall i j w1 w2, body i j w1 = Done tt w2 -> w2 = upd_world (g (i, j)) (a (i, j)) w1) ->
  for_range lo hi (fun i => for_range lo hi (fun j => body i j)) w = Done tt w' ->
  w' = upd_world (fun m => foldl (fun m p => g p m) m (grid lo hi))
                 (flat_map a (grid lo hi)) w.
Proof.
  intros Hbody Hrun. rewrite <- grid_steps.
  eapply (for_range_Done
            (fun i w => foldl (fun w j => upd_world (g (i, j)) (a (i, j)) w) w
                              (seqZ lo (hi - lo)))); [|exact Hrun].
  intros i w1 w2 _ Hrow.
  eapply (for_range_Done (fun j w => upd_world (g (i, j)) (a (i, j)) w)); [|exact Hrow].
  intros j w3 w4 _. apply Hbody.
Qed.

(** A loop nest whose body succeeds on the points of the square as long
    as the extents are [E]. *)
Lemma nest_run (E : nat -> Z) (g : Z * Z -> memory -> memory) (a : Z * Z -> list access)
    (body : Z -> Z -> M unit) lo hi w :
  (forall i j w1, lo <= i < hi -> lo <= j < hi -> ext w1 = E ->
                  body i j w1 = Done tt (upd_world (g (i, j)) (a (i, j)) w1)) ->
  ext w = E ->
  for_range lo hi (fun i => for_range lo hi (fun j => body i j)) w
  = Done tt (upd_world (fun m => foldl (fun m p => g p m) m (grid lo hi))
                       (flat_map a (grid lo hi)) w).
Proof.
  intros Hbody Hw. rewrite <- grid_steps.
  eapply (for_range_run (fun w => ext w = E)); [|exact Hw].
  intros i w1 Hi Hw1.
  eapply (for_range_run (fun w => ext w = E)); [|exact Hw1].
  intros j w2 Hj Hw2. split; [now apply Hbody|exact Hw2].
Qed.

(** ** Runs of the smoothers and of the residual operator *)

Definition color_points (color n : Z) : list (Z * Z) :=
  List.filter (has_color color) (interior n).

Lemma foldl_filter {A B} (P : B -> bool) (g : B -> A -> A) l a :
  foldl (fun a x => if P x then g x a else a) a l
  = foldl (fun a x => g x a) a (List.filter P l).
Proof.
  revert a. induction l as [|x l IH]; intros a; simpl; [reflexivity|].
  destruct (P x); simpl; apply IH.
Qed.

Lemma flat_map_filter {A B} (P : A -> bool) (g : A -> list B) l :
  flat_map (fun x => if P x then g x else []) l = flat_map g (List.filter P l).
Proof.
  induction l as [|x l IH]; simpl; [reflexivity|].
  destruct (P x); simpl; now rewrite IH.
Qed.

Lemma gauss_seidel_Done u f n h w w' :
  gauss_seidel u f n h w = Done tt w' ->
  w' = upd_world (sweep u f n h (interior n)) (sweep_acc u f n (interior n))
                 (note_call (call_gauss_seidel u f n h) w).
Proof.
  unfold gauss_seidel. intros (a & w1 & [= <-] & Hrun)%bind_Done.
  run_inv Hrun.
  apply (nest_Done (gs_mem u f n h) (gs_acc u f n)) in Hrun; [exact Hrun|].
  intros i j w1 w2. apply gs_update_Done.
Qed.

Lemma color_pass_Done color u f n h w w' :
  color_pass color u f n h w = Done tt w' ->
  w' = upd_world (sweep u f n h (color_points color n))
                 (sweep_acc u f n (color_points color n)) w.
Proof.
  unfold color_pass. intros Hrun. run_inv Hrun.
  apply (nest_Done (rb_mem color u f n h) (rb_acc color u f n)) in Hrun.
  - subst w'. unfold upd_world, sweep, sweep_acc, color_points, rb_mem, rb_acc.
    rewrite <- interior_grid. f_equal.
    + apply foldl_filter.
    + f_equal. apply flat_map_filter.
  - intros i j w1 w2. apply rb_update_Done.
Qed.

Lemma gauss_seidel_red_black_Done u f n h w w' :
  gauss_seidel_red_black u f n h w = Done tt w' ->
  w' = upd_world (fun m => sweep u f n h (color_points 1 n)
                                 (sweep u f n h (color_points 0 n) m))
                 (sweep_acc u f n (color_points 0 n) ++ sweep_acc u f n (color_points 1 n))
                 (note_call (call_gauss_seidel_red_black u f n h) w).
Proof.
  unfold gauss_seidel_red_black.
  intros (a & w1 & [= <-] & (a' & w2 & Hred & Hblack)%bind_Done)%bind_Done.
  destruct a'. apply color_pass_Done in Hred. apply color_pass_Done in Hblack. subst.
  now rewrite upd_world_compose.
Qed.

Definition residual_sweep (r u f : ptr) (n : Z) (h : T) (m : memory) : memory :=
  foldl (fun m p => res_mem r u f n (lit 1 / (h * h))%T p m) m (interior n).

Lemma poisson_residual_Done r u f n h w w' :
  poisson_residual r u f n h w = Done tt w' ->
  w' = upd_world (residual_sweep r u f n h) (flat_map (res_acc r u f n) (interior n))
                 (note_call (call_poisson_residual r u f n h) w).
Proof.
  unfold poisson_residual. intros (a & w1 & [= <-] & Hrun)%bind_Done.
  run_inv Hrun.
  apply (nest_Done (res_mem r u f n (lit 1 / (h * h))%T) (res_acc r u f n)) in Hrun;
    [exact Hrun|].
  intros i j w1 w2. apply residual_update_Done.
Qed.

(** *** Sufficient conditions for a run *)

(** [p[0 .. len-1]] lies inside the block of [p]. *)
Definition valid (E : nat -> Z) (p : ptr) (len : Z) : Prop :=
  0 <= ofs p /\ ofs p + len <= E (blk p).

(** The largest [n] for which every index of an [n] x [n] grid is an [int]. *)
Definition N_MAX : Z := 46340.

Lemma in_bounds_valid w p len k :
  valid (ext w) p len -> 0 <= k < len -> in_bounds w p k = true.
Proof. intros [Ho He] Hk. apply in_bounds_true. lia. Qed.

Ltac int_ok := apply in_int_true; unfold INT_MIN, INT_MAX; lia.

Ltac int_run :=
  repeat first [ rewrite imul_run by int_ok
               | rewrite iadd_run by int_ok
               | rewrite isub_run by int_ok ].

Lemma gs_update_run u f n h i j w :
  1 <= i <= n - 2 -> 1 <= j <= n - 2 -> n <= N_MAX ->
  valid (ext w) u (n * n) -> valid (ext w) f (n * n) ->
  gs_update u f n h i j w
  = Done tt (upd_world (gs_mem u f n h (i, j)) (gs_acc u f n (i, j)) w).
Proof.
  unfold N_MAX. intros Hi Hj Hn Hu Hf.
  assert (Hnn : n * n <= 2147395600) by nia.
  assert (Hin : n <= i * n) by nia.
  assert (Hin2 : i * n <= n * n - 2 * n) by nia.
  unfold gs_update. int_run.
  erewrite bind_run by (apply load_at_run; eapply in_bounds_valid; [exact Hf|lia]).
  do 4 (erewrite bind_run by (apply load_at_run; eapply in_bounds_valid; [exact Hu|lia])).
  rewrite store_at_run by (eapply in_bounds_valid; [exact Hu|lia]).
  unfold upd_world, note_access, set_mem, gs_mem, stencil, idx. simpl.
  rewrite <- !app_assoc. reflexivity.
Qed.

Lemma rb_update_run color u f n h i j w :
  1 <= i <= n - 2 -> 1 <= j <= n - 2 -> n <= N_MAX ->
  valid (ext w) u (n * n) -> valid (ext w) f (n * n) ->
  rb_update color u f n h i j w
  = Done tt (upd_world (rb_mem color u f n h (i, j)) (rb_acc color u f n (i, j)) w).
Proof.
  intros Hi Hj Hn Hu Hf. unfold rb_update.
  assert (Hrem : 0 <= Z.rem (i + j) 2 < 2) by (apply Z.rem_bound_pos; lia).
  unfold N_MAX in Hn. int_run. rewrite irem_run by (lia || int_ok).
  rewrite (bind_run _ _ _ _ _ (int_run _ _)).
  unfold rb_mem, rb_acc, has_color. simpl.
  destruct (Z.rem (i + j) 2 =? color).
  - now apply gs_update_run.
  - now rewrite upd_world_id.
Qed.

Lemma residual_update_run r u f n hi2 i j w :
  1 <= i <= n - 2 -> 1 <= j <= n - 2 -> n <= N_MAX ->
  valid (ext w) r (n * n) -> valid (ext w) u (n * n) -> valid (ext w) f (n * n) ->
  residual_update r u f n hi2 i j w
  = Done tt (upd_world (res_mem r u f n hi2 (i, j)) (res_acc r u f n (i, j)) w).
Proof.
  unfold N_MAX. intros Hi Hj Hn Hr Hu Hf.
  assert (Hnn : n * n <= 2147395600) by nia.
  assert (Hin : n <= i * n) by nia.
  assert (Hin2 : i * n <= n * n - 2 * n) by nia.
  unfold residual_update. int_run.
  erewrite bind_run by (apply load_at_run; eapply in_bounds_valid; [exact Hf|lia]).
  do 5 (erewrite bind_run by (apply load_at_run; eapply in_bounds_valid; [exact Hu|lia])).
  rewrite store_at_run by (eapply in_bounds_valid; [exact Hr|lia]).
  unfold upd_world, note_access, set_mem, res_mem, residual_at, idx. simpl.
  rewrite <- !app_assoc. reflexivity.
Qed.

Lemma enter_run (c : call) (k : unit -> M unit) w :
  bind (enter c) k w = k tt (note_call c w).
Proof. reflexivity. Qed.

Lemma gauss_seidel_run u f n h w :
  1 <= n <= N_MAX ->
  valid (ext w) u (n * n) -> valid (ext w) f (n * n) ->
  gauss_seidel u f n h w
  = Done tt (upd_world (sweep u f n h (interior n)) (sweep_acc u f n (interior n))
                       (note_call (call_gauss_seidel u f n h) w)).
Proof.
  intros Hn Hu Hf. unfold gauss_seidel. rewrite enter_run.
  unfold N_MAX in Hn. int_run. rewrite (bind_run _ _ _ _ _ (int_run _ _)).
  apply (nest_run (ext w) (gs_mem u f n h) (gs_acc u f n)); [|reflexivity].
  intros i j w1 Hi Hj Hw1. apply gs_update_run; rewrite ?Hw1; unfold N_MAX; auto; lia.
Qed.

Lemma color_pass_run color u f n h w :
  1 <= n <= N_MAX ->
  valid (ext w) u (n * n) -> valid (ext w) f (n * n) ->
  color_pass color u f n h w
  = Done tt (upd_world (sweep u f n h (color_points color n))
                       (sweep_acc u f n (color_points color n)) w).
Proof.
  intros Hn Hu Hf. unfold color_pass.
  unfold N_MAX in Hn. int_run. rewrite (bind_run _ _ _ _ _ (int_run _ _)).
  rewrite (nest_run (ext w) (rb_mem color u f n h) (rb_acc color u f n)).
  - unfold upd_world, sweep, sweep_acc, color_points, rb_mem, rb_acc.
    rewrite <- interior_grid. do 2 f_equal.
    + apply foldl_filter.
    + f_equal. apply flat_map_filter.
  - intros i j w1 Hi Hj Hw1. apply rb_update_run; rewrite ?Hw1; unfold N_MAX; auto; lia.
  - reflexivity.
Qed.

Lemma gauss_seidel_red_black_run u f n h w :
  1 <= n <= N_MAX ->
  valid (ext w) u (n * n) -> valid (ext w) f (n * n) ->
  gauss_seidel_red_black u f n h w
  = Done tt (upd_world (fun m => sweep u f n h (color_points 1 n)
                                       (sweep u f n h (color_points 0 n) m))
                       (sweep_acc u f n (color_points 0 n)
                        ++ sweep_acc u f n (color_points 1 n))
                       (note_call (call_gauss_seidel_red_black u f n h) w)).
Proof.
  intros Hn Hu Hf. unfold gauss_seidel_red_black. rewrite enter_run. cbv beta.
  erewrite bind_run by (apply color_pass_run; [exact Hn|exact Hu|exact Hf]).
  rewrite color_pass_run by assumption.
  now rewrite upd_world_compose.
Qed.

Lemma poisson_residual_run r u f n h w :
  1 <= n <= N_MAX ->
  valid (ext w) r (n * n) -> valid (ext w) u (n * n) -> valid (ext w) f (n * n) ->
  poisson_residual r u f n h w
  = Done tt (upd_world (residual_sweep r u f n h)
                       (flat_map (res_acc r u f n) (interior n))
                       (note_call (call_poisson_residual r u f n h) w)).
Proof.
  intros Hn Hr Hu Hf. unfold poisson_residual. rewrite enter_run.
  unfold N_MAX in Hn. cbv zeta. int_run. rewrite (bind_run _ _ _ _ _ (int_run _ _)).
  apply (nest_run (ext w) (res_mem r u f n (lit 1 / (h * h))%T) (res_acc r u f n));
    [|reflexivity].
  intros i j w1 Hi Hj Hw1.
  apply residual_update_run; rewrite ?Hw1; unfold N_MAX; auto; lia.
Qed.

(** ** Memory: reads after writes *)

Lemma rd_wr_same m p k x : rd (wr m p k x) p k = x.
Proof. unfold rd, wr. now rewrite Nat.eqb_refl, Z.eqb_refl. Qed.

Lemma wr_other m p k x b a :
  b <> blk p \/ a <> ofs p + k -> wr m p k x b a = m b a.
Proof.
  intros Hne. unfold wr.
  destruct (Nat.eqb_spec b (blk p)); [|reflexivity].
  destruct (Z.eqb_spec a (ofs p + k)); [|reflexivity].
  exfalso. destruct Hne as [Hne|Hne]; now apply Hne.
Qed.

Lemma rd_wr_other m p k x q k' :
  blk q <> blk p \/ ofs q + k' <> ofs p + k -> rd (wr m p k x) q k' = rd m q k'.
Proof. intros Hne. unfold rd. now apply wr_other. Qed.

(** A sequence of writes [dst[idx p] = val m p], one per point of [pts]. *)
Definition fold_wr (dst : ptr) (n : Z) (val : memory -> Z * Z -> T)
    (pts : list (Z * Z)) (m : memory) : memory :=
  foldl (fun m p => wr m dst (idx n p) (val m p)) m pts.

Lemma sweep_fold_wr u f n h pts m :
  sweep u f n h pts m = fold_wr u n (fun m p => stencil m u f n h p) pts m.
Proof. reflexivity. Qed.

Lemma residual_sweep_fold_wr r u f n h m :
  residual_sweep r u f n h m
  = fold_wr r n (fun m p => residual_at m u f n (lit 1 / (h * h))%T p) (interior n) m.
Proof. reflexivity. Qed.

Lemma fold_wr_app dst n val l1 l2 m :
  fold_wr dst n val (l1 ++ l2) m = fold_wr dst n val l2 (fold_wr dst n val l1 m).
Proof. unfold fold_wr. apply foldl_app. Qed.

Lemma fold_wr_cons dst n val p l m :
  fold_wr dst n val (p :: l) m = fold_wr dst n val l (wr m dst (idx n p) (val m p)).
Proof. reflexivity. Qed.

(** Cells that are not written keep their content. *)
Lemma fold_wr_frame dst n val pts m b a :
  (forall p, p ∈ pts -> b <> blk dst \/ a <> ofs dst + idx n p) ->
  fold_wr dst n val pts m b a = m b a.
Proof.
  revert m. induction pts as [|p pts IH]; intros m Hout; [reflexivity|].
  rewrite fold_wr_cons, IH.
  - apply wr_other, Hout. left.
  - intros q Hq. apply Hout. now right.
Qed.

Lemma fold_wr_rd_frame dst n val pts m q k :
  (forall p, p ∈ pts -> blk q <> blk dst \/ ofs q + k <> ofs dst + idx n p) ->
  rd (fold_wr dst n val pts m) q k = rd m q k.
Proof. intros Hout. unfold rd. now apply fold_wr_frame. Qed.

(** The last write to a cell decides its content. *)
Lemma fold_wr_value dst n val pre p post m :
  (forall q, q ∈ post -> idx n q <> idx n p) ->
  rd (fold_wr dst n val (pre ++ p :: post) m) dst (idx n p)
  = val (fold_wr dst n val pre m) p.
Proof.
  intros Hpost. rewrite fold_wr_app, fold_wr_cons, fold_wr_rd_frame.
  - apply rd_wr_same.
  - intros q Hq. right. specialize (Hpost q Hq). lia.
Qed.

(** ** The order of the grid points *)

(** [before n p q]: the cell of [p] comes before the cell of [q]. *)
Definition before (n : Z) (p q : Z * Z) : Prop := idx n p < idx n q.

Lemma seqZ_sorted lo len : StronglySorted Z.lt (seqZ lo len).
Proof.
  remember (Z.to_nat len) as k eqn:Hk. revert lo len Hk.
  induction k as [|k IH]; intros lo len Hk.
  - rewrite seqZ_nil by lia. constructor.
  - rewrite seqZ_cons by lia. constructor.
    + apply IH. lia.
    + apply Forall_seqZ. intros. lia.
Qed.

Lemma row_sorted n i cols :
  StronglySorted Z.lt cols ->
  StronglySorted (before n) (map (fun j => (i, j)) cols).
Proof.
  induction 1 as [|j cols Hs IH Hall]; simpl; constructor; [assumption|].
  apply Forall_forall. intros q Hq. apply list_elem_of_In, in_map_iff in Hq as (j' & <- & Hj').
  rewrite Forall_forall in Hall. specialize (Hall j' (proj2 (list_elem_of_In _ _) Hj')).
  unfold before, idx. simpl. lia.
Qed.

Lemma rows_sorted n rows cols :
  StronglySorted Z.lt rows -> StronglySorted Z.lt cols ->
  (forall j, j ∈ cols -> 0 <= j < n) ->
  StronglySorted (before n) (flat_map (fun i => map (fun j => (i, j)) cols) rows).
Proof.
  intros Hrows Hcols Hrange.
  induction Hrows as [|i rows Hs IH Hall]; simpl; [constructor|].
  apply StronglySorted_app_2; [|now apply row_sorted|assumption].
  intros p q Hp Hq.
  apply list_elem_of_In, in_map_iff in Hp as (j & <- & Hj).
  apply list_elem_of_In, in_flat_map in Hq as (i' & Hi' & Hq).
  apply in_map_iff in Hq as (j' & <- & Hj').
  rewrite Forall_forall in Hall. specialize (Hall i' (proj2 (list_elem_of_In _ _) Hi')).
  pose proof (Hrange j (proj2 (list_elem_of_In _ _) Hj)).
  pose proof (Hrange j' (proj2 (list_elem_of_In _ _) Hj')).
  unfold before, idx. simpl. nia.
Qed.

Lemma grid_sorted n lo hi :
  0 <= lo -> hi <= n -> StronglySorted (before n) (grid lo hi).
Proof.
  intros Hlo Hhi. apply rows_sorted; try apply seqZ_sorted.
  intros j Hj%elem_of_seqZ. lia.
Qed.

Lemma interior_sorted n : StronglySorted (before n) (interior n).
Proof. rewrite interior_grid. apply grid_sorted; lia. Qed.

Lemma filter_sorted {A} (R : relation A) (P : A -> bool) l :
  StronglySorted R l -> StronglySorted R (List.filter P l).
Proof.
  induction 1 as [|x l Hs IH Hall]; simpl; [constructor|].
  destruct (P x); [|assumption]. constructor; [assumption|].
  apply Forall_forall. intros y Hy. rewrite Forall_forall in Hall. apply Hall.
  apply list_elem_of_In in Hy. apply list_elem_of_In.
  now apply filter_In in Hy as [? _].
Qed.

Lemma sorted_split n pre p post :
  StronglySorted (before n) (pre ++ p :: post) ->
  (forall q, q ∈ pre -> idx n q < idx n p)
  /\ (forall q, q ∈ post -> idx n p < idx n q).
Proof.
  intros Hs. apply StronglySorted_app in Hs as (Hlt & _ & Hpost). split.
  - intros q Hq. apply (Hlt q p Hq). left.
  - apply StronglySorted_cons in Hpost as [Hall _].
    rewrite Forall_forall in Hall. exact Hall.
Qed.

(** In a sweep in increasing cell order, the cells before the current one
    hold their final content and the cells after it their initial one. *)
Lemma fold_wr_sorted dst n val pre p post m :
  StronglySorted (before n) (pre ++ p :: post) ->
  rd (fold_wr dst n val (pre ++ p :: post) m) dst (idx n p)
  = val (fold_wr dst n val pre m) p
  /\ (forall c, c < idx n p ->
        rd (fold_wr dst n val pre m) dst c
        = rd (fold_wr dst n val (pre ++ p :: post) m) dst c)
  /\ (forall c, idx n p < c -> rd (fold_wr dst n val pre m) dst c = rd m dst c).
Proof.
  intros Hs. destruct (sorted_split _ _ _ _ Hs) as [Hpre Hpost]. repeat split.
  - apply fold_wr_value. intros q Hq. specialize (Hpost q Hq). lia.
  - intros c Hc. rewrite fold_wr_app. symmetry. apply fold_wr_rd_frame.
    intros q Hq. right. apply elem_of_cons in Hq as [->|Hq]; [lia|].
    specialize (Hpost q Hq). lia.
  - intros c Hc. apply fold_wr_rd_frame.
    intros q Hq. right. specialize (Hpre q Hq). lia.
Qed.

(** ** Grid geometry *)

Lemma idx_inj n i j i' j' :
  0 <= j < n -> 0 <= j' < n -> idx n (i, j) = idx n (i', j') -> i = i' /\ j = j'.
Proof. unfold idx. simpl. intros Hj Hj' Heq. assert (i = i') by nia. subst. lia. Qed.

Lemma interior_range n p :
  p ∈ interior n -> 3 <= n /\ n + 1 <= idx n p <= n * n - n - 2.
Proof.
  destruct p as [i j]. intros [Hi Hj]%elem_of_interior. unfold idx. simpl. nia.
Qed.

Lemma color_points_elem color n p :
  p ∈ color_points color n <-> p ∈ interior n /\ has_color color p = true.
Proof. unfold color_points. rewrite !list_elem_of_In. apply filter_In. Qed.

(** The regions [p[0 .. np-1]] and [q[0 .. nq-1]] do not overlap. *)
Definition separate (p : ptr) (np : Z) (q : ptr) (nq : Z) : Prop :=
  blk p <> blk q \/ ofs p + np <= ofs q \/ ofs q + nq <= ofs p.

Lemma separate_cells p np q nq k k' :
  separate p np q nq -> 0 <= k < np -> 0 <= k' < nq ->
  blk q <> blk p \/ ofs q + k' <> ofs p + k.
Proof. unfold separate. intros [?|[?|?]] Hk Hk'; [left; congruence|right; lia..]. Qed.

(** The grid point of a cell index. *)
Definition point_of (n k : Z) : Z * Z := (k / n, k mod n).

Lemma point_of_idx n i j : 0 <= j < n -> point_of n (idx n (i, j)) = (i, j).
Proof.
  intros Hj. unfold point_of, idx. simpl.
  rewrite Z.div_add, Z.mod_add by lia.
  rewrite Z.div_small, Z.mod_small by lia. reflexivity.
Qed.

Definition is_interior (n : Z) (p : Z * Z) : bool :=
  (1 <=? p.1) && (p.1 <=? n - 2) && (1 <=? p.2) && (p.2 <=? n - 2).

Lemma is_interior_true n i j :
  is_interior n (i, j) = true <-> (i, j) ∈ interior n.
Proof.
  unfold is_interior. simpl. rewrite elem_of_interior, !andb_true_iff, !Z.leb_le. lia.
Qed.

(** A cell of [u] that is the cell of a grid point [(i, j)] on the boundary. *)
Definition on_boundary (n i j : Z) : Prop :=
  0 <= i < n /\ 0 <= j < n /\ (i = 0 \/ i = n - 1 \/ j = 0 \/ j = n - 1).

Lemma boundary_not_interior n i j p :
  on_boundary n i j -> p ∈ interior n -> idx n p <> idx n (i, j).
Proof.
  destruct p as [i' j']. intros (Hi & Hj & Hb) [Hi' Hj']%elem_of_interior Heq.
  apply idx_inj in Heq as [-> ->]; lia.
Qed.

(** ** What a sweep computes *)

(** Reading the stencil from two memories that agree on the five cells it
    reads gives the same value. *)
Lemma stencil_agree m1 m2 u f n h i j :
  rd m1 f (j + i * n) = rd m2 f (j + i * n) ->
  rd m1 u (j + 1 + i * n) = rd m2 u (j + 1 + i * n) ->
  rd m1 u (j - 1 + i * n) = rd m2 u (j - 1 + i * n) ->
  rd m1 u (j + (i + 1) * n) = rd m2 u (j + (i + 1) * n) ->
  rd m1 u (j + (i - 1) * n) = rd m2 u (j + (i - 1) * n) ->
  stencil m1 u f n h (i, j) = stencil m2 u f n h (i, j).
Proof. unfold stencil. now intros -> -> -> -> ->. Qed.

(** A sweep over interior points leaves [f] alone. *)
Lemma sweep_f_frame u f n h pts m k :
  separate u (n * n) f (n * n) -> (forall p, p ∈ pts -> p ∈ interior n) ->
  0 <= k < n * n ->
  rd (sweep u f n h pts m) f k = rd m f k.
Proof.
  intros Hsep Hpts Hk. rewrite sweep_fold_wr. apply fold_wr_rd_frame.
  intros p Hp%Hpts%interior_range. eapply separate_cells; [exact Hsep| |exact Hk]. nia.
Qed.

(** The natural-order sweep: the value assigned at [(i, j)] reads the new
    content of the cells to the west and to the north and the old content
    of the cells to the east and to the south. *)
Lemma sweep_interior_value u f n h m i j :
  separate u (n * n) f (n * n) ->
  1 <= i <= n - 2 -> 1 <= j <= n - 2 ->
  let m' := sweep u f n h (interior n) m in
  rd m' u (j + i * n)
  = (- lit 0.25 * (h * h * rd m f (j + i * n)
                   - rd m u (j + 1 + i * n) - rd m' u (j - 1 + i * n)
                   - rd m u (j + (i + 1) * n) - rd m' u (j + (i - 1) * n)))%T.
Proof.
  intros Hsep Hi Hj m'. subst m'.
  assert (Hin : (i, j) ∈ interior n) by (apply elem_of_interior; lia).
  destruct (list_elem_of_split _ _ Hin) as (pre & post & Hsplit).
  pose proof (interior_sorted n) as Hs. rewrite Hsplit in Hs.
  rewrite !sweep_fold_wr, Hsplit.
  destruct (fold_wr_sorted u n (fun m p => stencil m u f n h p) pre (i, j) post m Hs)
    as (Hval & Hlt & Hgt).
  unfold idx in Hval, Hlt, Hgt. simpl in Hval, Hlt, Hgt.
  rewrite Hval.
  assert (Hn : 0 < n) by lia.
  assert (Hf : rd (fold_wr u n (fun m p => stencil m u f n h p) pre m) f (j + i * n)
               = rd m f (j + i * n)).
  { rewrite <- sweep_fold_wr. apply sweep_f_frame; [assumption| |nia].
    intros p Hp. rewrite Hsplit. apply elem_of_app. now left. }
  set (val := fun m p => stencil m u f n h p) in *.
  unfold stencil.
  rewrite Hf, <- (Hlt (j - 1 + i * n)), <- (Hlt (j + (i - 1) * n)),
    (Hgt (j + 1 + i * n)), (Hgt (j + (i + 1) * n)) by lia.
  reflexivity.
Qed.

(** A sweep over interior points writes interior cells of [u] only. *)
Lemma sweep_frame u f n h pts m b a :
  (forall p, p ∈ pts -> p ∈ interior n) ->
  (forall p, p ∈ interior n -> b <> blk u \/ a <> ofs u + idx n p) ->
  sweep u f n h pts m b a = m b a.
Proof.
  intros Hpts Hout. rewrite sweep_fold_wr. apply fold_wr_frame.
  intros p Hp. apply Hout, Hpts, Hp.
Qed.

Lemma sweep_boundary u f n h pts m i j :
  (forall p, p ∈ pts -> p ∈ interior n) -> on_boundary n i j ->
  rd (sweep u f n h pts m) u (j + i * n) = rd m u (j + i * n).
Proof.
  intros Hpts Hb. unfold rd. apply sweep_frame; [assumption|].
  intros p Hp. right. pose proof (boundary_not_interior n i j p Hb Hp) as Hne.
  unfold idx in Hne at 2. simpl in Hne. lia.
Qed.

(** ** One colour at a time *)

(** All points of one colour updated at once, every value read from [m]. *)
Definition simultaneous (color : Z) (u f : ptr) (n : Z) (h : T) (m : memory) : memory :=
  fun b a =>
    let p := point_of n (a - ofs u) in
    if (b =? blk u)%nat && is_interior n p && has_color color p
    then stencil m u f n h p
    else m b a.

Lemma sorted_NoDup n l : StronglySorted (before n) l -> NoDup l.
Proof.
  induction 1 as [|p l Hs IH Hall]; constructor; [|assumption].
  intros Hin. rewrite Forall_forall in Hall. specialize (Hall p Hin).
  unfold before in Hall. lia.
Qed.

Lemma color_points_NoDup color n : NoDup (color_points color n).
Proof. apply (sorted_NoDup n), filter_sorted, interior_sorted. Qed.

(** The four neighbours of a point have the other colour. *)
Lemma neighbour_color color i j i' j' :
  0 <= i + j -> 0 <= i' + j' ->
  has_color color (i, j) = true -> has_color color (i', j') = true ->
  (i', j') <> (i, j + 1) /\ (i', j') <> (i, j - 1)
  /\ (i', j') <> (i + 1, j) /\ (i', j') <> (i - 1, j).
Proof.
  unfold has_color. simpl. rewrite !Z.eqb_eq. intros Hp Hq Hc Hc'.
  rewrite Z.rem_mod_nonneg in Hc, Hc' by lia.
  repeat split; intros [= -> ->];
    [ replace (i + (j + 1)) with (i + j + 1) in Hc' by lia
    | replace (i + j) with (i + (j - 1) + 1) in Hc by lia
    | replace (i + 1 + j) with (i + j + 1) in Hc' by lia
    | replace (i + j) with (i - 1 + j + 1) in Hc by lia ];
    clear - Hc Hc'; Z.div_mod_to_equations; lia.
Qed.

(** The cell of a point is none of the cells that the update of another
    point of its colour reads from [u]. *)
Lemma color_cells_apart color n i j q :
  (i, j) ∈ interior n -> has_color color (i, j) = true ->
  q ∈ interior n -> has_color color q = true ->
  idx n q <> j + 1 + i * n /\ idx n q <> j - 1 + i * n
  /\ idx n q <> j + (i + 1) * n /\ idx n q <> j + (i - 1) * n.
Proof.
  destruct q as [i' j'].
  intros [Hi Hj]%elem_of_interior Hc [Hi' Hj']%elem_of_interior Hc'.
  destruct (neighbour_color color i j i' j') as (H1 & H2 & H3 & H4);
    try assumption; try lia.
  repeat split; intros Heq.
  - apply H1. assert (Heq' : idx n (i', j') = idx n (i, j + 1)) by (unfold idx in *; simpl in *; lia).
    apply idx_inj in Heq' as [-> ->]; [reflexivity|lia..].
  - apply H2. assert (Heq' : idx n (i', j') = idx n (i, j - 1)) by (unfold idx in *; simpl in *; lia).
    apply idx_inj in Heq' as [-> ->]; [reflexivity|lia..].
  - apply H3. assert (Heq' : idx n (i', j') = idx n (i + 1, j)) by (unfold idx in *; simpl in *; lia).
    apply idx_inj in Heq' as [-> ->]; [reflexivity|lia..].
  - apply H4. assert (Heq' : idx n (i', j') = idx n (i - 1, j)) by (unfold idx in *; simpl in *; lia).
    apply idx_inj in Heq' as [-> ->]; [reflexivity|lia..].
Qed.

(** A sweep over distinct points of one colour, in any order: every
    point gets the value read from the memory at the start. *)
Lemma color_sweep_value color u f n h pts m p :
  separate u (n * n) f (n * n) ->
  (forall q, q ∈ pts -> q ∈ interior n /\ has_color color q = true) ->
  NoDup pts -> p ∈ pts ->
  rd (sweep u f n h pts m) u (idx n p) = stencil m u f n h p.
Proof.
  intros Hsep Hpts Hnd Hp.
  destruct (list_elem_of_split _ _ Hp) as (pre & post & ->).
  apply NoDup_app in Hnd as (_ & Hpre & Hpost). apply NoDup_cons in Hpost as [Hpost _].
  destruct (Hpts p Hp) as [Hpi Hpc]. destruct p as [i j].
  assert (Hin : forall q, q ∈ pre \/ q ∈ post -> q ∈ interior n /\ has_color color q = true).
  { intros q Hq. apply Hpts. rewrite elem_of_app, elem_of_cons.
    destruct Hq as [Hq|Hq]; auto. }
  assert (Hapart : forall q, q ∈ pre ->
            idx n q <> j + 1 + i * n /\ idx n q <> j - 1 + i * n
            /\ idx n q <> j + (i + 1) * n /\ idx n q <> j + (i - 1) * n).
  { intros q Hq. destruct (Hin q) as [Hqi Hqc]; [now left|].
    now apply (color_cells_apart color). }
  rewrite sweep_fold_wr, fold_wr_value.
  - rewrite <- sweep_fold_wr. apply stencil_agree.
    + apply sweep_f_frame; [assumption| |apply interior_range in Hpi; unfold idx in Hpi; simpl in Hpi; nia].
      intros q Hq. apply Hin. now left.
    + apply fold_wr_rd_frame. intros q Hq. right. specialize (Hapart q Hq). lia.
    + apply fold_wr_rd_frame. intros q Hq. right. specialize (Hapart q Hq). lia.
    + apply fold_wr_rd_frame. intros q Hq. right. specialize (Hapart q Hq). lia.
    + apply fold_wr_rd_frame. intros q Hq. right. specialize (Hapart q Hq). lia.
  - intros [i' j'] Hq Heq.
    destruct (Hin (i', j')) as [[Hi' Hj']%elem_of_interior _]; [now right|].
    apply elem_of_interior in Hpi.
    apply idx_inj in Heq as [-> ->]; [|lia..]. contradiction.
Qed.

(** In any order, the pass over the points of one colour computes the
    simultaneous update. *)
Lemma color_sweep_simultaneous color u f n h pts m b a :
  separate u (n * n) f (n * n) ->
  pts ≡ₚ color_points color n ->
  sweep u f n h pts m b a = simultaneous color u f n h m b a.
Proof.
  intros Hsep Hperm. unfold simultaneous. cbv zeta.
  assert (Hpts : forall q, q ∈ pts -> q ∈ interior n /\ has_color color q = true).
  { intros q Hq. apply color_points_elem. now rewrite <- Hperm. }
  assert (Hnd : NoDup pts) by (rewrite Hperm; apply color_points_NoDup).
  destruct ((b =? blk u)%nat && is_interior n (point_of n (a - ofs u))
            && has_color color (point_of n (a - ofs u))) eqn:Hc.
  - apply andb_true_iff in Hc as [[Hb%Nat.eqb_eq Hi]%andb_true_iff Hcol].
    destruct (point_of n (a - ofs u)) as [i j] eqn:Hpt.
    apply is_interior_true in Hi.
    assert (Hin : (i, j) ∈ pts) by (rewrite Hperm; now apply color_points_elem).
    rewrite <- (color_sweep_value color u f n h pts m (i, j)) by assumption.
    unfold rd. subst b. f_equal.
    unfold point_of in Hpt. injection Hpt as <- <-. unfold idx. simpl.
    apply elem_of_interior in Hi. pose proof (Z.div_mod (a - ofs u) n). lia.
  - rewrite sweep_fold_wr. apply fold_wr_frame. intros [i j] Hq.
    destruct (Nat.eq_dec b (blk u)) as [->|]; [right|now left]. intros ->.
    destruct (Hpts _ Hq) as [Hi Hcol].
    replace (ofs u + idx n (i, j) - ofs u) with (idx n (i, j)) in Hc by lia.
    pose proof (proj1 (elem_of_interior _ _ _) Hi).
    rewrite point_of_idx, Nat.eqb_refl, Hcol in Hc by lia.
    apply is_interior_true in Hi. rewrite Hi in Hc. discriminate.
Qed.

Lemma simultaneous_agree color u f n h m1 m2 b a :
  (forall b a, m1 b a = m2 b a) ->
  simultaneous color u f n h m1 b a = simultaneous color u f n h m2 b a.
Proof.
  intros Heq. unfold simultaneous. cbv zeta. rewrite Heq.
  destruct (_ && _ && _); [|reflexivity].
  destruct (point_of n (a - ofs u)) as [i j]. apply stencil_agree; apply Heq.
Qed.

(** ** Loops over a range of cells *)

(** A sequence of writes [dst[k] = val m k], one per index of [ks]. *)
Definition fold_cells (dst : ptr) (val : memory -> Z -> T) (ks : list Z) (m : memory)
    : memory :=
  foldl (fun m k => wr m dst k (val m k)) m ks.

Lemma fold_cells_frame dst val ks m b a :
  (forall k, k ∈ ks -> b <> blk dst \/ a <> ofs dst + k) ->
  fold_cells dst val ks m b a = m b a.
Proof.
  revert m. induction ks as [|k ks IH]; intros m Hout; [reflexivity|].
  unfold fold_cells. simpl. fold (fold_cells dst val ks (wr m dst k (val m k))).
  rewrite IH.
  - apply wr_other, Hout. left.
  - intros k' Hk'. apply Hout. now right.
Qed.

Lemma fold_cells_rd_frame dst val ks m q k' :
  (forall k, k ∈ ks -> blk q <> blk dst \/ ofs q + k' <> ofs dst + k) ->
  rd (fold_cells dst val ks m) q k' = rd m q k'.
Proof. intros Hout. unfold rd. now apply fold_cells_frame. Qed.

Lemma fold_cells_value dst val pre k post m :
  k ∉ post ->
  rd (fold_cells dst val (pre ++ k :: post) m) dst k = val (fold_cells dst val pre m) k.
Proof.
  intros Hpost. unfold fold_cells. rewrite foldl_app. simpl.
  fold (fold_cells dst val pre m).
  fold (fold_cells dst val post (wr (fold_cells dst val pre m) dst k
                                    (val (fold_cells dst val pre m) k))).
  rewrite fold_cells_rd_frame.
  - apply rd_wr_same.
  - intros k' Hk'. right. intros Heq. apply Hpost. replace k with k' by lia. exact Hk'.
Qed.

(** A single loop whose body, when it succeeds, acts as [g] and [a]. *)
Lemma loop_Done (g : Z -> memory -> memory) (a : Z -> list access)
    (body : Z -> M unit) lo hi w w' :
  (forall k w1 w2, body k w1 = Done tt w2 -> w2 = upd_world (g k) (a k) w1) ->
  for_range lo hi body w = Done tt w' ->
  w' = upd_world (fun m => foldl (fun m k => g k m) m (seqZ lo (hi - lo)))
                 (flat_map a (seqZ lo (hi - lo))) w.
Proof.
  intros Hbody Hrun. rewrite <- foldl_upd_world.
  eapply (for_range_Done (fun k w => upd_world (g k) (a k) w)); [|exact Hrun].
  intros k w1 w2 _. apply Hbody.
Qed.

Lemma loop_run (E : nat -> Z) (g : Z -> memory -> memory) (a : Z -> list access)
    (body : Z -> M unit) lo hi w :
  (forall k w1, lo <= k < hi -> ext w1 = E ->
                body k w1 = Done tt (upd_world (g k) (a k) w1)) ->
  ext w = E ->
  for_range lo hi body w
  = Done tt (upd_world (fun m => foldl (fun m k => g k m) m (seqZ lo (hi - lo)))
                       (flat_map a (seqZ lo (hi - lo))) w).
Proof.
  intros Hbody Hw. rewrite <- foldl_upd_world.
  eapply (for_range_run (fun w => ext w = E)); [|exact Hw].
  intros k w1 Hk Hw1. split; [now apply Hbody|exact Hw1].
Qed.

(** *** [memset] *)

Definition zero_fill (p : ptr) (len : Z) (m : memory) : memory :=
  fold_cells p (fun _ _ => lit 0) (seqZ 0 len) m.

Lemma memset_Done p num_bytes w w' :
  memset p num_bytes w = Done tt w' ->
  w' = upd_world (zero_fill p (num_bytes / sizeof_T))
                 (flat_map (fun k => [Store p k]) (seqZ 0 (num_bytes / sizeof_T))) w.
Proof.
  unfold memset. intros Hrun.
  apply (loop_Done (fun k m => wr m p k (lit 0)) (fun k => [Store p k])) in Hrun.
  - now rewrite Z.sub_0_r in Hrun.
  - intros k w1 w2 [_ ->]%store_Done. reflexivity.
Qed.

Lemma memset_run p num_bytes w :
  valid (ext w) p (num_bytes / sizeof_T) ->
  memset p num_bytes w
  = Done tt (upd_world (zero_fill p (num_bytes / sizeof_T))
                       (flat_map (fun k => [Store p k]) (seqZ 0 (num_bytes / sizeof_T))) w).
Proof.
  intros Hv. unfold memset.
  rewrite (loop_run (ext w) (fun k m => wr m p k (lit 0)) (fun k => [Store p k])).
  - now rewrite Z.sub_0_r.
  - intros k w1 Hk Hw1. apply store_run. eapply in_bounds_valid; [rewrite Hw1; exact Hv|lia].
  - reflexivity.
Qed.

Lemma zero_fill_inside p len m k : 0 <= k < len -> rd (zero_fill p len m) p k = lit 0.
Proof.
  intros Hk. unfold zero_fill.
  assert (Hin : k ∈ seqZ 0 len) by (apply elem_of_seqZ; lia).
  destruct (list_elem_of_split _ _ Hin) as (pre & post & Hsplit).
  pose proof (NoDup_seqZ 0 len) as Hnd. rewrite Hsplit in Hnd.
  apply NoDup_app in Hnd as (_ & _ & Hnd). apply NoDup_cons in Hnd as [Hnot _].
  rewrite Hsplit. now rewrite fold_cells_value.
Qed.

Lemma zero_fill_outside p len m b a :
  b <> blk p \/ a < ofs p \/ ofs p + len <= a -> zero_fill p len m b a = m b a.
Proof.
  intros Hout. apply fold_cells_frame. intros k Hk%elem_of_seqZ.
  destruct Hout as [?|[?|?]]; [now left|right; lia..].
Qed.

(** *** Fields *)

(** The cells [p[0 .. len-1]] as a list. *)
Definition field_of (m : memory) (p : ptr) (len : Z) : list T :=
  map (rd m p) (seqZ 0 len).

Lemma load_cells_Done p ks w xs w' :
  foldr (fun k rest => let! x := load p k in let! xs := rest in ret (x :: xs))
        (ret []) ks w = Done xs w' ->
  xs = map (rd (mem w) p) ks /\ w' = upd_world (fun m => m) (map (Load p) ks) w.
Proof.
  revert w xs. induction ks as [|k ks IH]; intros w xs; simpl.
  - intros [-> ->]%ret_Done. now rewrite upd_world_id.
  - intros (x & w1 & (_ & -> & ->)%load_Done & (ys & w2 & Hrest & [-> ->]%ret_Done)%bind_Done)%bind_Done.
    apply IH in Hrest as [-> ->]. split; [reflexivity|].
    now rewrite note_access_upd, upd_world_compose.
Qed.

Lemma load_field_Done p len w xs w' :
  load_field p len w = Done xs w' ->
  xs = field_of (mem w) p len
  /\ w' = upd_world (fun m => m) (map (Load p) (seqZ 0 len)) w.
Proof. apply load_cells_Done. Qed.

Lemma load_cells_run p ks w :
  (forall k, k ∈ ks -> in_bounds w p k = true) ->
  foldr (fun k rest => let! x := load p k in let! xs := rest in ret (x :: xs))
        (ret []) ks w
  = Done (map (rd (mem w) p) ks) (upd_world (fun m => m) (map (Load p) ks) w).
Proof.
  revert w. induction ks as [|k ks IH]; intros w Hb; simpl.
  - unfold ret. now rewrite upd_world_id.
  - rewrite (bind_run _ _ _ _ _ (load_run p k w (Hb k ltac:(left)))). cbv beta.
    erewrite bind_run by (apply IH; intros k' Hk'; apply (Hb k'); now right).
    unfold ret. now rewrite note_access_upd, upd_world_compose.
Qed.

Lemma load_field_run p len w :
  valid (ext w) p len ->
  load_field p len w
  = Done (field_of (mem w) p len) (upd_world (fun m => m) (map (Load p) (seqZ 0 len)) w).
Proof.
  intros Hv. apply load_cells_run. intros k Hk%elem_of_seqZ.
  eapply in_bounds_valid; [exact Hv|lia].
Qed.

(** *** Grid transfer *)

Definition transfer_mem (op : list T -> Z -> T) (dst : ptr) (len : Z) (s : list T)
    (a b : T) (m : memory) : memory :=
  fold_cells dst (fun m k => (a * rd m dst k + b * op s k)%T) (seqZ 0 len) m.

Definition transfer_acc (dst : ptr) (len : Z) : list access :=
  flat_map (fun k => [Load dst k; Store dst k]) (seqZ 0 len).

Lemma transfer_loop_Done (op : list T -> Z -> T) dst len s a b w w' :
  for_range 0 len (fun k =>
    let! d := load dst k in store dst k (a * d + b * op s k)%T) w = Done tt w' ->
  w' = upd_world (transfer_mem op dst len s a b) (transfer_acc dst len) w.
Proof.
  intros Hrun.
  apply (loop_Done (fun k m => wr m dst k (a * rd m dst k + b * op s k)%T)
                   (fun k => [Load dst k; Store dst k])) in Hrun.
  - now rewrite Z.sub_0_r in Hrun.
  - intros k w1 w2 (d & w3 & (_ & -> & ->)%load_Done & [_ ->]%store_Done)%bind_Done.
    unfold upd_world, note_access, set_mem. simpl. now rewrite <- app_assoc.
Qed.

Lemma transfer_loop_run (op : list T -> Z -> T) dst len s a b w :
  valid (ext w) dst len ->
  for_range 0 len (fun k =>
    let! d := load dst k in store dst k (a * d + b * op s k)%T) w
  = Done tt (upd_world (transfer_mem op dst len s a b) (transfer_acc dst len) w).
Proof.
  intros Hv.
  rewrite (loop_run (ext w) (fun k m => wr m dst k (a * rd m dst k + b * op s k)%T)
                    (fun k => [Load dst k; Store dst k])).
  - now rewrite Z.sub_0_r.
  - intros k w1 Hk Hw1.
    assert (Hb : in_bounds w1 dst k = true).
    { eapply in_bounds_valid; [rewrite Hw1; exact Hv|lia]. }
    rewrite (bind_run _ _ _ _ _ (load_run dst k w1 Hb)).
    rewrite store_run by exact Hb.
    unfold upd_world, note_access, set_mem. simpl. now rewrite <- app_assoc.
  - reflexivity.
Qed.

Lemma transfer_mem_frame op dst len s a b m c d :
  c <> blk dst \/ d < ofs dst \/ ofs dst + len <= d ->
  transfer_mem op dst len s a b m c d = m c d.
Proof.
  intros Hout. apply fold_cells_frame. intros k Hk%elem_of_seqZ.
  destruct Hout as [?|[?|?]]; [now left|right; lia..].
Qed.

Lemma grid_restrict_Done dst dn dm src sn sm a b w w' :
  grid_restrict dst dn dm src sn sm a b w = Done tt w' ->
  w' = upd_world (transfer_mem (Restriction sn sm dn dm) dst (dn * dm)
                               (field_of (mem w) src (sn * sm)) a b)
                 (map (Load src) (seqZ 0 (sn * sm)) ++ transfer_acc dst (dn * dm))
                 (note_call (call_grid_restrict dst dn dm src sn sm a b) w).
Proof.
  unfold grid_restrict.
  intros (x & w1 & [= <- <-] & (s & w2 & [-> ->]%load_field_Done & Hloop)%bind_Done)%bind_Done.
  apply transfer_loop_Done in Hloop. subst w'. rewrite upd_world_compose. reflexivity.
Qed.

Lemma grid_prolongate_Done dst dn dm src sn sm a b w w' :
  grid_prolongate dst dn dm src sn sm a b w = Done tt w' ->
  w' = upd_world (transfer_mem (Interpolation sn sm dn dm) dst (dn * dm)
                               (field_of (mem w) src (sn * sm)) a b)
                 (map (Load src) (seqZ 0 (sn * sm)) ++ transfer_acc dst (dn * dm))
                 (note_call (call_grid_prolongate dst dn dm src sn sm a b) w).
Proof.
  unfold grid_prolongate.
  intros (x & w1 & [= <- <-] & (s & w2 & [-> ->]%load_field_Done & Hloop)%bind_Done)%bind_Done.
  apply transfer_loop_Done in Hloop. subst w'. rewrite upd_world_compose. reflexivity.
Qed.

Lemma grid_restrict_run dst dn dm src sn sm a b w :
  valid (ext w) dst (dn * dm) -> valid (ext w) src (sn * sm) ->
  grid_restrict dst dn dm src sn sm a b w
  = Done tt (upd_world (transfer_mem (Restriction sn sm dn dm) dst (dn * dm)
                                     (field_of (mem w) src (sn * sm)) a b)
                       (map (Load src) (seqZ 0 (sn * sm)) ++ transfer_acc dst (dn * dm))
                       (note_call (call_grid_restrict dst dn dm src sn sm a b) w)).
Proof.
  intros Hd Hs. unfold grid_restrict. rewrite enter_run. cbv beta.
  erewrite bind_run by (apply load_field_run; exact Hs).
  rewrite transfer_loop_run by exact Hd. rewrite upd_world_compose. reflexivity.
Qed.

Lemma grid_prolongate_run dst dn dm src sn sm a b w :
  valid (ext w) dst (dn * dm) -> valid (ext w) src (sn * sm) ->
  grid_prolongate dst dn dm src sn sm a b w
  = Done tt (upd_world (transfer_mem (Interpolation sn sm dn dm) dst (dn * dm)
                                     (field_of (mem w) src (sn * sm)) a b)
                       (map (Load src) (seqZ 0 (sn * sm)) ++ transfer_acc dst (dn * dm))
                       (note_call (call_grid_prolongate dst dn dm src sn sm a b) w)).
Proof.
  intros Hd Hs. unfold grid_prolongate. rewrite enter_run. cbv beta.
  erewrite bind_run by (apply load_field_run; exact Hs).
  rewrite transfer_loop_run by exact Hd. rewrite upd_world_compose. reflexivity.
Qed.

(** *** The base case *)

Lemma base_case_Done u f h w w' :
  base_case u f h w = Done tt w' ->
  w' = upd_world (fun m => wr m u 4 (- lit 0.5 * rd m f 4 * h * h)%T)
                 [Load f 4; Store u 4]
                 (note_call (call_base_case u f h) w).
Proof.
  unfold base_case. intros (x & w1 & [= <-] & Hrun)%bind_Done. run_inv Hrun.
  unfold upd_world, note_access, set_mem. simpl. now rewrite <- app_assoc.
Qed.

Lemma base_case_run u f h w :
  valid (ext w) u 9 -> valid (ext w) f 9 ->
  base_case u f h w
  = Done tt (upd_world (fun m => wr m u 4 (- lit 0.5 * rd m f 4 * h * h)%T)
                       [Load f 4; Store u 4]
                       (note_call (call_base_case u f h) w)).
Proof.
  intros Hu Hf. unfold base_case. rewrite enter_run. cbv beta. int_run.
  erewrite bind_run by (apply load_at_run; eapply in_bounds_valid; [exact Hf|lia]).
  rewrite store_at_run by (eapply in_bounds_valid; [exact Hu|lia]).
  unfold upd_world, note_access, set_mem. simpl. now rewrite <- app_assoc.
Qed.

(** ** The V-cycle *)

Definition smooth_call (S : smoother) (u f : ptr) (n : Z) (h : T) : call :=
  match S with
  | GaussSeidel => call_gauss_seidel u f n h
  | GaussSeidelRedBlack => call_gauss_seidel_red_black u f n h
  end.

Definition smooth_mem (S : smoother) (u f : ptr) (n : Z) (h : T) (m : memory) : memory :=
  match S with
  | GaussSeidel => sweep u f n h (interior n) m
  | GaussSeidelRedBlack =>
      sweep u f n h (color_points 1 n) (sweep u f n h (color_points 0 n) m)
  end.

Definition smooth_acc (S : smoother) (u f : ptr) (n : Z) : list access :=
  match S with
  | GaussSeidel => sweep_acc u f n (interior n)
  | GaussSeidelRedBlack =>
      sweep_acc u f n (color_points 0 n) ++ sweep_acc u f n (color_points 1 n)
  end.

Lemma smooth_Done S u f n h w w' :
  smooth S u f n h w = Done tt w' ->
  w' = upd_world (smooth_mem S u f n h) (smooth_acc S u f n)
                 (note_call (smooth_call S u f n h) w).
Proof.
  destruct S; simpl; [apply gauss_seidel_Done|apply gauss_seidel_red_black_Done].
Qed.

Lemma smooth_run S u f n h w :
  1 <= n <= N_MAX ->
  valid (ext w) u (n * n) -> valid (ext w) f (n * n) ->
  smooth S u f n h w
  = Done tt (upd_world (smooth_mem S u f n h) (smooth_acc S u f n)
                       (note_call (smooth_call S u f n h) w)).
Proof.
  destruct S; simpl; [apply gauss_seidel_run|apply gauss_seidel_red_black_run].
Qed.

Lemma color_points_interior color n p : p ∈ color_points color n -> p ∈ interior n.
Proof. now intros [? _]%color_points_elem. Qed.

(** A smoother writes interior cells of [u] only. *)
Lemma smooth_mem_frame S u f n h m b a :
  (forall p, p ∈ interior n -> b <> blk u \/ a <> ofs u + idx n p) ->
  smooth_mem S u f n h m b a = m b a.
Proof.
  intros Hout. destruct S; simpl.
  - now apply sweep_frame.
  - rewrite sweep_frame; [|apply color_points_interior|assumption].
    apply sweep_frame; [apply color_points_interior|assumption].
Qed.

Lemma smooth_mem_outside S u f n h m b a :
  b <> blk u \/ a < ofs u \/ ofs u + n * n <= a ->
  smooth_mem S u f n h m b a = m b a.
Proof.
  intros Hout. apply smooth_mem_frame. intros p [Hn Hp]%interior_range.
  destruct Hout as [?|[?|?]]; [now left|right; nia..].
Qed.

Lemma residual_sweep_frame r u f n h m b a :
  (forall p, p ∈ interior n -> b <> blk r \/ a <> ofs r + idx n p) ->
  residual_sweep r u f n h m b a = m b a.
Proof. intros Hout. rewrite residual_sweep_fold_wr. now apply fold_wr_frame. Qed.

Lemma residual_sweep_outside r u f n h m b a :
  b <> blk r \/ a < ofs r \/ ofs r + n * n <= a ->
  residual_sweep r u f n h m b a = m b a.
Proof.
  intros Hout. apply residual_sweep_frame. intros p [Hn Hp]%interior_range.
  destruct Hout as [?|[?|?]]; [now left|right; nia..].
Qed.

(** The linear dimension of the grid of level [l]. *)
Definition level_n (l : Z) : Z := 2 ^ l + 1.

(** The calls of one V-cycle that descends [d] levels from level [l]. *)
Fixpoint v_cycle_calls (d : nat) (l : Z) (S : smoother) (u f r v w : ptr) (h : T)
    : list call :=
  call_multigrid_v_cycle l u f r v w h ::
  match d with
  | O => [call_base_case u f h; return_multigrid_v_cycle l]
  | Datatypes.S d' =>
      let nu := level_n l in
      let nv := level_n (l - 1) in
      let el := ptr_add v (nv * nv) in
      let rl := ptr_add w (nv * nv) in
      [smooth_call S u f nu h;
       call_poisson_residual r u f nu h;
       call_grid_restrict rl nv nv r nu nu (lit 0) (lit 1)]
      ++ v_cycle_calls d' (l - 1) S el rl r v w (lit 2 * h)%T
      ++ [call_grid_prolongate u nu nu el nv nv (lit 1) (lit 1);
          smooth_call S u f nu h;
          return_multigrid_v_cycle l]
  end.

(** The correction regions of the levels below [l] hold zeros. *)
Definition zone_zero (l : Z) (v : ptr) (m : memory) : Prop :=
  forall k c, 1 <= k < l ->
              level_n k * level_n k <= c < 2 * (level_n k * level_n k) ->
              rd m v c = lit 0.

(** A recorded V-cycle call whose solution field is zero at the call. *)
Definition entry_zero (e : call * memory) : Prop :=
  match e.1 with
  | call_multigrid_v_cycle l u _ _ _ _ _ =>
      forall k, 0 <= k < level_n l * level_n l -> rd e.2 u k = lit 0
  | _ => True
  end.

(** The writes of level [l] stay clear of the correction regions of the
    levels below. *)
Definition clear_of_corrections (l : Z) (u r v w : ptr) : Prop :=
  blk r <> blk v /\ blk w <> blk v
  /\ (blk u = blk v -> ofs v + 2 * (level_n (l - 1) * level_n (l - 1)) <= ofs u).

Lemma v_cycle_unfold fuel l S u f r v w h :
  v_cycle fuel l S u f r v w h
  = (enter (call_multigrid_v_cycle l u f r v w h) ;;
     if l =? 1 then
       base_case u f h ;;
       enter (return_multigrid_v_cycle l)
     else
       let! nu := int ((1 << l) + 1)%int in
       let! nv := int ((1 << (l - 1)) + 1)%int in
       let! el := int (nv * nv)%int in
       let el := ptr_add v el in
       let! rl := int (nv * nv)%int in
       let rl := ptr_add w rl in
       smooth S u f nu h ;;
       poisson_residual r u f nu h ;;
       grid_restrict rl nv nv r nu nu (lit 0) (lit 1) ;;
       let! l1 := int (l - 1)%int in
       match fuel with
       | O => fail OutOfFuel
       | Datatypes.S fuel' => v_cycle fuel' l1 S el rl r v w (lit 2 * h)%T
       end ;;
       grid_prolongate u nu nu el nv nv (lit 1) (lit 1) ;;
       smooth S u f nu h ;;
       enter (return_multigrid_v_cycle l)).
Proof. destruct fuel; reflexivity. Qed.

Lemma level_n_pos l : 0 <= l -> 2 <= level_n l.
Proof. intros Hl. unfold level_n. pose proof (Z.pow_pos_nonneg 2 l). lia. Qed.

Lemma level_n_succ l : 1 <= l -> level_n l = 2 * level_n (l - 1) - 1.
Proof.
  intros Hl. unfold level_n. replace l with (Z.succ (l - 1)) at 1 by lia.
  rewrite Z.pow_succ_r by lia. lia.
Qed.

(** Level [l] leaves room below its own correction region for the
    correction regions of the coarser levels. *)
Lemma level_n_square l :
  1 <= l -> 2 * (level_n (l - 1) * level_n (l - 1)) <= level_n l * level_n l.
Proof.
  intros Hl. rewrite (level_n_succ l Hl).
  pose proof (level_n_pos (l - 1)). nia.
Qed.

Lemma level_n_mono k l : 0 <= k <= l -> level_n k <= level_n l.
Proof.
  intros Hkl. unfold level_n.
  pose proof (Z.pow_le_mono_r 2 k l). lia.
Qed.

Lemma enter_Done (c : call) w a w' :
  enter c w = Done a w' -> w' = note_call c w.
Proof. now intros [= _ <-]. Qed.

(** Before the recursive call, level [l] has not touched the correction
    regions of the levels below it. *)
Lemma descent_frame op S l u f r v w nu dlen s a b h m c :
  clear_of_corrections l u r v w ->
  c < 2 * (level_n (l - 1) * level_n (l - 1)) ->
  rd (transfer_mem op (ptr_add w (level_n (l - 1) * level_n (l - 1))) dlen s a b
        (residual_sweep r u f nu h (smooth_mem S u f nu h m))) v c
  = rd m v c.
Proof.
  intros (Hr & Hw & Hu) Hc. unfold rd.
  rewrite transfer_mem_frame by (left; simpl; congruence).
  rewrite residual_sweep_outside by (left; congruence).
  apply smooth_mem_outside.
  destruct (Nat.eq_dec (blk v) (blk u)) as [Heq|Hne]; [right; left|now left].
  specialize (Hu (eq_sym Heq)). lia.
Qed.

Lemma entry_zero_smooth S u f n h m : entry_zero (smooth_call S u f n h, m).
Proof. destruct S; exact I. Qed.

Lemma zone_zero_weaken l l' v m : l' <= l -> zone_zero l v m -> zone_zero l' v m.
Proof. intros Hle Hz k c Hk Hc. apply (Hz k c); [lia|assumption]. Qed.

Lemma v_cycle_Done fuel :
  forall l S u f r v w h w0 w1,
    v_cycle fuel l S u f r v w h w0 = Done tt w1 ->
    1 <= l /\ ext w1 = ext w0 /\ next_block w1 = next_block w0
    /\ exists rest,
         history w1 = history w0 ++ (call_multigrid_v_cycle l u f r v w h, mem w0) :: rest
         /\ call_multigrid_v_cycle l u f r v w h :: map fst rest
            = v_cycle_calls (Z.to_nat (l - 1)) l S u f r v w h
         /\ (clear_of_corrections l u r v w -> zone_zero l v (mem w0) ->
             Forall entry_zero rest).
Proof.
  induction fuel as [|fuel IH]; intros l S u f r v w h w0 w1 Hrun;
    rewrite v_cycle_unfold in Hrun;
    apply bind_Done in Hrun as (x & wa & ->%enter_Done & Hrun);
    destruct (Z.eqb_spec l 1) as [->|Hl1].
  1,3: apply bind_Done in Hrun as ([] & wb & ->%base_case_Done & ->%enter_Done);
       (split; [lia|]); (split; [reflexivity|]); (split; [reflexivity|]);
       eexists; simpl; rewrite <- !app_assoc; simpl; (split; [reflexivity|]);
       (split; [reflexivity|]); intros _ _; repeat constructor.
  - (* no fuel: the recursive call cannot be made *)
    run_inv Hrun.
    apply bind_Done in Hrun as ([] & wb & _ & Hrun).
    apply bind_Done in Hrun as ([] & wc & _ & Hrun).
    apply bind_Done in Hrun as ([] & wd & _ & Hrun).
    run_inv Hrun.
    apply bind_Done in Hrun as ([] & we & Hrun & _). unfold fail in Hrun. discriminate Hrun.
  - run_inv Hrun.
    apply bind_Done in Hrun as ([] & wb & ->%smooth_Done & Hrun).
    apply bind_Done in Hrun as ([] & wc & ->%poisson_residual_Done & Hrun).
    apply bind_Done in Hrun as ([] & wd & ->%grid_restrict_Done & Hrun).
    run_inv Hrun.
    apply bind_Done in Hrun as ([] & we & Hrec & Hrun).
    apply bind_Done in Hrun as ([] & wf & ->%grid_prolongate_Done & Hrun).
    apply bind_Done in Hrun as ([] & wg & ->%smooth_Done & ->%enter_Done).
    apply IH in Hrec as (Hl & Hext & Hnb & rest & Hhist & Hcalls & Hzero).
    rewrite !Z.mul_1_l in *. fold (level_n l) in *. fold (level_n (l - 1)) in *.
    split; [lia|]. split; [exact Hext|]. split; [exact Hnb|].
    eexists. simpl. rewrite Hhist. simpl. rewrite <- !app_assoc. simpl.
    split; [reflexivity|]. split.
    + replace (Z.to_nat (l - 1)) with (Datatypes.S (Z.to_nat (l - 1 - 1))) by lia.
      simpl. rewrite map_app. simpl. rewrite <- Hcalls. reflexivity.
    + intros Hclear Hz.
      constructor; [apply entry_zero_smooth|].
      do 2 (constructor; [exact I|]).
      constructor.
      * intros k Hk. unfold rd. simpl.
        replace (ofs v + level_n (l - 1) * level_n (l - 1) + k)
          with (ofs v + (level_n (l - 1) * level_n (l - 1) + k)) by lia.
        change (rd (transfer_mem (Restriction (level_n l) (level_n l) (level_n (l - 1)) (level_n (l - 1)))
                      (ptr_add w (level_n (l - 1) * level_n (l - 1)))
                      (level_n (l - 1) * level_n (l - 1))
                      (field_of (residual_sweep r u f (level_n l) h
                                   (smooth_mem S u f (level_n l) h (mem w0))) r
                                (level_n l * level_n l))
                      (lit 0) (lit 1)
                      (residual_sweep r u f (level_n l) h
                         (smooth_mem S u f (level_n l) h (mem w0))))
                   v (level_n (l - 1) * level_n (l - 1) + k) = lit 0).
        rewrite descent_frame by (assumption || lia).
        apply (Hz (l - 1) (level_n (l - 1) * level_n (l - 1) + k)); lia.
      * apply Forall_app. split; [|repeat constructor; apply entry_zero_smooth].
        apply Hzero.
        -- destruct Hclear as (Hcr & Hcw & Hcu). repeat split; try assumption.
           intros _. simpl. pose proof (level_n_square (l - 1)). lia.
        -- intros k c Hk Hc. simpl.
           rewrite descent_frame; [apply (Hz k c); [lia|assumption]|assumption|].
           pose proof (level_n_mono k (l - 1)).
           pose proof (level_n_pos k). nia.
Qed.

(** *** Sufficient conditions for a run of the V-cycle *)

(** The largest level whose grid can be indexed with [int]. *)
Definition L_MAX : Z := 15.

(** The buffers of a call at level [l]: [u], [f] and the scratch [r] hold
    a grid of level [l]; above level 1 the arenas [v] and [w] reach to the
    end of the region of level [l - 1]. *)
Definition v_cycle_buffers (E : nat -> Z) (l : Z) (u f r v w : ptr) : Prop :=
  valid E u (level_n l * level_n l)
  /\ valid E f (level_n l * level_n l)
  /\ valid E r (level_n l * level_n l)
  /\ (2 <= l -> valid E v (2 * (level_n (l - 1) * level_n (l - 1)))
                /\ valid E w (2 * (level_n (l - 1) * level_n (l - 1)))).

Lemma valid_weaken E p len len' : len' <= len -> valid E p len -> valid E p len'.
Proof. unfold valid. lia. Qed.

Lemma valid_ptr_add E p k len :
  0 <= k -> valid E p (k + len) -> valid E (ptr_add p k) len.
Proof. unfold valid. simpl. lia. Qed.

Lemma level_n_bound l : 0 <= l <= L_MAX -> 2 <= level_n l <= 32769.
Proof.
  unfold L_MAX. intros Hl. split; [apply level_n_pos; lia|].
  change 32769 with (level_n 15). apply level_n_mono. lia.
Qed.

Lemma v_cycle_buffers_descend E l u f r v w :
  2 <= l ->
  v_cycle_buffers E l u f r v w ->
  v_cycle_buffers E (l - 1)
                  (ptr_add v (level_n (l - 1) * level_n (l - 1)))
                  (ptr_add w (level_n (l - 1) * level_n (l - 1))) r v w.
Proof.
  intros Hl (Hu & Hf & Hr & Hvw). destruct (Hvw Hl) as [Hv Hw].
  pose proof (level_n_pos (l - 1)) as Hpos.
  pose proof (level_n_mono (l - 1) l) as Hmono.
  split; [|split; [|split; [|intros Hl'; split]]].
  - apply valid_ptr_add; [nia|]. eapply valid_weaken; [|exact Hv]. lia.
  - apply valid_ptr_add; [nia|]. eapply valid_weaken; [|exact Hw]. lia.
  - eapply valid_weaken; [|exact Hr]. nia.
  - eapply valid_weaken; [|exact Hv]. pose proof (level_n_square (l - 1)). lia.
  - eapply valid_weaken; [|exact Hw]. pose proof (level_n_square (l - 1)). lia.
Qed.

Lemma ext_upd_world g a (w : world) : ext (upd_world g a w) = ext w.
Proof. reflexivity. Qed.

Lemma ext_note_call c (w : world) : ext (note_call c w) = ext w.
Proof. reflexivity. Qed.

Lemma v_cycle_run (d : nat) :
  forall fuel l S u f r v w h w0,
    l = Z.of_nat d + 1 -> (d <= fuel)%nat -> l <= L_MAX ->
    v_cycle_buffers (ext w0) l u f r v w ->
    exists w1, v_cycle fuel l S u f r v w h w0 = Done tt w1.
Proof.
  induction d as [|d IH]; intros fuel l S u f r v w h w0 Hl Hfuel Hmax Hbuf;
    rewrite v_cycle_unfold, enter_run; cbv beta.
  - (* level 1 *)
    replace l with 1 in * by lia. simpl.
    destruct Hbuf as (Hu & Hf & _).
    erewrite bind_run by (apply base_case_run; [exact Hu|exact Hf]).
    eexists. reflexivity.
  - destruct (Z.eqb_spec l 1) as [->|_]; [lia|].
    destruct fuel as [|fuel]; [lia|].
    assert (Hl2 : 2 <= l) by lia.
    pose proof (level_n_bound l ltac:(unfold L_MAX in *; lia)) as Hnu.
    pose proof (level_n_bound (l - 1) ltac:(unfold L_MAX in *; lia)) as Hnv.
    pose proof (v_cycle_buffers_descend _ _ _ _ _ _ _ Hl2 Hbuf) as Hbuf'.
    destruct Hbuf as (Hu & Hf & Hr & Hvw). destruct (Hvw Hl2) as [Hv Hw].
    assert (Hnvnv : 0 <= level_n (l - 1) * level_n (l - 1) <= 1073807361) by nia.
    assert (Hnn : 1 <= level_n l <= N_MAX) by (unfold N_MAX; lia).
    unfold level_n in Hnu, Hnv, Hnvnv.
    rewrite (ishl_run 1 l) by (unfold L_MAX in *; lia || int_ok).
    unfold L_MAX in Hmax. int_run.
    rewrite (ishl_run 1 (l - 1)) by (lia || int_ok).
    rewrite !Z.mul_1_l. int_run.
    rewrite (bind_run _ _ _ _ _ (int_run _ _)). cbv beta.
    rewrite (bind_run _ _ _ _ _ (int_run _ _)). cbv beta.
    int_run.
    rewrite (bind_run _ _ _ _ _ (int_run _ _)). cbv beta zeta.
    rewrite (bind_run _ _ _ _ _ (int_run _ _)). cbv beta zeta.
    fold (level_n l). fold (level_n (l - 1)).
    erewrite bind_run by (apply smooth_run; [exact Hnn|exact Hu|exact Hf]). cbv beta.
    erewrite bind_run
      by (apply poisson_residual_run; [exact Hnn|exact Hr|exact Hu|exact Hf]).
    cbv beta.
    destruct Hbuf' as (Hel & Hrl & Hr' & Hvw').
    erewrite bind_run by (apply grid_restrict_run; [exact Hrl|exact Hr]). cbv beta.
    rewrite (bind_run _ _ _ _ _ (int_run _ _)). cbv beta.
    match goal with
    | |- context [bind (v_cycle fuel (l - 1) S ?el ?rl r v w ?h') _ ?wd] =>
        destruct (IH fuel (l - 1) S el rl r v w h' wd) as [we Hrec];
        [lia|lia|unfold L_MAX; lia|split; [|split; [|split]]; assumption|]
    end.
    rewrite (bind_run _ _ _ _ _ Hrec). cbv beta.
    apply v_cycle_Done in Hrec as (_ & Hext & _).
    rewrite !ext_upd_world, !ext_note_call in Hext.
    erewrite bind_run
      by (apply grid_prolongate_run; rewrite Hext; [exact Hu|exact Hel]).
    cbv beta.
    erewrite bind_run
      by (apply smooth_run;
          [exact Hnn|rewrite ext_upd_world, ext_note_call, Hext; exact Hu
          |rewrite ext_upd_world, ext_note_call, Hext; exact Hf]).
    cbv beta.
    eexists. reflexivity.
Qed.

(** ** What every run satisfies: accesses stay inside, recursion ends *)

(** An [int] expression never runs out of fuel. *)
Definition rsafe {A} (r : result A) : Prop := forall e, r = Err e -> e <> OutOfFuel.

Lemma rsafe_Ok {A} (a : A) : rsafe (Ok a).
Proof. intros e [=]. Qed.

Lemma rsafe_of_int z : rsafe (of_int z).
Proof. apply rsafe_Ok. Qed.

Lemma rsafe_check_int z : rsafe (check_int z).
Proof. unfold check_int. destruct (in_int z); intros e [= <-]; discriminate. Qed.

Lemma rsafe_rbind {A B} (r : result A) (k : A -> result B) :
  rsafe r -> (forall a, rsafe (k a)) -> rsafe (rbind r k).
Proof.
  intros Hr Hk. destruct r as [a|e]; simpl; [apply Hk|].
  intros e' [= <-]. now apply (Hr e).
Qed.

Lemma rsafe_iadd a b : rsafe a -> rsafe b -> rsafe (iadd a b).
Proof.
  intros Ha Hb. apply rsafe_rbind; [exact Ha|]. intros x.
  apply rsafe_rbind; [exact Hb|]. intros y. apply rsafe_check_int.
Qed.

Lemma rsafe_isub a b : rsafe a -> rsafe b -> rsafe (isub a b).
Proof.
  intros Ha Hb. apply rsafe_rbind; [exact Ha|]. intros x.
  apply rsafe_rbind; [exact Hb|]. intros y. apply rsafe_check_int.
Qed.

Lemma rsafe_imul a b : rsafe a -> rsafe b -> rsafe (imul a b).
Proof.
  intros Ha Hb. apply rsafe_rbind; [exact Ha|]. intros x.
  apply rsafe_rbind; [exact Hb|]. intros y. apply rsafe_check_int.
Qed.

Lemma rsafe_ishl a b : rsafe a -> rsafe b -> rsafe (ishl a b).
Proof.
  intros Ha Hb. apply rsafe_rbind; [exact Ha|]. intros x.
  apply rsafe_rbind; [exact Hb|]. intros y.
  destruct (_ && _); [|intros e [= <-]; discriminate].
  destruct (0 <=? x); [apply rsafe_check_int|intros e [= <-]; discriminate].
Qed.

Lemma rsafe_irem a b : rsafe a -> rsafe b -> rsafe (irem a b).
Proof.
  intros Ha Hb. apply rsafe_rbind; [exact Ha|]. intros x.
  apply rsafe_rbind; [exact Hb|]. intros y.
  destruct (y =? 0); [intros e [= <-]; discriminate|apply rsafe_check_int].
Qed.

Ltac rsafe :=
  repeat first [ apply rsafe_of_int | apply rsafe_iadd | apply rsafe_isub
               | apply rsafe_imul | apply rsafe_ishl | apply rsafe_irem ].

Section Sound.

(** The extents [E] of the blocks, the blocks [B] a run may touch, and the
    accesses [base] made before the run. *)
Variable E : nat -> Z.
Variable B : nat -> Prop.
Variable base : list access.

Definition access_ok (a : access) : Prop :=
  match a with
  | Load p k | Store p k => B (blk p) /\ 0 <= ofs p + k < E (blk p)
  end.

(** The extents are [E] and every access since [base] went to a cell of a
    block of [B]. *)
Definition tidy (w : world) : Prop :=
  ext w = E /\ exists new, accesses w = base ++ new /\ Forall access_ok new.

(** From a tidy world, [m] ends in a tidy world or in a fault other than
    [OutOfFuel]. *)
Definition sound {A} (m : M A) : Prop :=
  forall w, tidy w ->
            match m w with
            | Done _ w' => tidy w'
            | Fault e => e <> OutOfFuel
            end.

Lemma sound_ret {A} (a : A) : sound (ret a).
Proof. intros w Hw. exact Hw. Qed.

Lemma sound_bind {A A'} (m : M A) (k : A -> M A') :
  sound m -> (forall a, sound (k a)) -> sound (bind m k).
Proof.
  intros Hm Hk w Hw. unfold bind. specialize (Hm w Hw).
  destruct (m w) as [a w1|e]; [now apply Hk|exact Hm].
Qed.

Lemma sound_int_bind {A A'} (r : result A) (k : A -> M A') :
  rsafe r -> (forall a, r = Ok a -> sound (k a)) -> sound (bind (int r) k).
Proof.
  intros Hr Hk w Hw. unfold bind, int. destruct r as [a|e]; [now apply Hk|now apply Hr].
Qed.

Lemma sound_int {A} (r : result A) : rsafe r -> sound (int r).
Proof. intros Hr w Hw. unfold int. destruct r as [a|e]; [exact Hw|now apply Hr]. Qed.

Lemma sound_enter c : sound (enter c).
Proof. intros w Hw. exact Hw. Qed.

Lemma tidy_access a w :
  tidy w -> access_ok a -> tidy (note_access a w).
Proof.
  intros (Hext & new & Hacc & Hok) Ha. split; [exact Hext|].
  exists (new ++ [a]). simpl. rewrite Hacc, app_assoc. split; [reflexivity|].
  apply Forall_app. split; [exact Hok|]. constructor; [exact Ha|constructor].
Qed.

Lemma sound_load p k : B (blk p) -> sound (load p k).
Proof.
  intros Hp w Hw. unfold load.
  destruct (in_bounds w p k) eqn:Hb; [|discriminate].
  apply tidy_access; [exact Hw|].
  apply in_bounds_true in Hb. destruct Hw as [Hext _]. unfold access_ok.
  rewrite <- Hext. split; assumption.
Qed.

Lemma sound_store p k x : B (blk p) -> sound (store p k x).
Proof.
  intros Hp w Hw. unfold store.
  destruct (in_bounds w p k) eqn:Hb; [|discriminate].
  apply (tidy_access (Store p k) (set_mem (wr (mem w) p k x) w)); [exact Hw|].
  apply in_bounds_true in Hb. destruct Hw as [Hext _]. unfold access_ok.
  rewrite <- Hext. split; assumption.
Qed.

Lemma sound_load_at p e : rsafe e -> B (blk p) -> sound (load_at p e).
Proof. intros He Hp. apply sound_int_bind; [exact He|]. intros k _. now apply sound_load. Qed.

Lemma sound_store_at p e x : rsafe e -> B (blk p) -> sound (store_at p e x).
Proof. intros He Hp. apply sound_int_bind; [exact He|]. intros k _. now apply sound_store. Qed.

Lemma sound_for_range lo hi (body : Z -> M unit) :
  (forall i, sound (body i)) -> sound (for_range lo hi body).
Proof.
  intros Hbody. unfold for_range.
  induction (seqZ lo (hi - lo)) as [|i l IH]; simpl.
  - apply sound_ret.
  - apply sound_bind; [apply Hbody|]. intros _. exact IH.
Qed.

Lemma sound_load_field p len : B (blk p) -> sound (load_field p len).
Proof.
  intros Hp. unfold load_field.
  induction (seqZ 0 len) as [|k l IH]; simpl.
  - apply sound_ret.
  - apply sound_bind; [now apply sound_load|]. intros x.
    apply sound_bind; [exact IH|]. intros xs. apply sound_ret.
Qed.

Ltac sound_step :=
  lazymatch goal with
  | |- sound (ret _) => apply sound_ret
  | |- sound (enter _) => apply sound_enter
  | |- sound (load_at _ _) => apply sound_load_at; [rsafe|assumption]
  | |- sound (store_at _ _ _) => apply sound_store_at; [rsafe|assumption]
  | |- sound (load _ _) => apply sound_load; assumption
  | |- sound (store _ _ _) => apply sound_store; assumption
  | |- sound (load_field _ _) => apply sound_load_field; assumption
  | |- sound (int _) => apply sound_int; rsafe
  | |- sound (for_range _ _ _) => apply sound_for_range; intros ?
  | |- sound (bind _ _) => apply sound_bind; [|intros ?]
  | |- sound (if ?c then _ else _) => destruct c
  end.

Ltac sound := repeat sound_step.

Lemma sound_gs_update u f n h i j :
  B (blk u) -> B (blk f) -> sound (gs_update u f n h i j).
Proof. intros Hu Hf. unfold gs_update. sound. Qed.

Lemma sound_gauss_seidel u f n h :
  B (blk u) -> B (blk f) -> sound (gauss_seidel u f n h).
Proof. intros Hu Hf. unfold gauss_seidel. sound. now apply sound_gs_update. Qed.

Lemma sound_color_pass color u f n h :
  B (blk u) -> B (blk f) -> sound (color_pass color u f n h).
Proof.
  intros Hu Hf. unfold color_pass, rb_update. sound. now apply sound_gs_update.
Qed.

Lemma sound_smooth S u f n h :
  B (blk u) -> B (blk f) -> sound (smooth S u f n h).
Proof.
  intros Hu Hf. destruct S; simpl; [now apply sound_gauss_seidel|].
  unfold gauss_seidel_red_black. sound; now apply sound_color_pass.
Qed.

Lemma sound_poisson_residual r u f n h :
  B (blk r) -> B (blk u) -> B (blk f) -> sound (poisson_residual r u f n h).
Proof. intros Hr Hu Hf. unfold poisson_residual, residual_update. cbv zeta. sound. Qed.

Lemma sound_grid_restrict dst dn dm src sn sm a b :
  B (blk dst) -> B (blk src) -> sound (grid_restrict dst dn dm src sn sm a b).
Proof. intros Hd Hs. unfold grid_restrict. sound. Qed.

Lemma sound_grid_prolongate dst dn dm src sn sm a b :
  B (blk dst) -> B (blk src) -> sound (grid_prolongate dst dn dm src sn sm a b).
Proof. intros Hd Hs. unfold grid_prolongate. sound. Qed.

Lemma sound_base_case u f h : B (blk u) -> B (blk f) -> sound (base_case u f h).
Proof. intros Hu Hf. unfold base_case. sound. Qed.

Lemma sound_memset p num_bytes : B (blk p) -> sound (memset p num_bytes).
Proof. intros Hp. unfold memset. sound. Qed.

(** With fuel for the levels below [l], the V-cycle never runs out. *)
Lemma sound_v_cycle fuel :
  forall l S u f r v w h,
    l - 1 <= Z.of_nat fuel ->
    B (blk u) -> B (blk f) -> B (blk r) -> B (blk v) -> B (blk w) ->
    sound (v_cycle fuel l S u f r v w h).
Proof.
  induction fuel as [|fuel IH]; intros l S u f r v w h Hfuel Hu Hf Hr Hv Hw.
  - rewrite v_cycle_unfold. apply sound_bind; [apply sound_enter|intros _].
    destruct (Z.eqb_spec l 1) as [->|Hl1].
    + apply sound_bind; [now apply sound_base_case|intros _; apply sound_enter].
    + apply sound_int_bind; [rsafe|]. intros nu Hnu.
      apply sound_int_bind; [rsafe|]. intros nv Hnv. int_inv Hnv. lia.
  - rewrite v_cycle_unfold. apply sound_bind; [apply sound_enter|intros _].
    destruct (Z.eqb_spec l 1) as [->|Hl1].
    + apply sound_bind; [now apply sound_base_case|intros _; apply sound_enter].
    + apply sound_int_bind; [rsafe|]. intros nu Hnu.
      apply sound_int_bind; [rsafe|]. intros nv Hnv.
      apply sound_int_bind; [rsafe|]. intros el Hel. cbv zeta.
      apply sound_int_bind; [rsafe|]. intros rl Hrl. cbv zeta.
      apply sound_bind; [now apply sound_smooth|intros _].
      apply sound_bind; [now apply sound_poisson_residual|intros _].
      apply sound_bind; [now apply sound_grid_restrict|intros _].
      apply sound_int_bind; [rsafe|]. intros l1 Hl1'. int_inv Hl1'.
      apply sound_bind; [apply IH; simpl; auto; lia|intros _].
      apply sound_bind; [now apply sound_grid_prolongate|intros _].
      apply sound_bind; [now apply sound_smooth|intros _].
      apply sound_enter.
Qed.

End Sound.

(** ** The size of the arenas *)

(** The sum of [(2^i + 1)^2] over the levels [i = 0 .. L]. *)
Definition total_size (L : Z) : Z :=
  foldr Z.add 0 (map (fun i => level_n i * level_n i) (seqZ 0 (L + 1))).

Definition size_step (acc : result Z) (i : Z) : result Z :=
  rbind acc (fun size =>
  rbind ((1 << i) + 1)%int (fun n =>
  rbind (n * n)%int (fun nn =>
  Ok (size_t (size + size_t nn))))).

Lemma multigrid_size_fold l :
  multigrid_size l = foldl size_step (Ok 0) (seqZ 0 (l + 1)).
Proof. reflexivity. Qed.

Lemma foldr_add_snoc l x : foldr Z.add 0 (l ++ [x]) = foldr Z.add 0 l + x.
Proof. induction l as [|y l IH]; simpl; [lia|]. rewrite IH. lia. Qed.

Lemma total_size_nat k :
  total_size (Z.of_nat (Datatypes.S k) - 1)
  = total_size (Z.of_nat k - 1) + level_n (Z.of_nat k) * level_n (Z.of_nat k).
Proof.
  unfold total_size.
  replace (Z.of_nat (Datatypes.S k) - 1 + 1) with (Z.of_nat (Datatypes.S k)) by lia.
  replace (Z.of_nat k - 1 + 1) with (Z.of_nat k) by lia.
  rewrite seqZ_S, map_app, Z.add_0_l. cbn [map]. rewrite foldr_add_snoc. reflexivity.
Qed.

Lemma total_size_succ L :
  0 <= L -> total_size L = total_size (L - 1) + level_n L * level_n L.
Proof.
  intros HL. replace L with (Z.of_nat (Datatypes.S (Z.to_nat L)) - 1) at 1 by lia.
  rewrite total_size_nat. replace (Z.of_nat (Z.to_nat L)) with L by lia. reflexivity.
Qed.

Lemma total_size_neg L : L < 0 -> total_size L = 0.
Proof. intros HL. unfold total_size. now rewrite seqZ_nil by lia. Qed.

Lemma total_size_nonneg L : 0 <= total_size L.
Proof.
  destruct (Z_lt_le_dec L 0) as [Hneg|Hpos]; [rewrite total_size_neg; lia|].
  replace L with (Z.of_nat (Z.to_nat L)) by lia.
  induction (Z.to_nat L) as [|k IH].
  - rewrite total_size_succ by lia. rewrite total_size_neg by lia. unfold level_n. simpl. lia.
  - rewrite total_size_succ by lia.
    replace (Z.of_nat (Datatypes.S k) - 1) with (Z.of_nat k) by lia.
    pose proof (level_n_pos (Z.of_nat (Datatypes.S k))). nia.
Qed.

(** The squares of the grid sizes that are an [int]. *)
Lemma level_square_int i :
  0 <= i -> in_int (level_n i * level_n i) = true -> i <= L_MAX.
Proof.
  intros Hi [_ Hmax]%in_int_true. unfold INT_MAX, L_MAX in *.
  destruct (Z_le_gt_dec i 15) as [|Hgt]; [assumption|exfalso].
  pose proof (level_n_mono 16 i ltac:(lia)) as Hmono.
  change (level_n 16) with 65537 in Hmono. nia.
Qed.

(** Running the loop of [multigrid_size] over the levels [0 .. k-1]. *)
Lemma size_loop_Ok k s :
  foldl size_step (Ok 0) (seqZ 0 (Z.of_nat k)) = Ok s ->
  s = total_size (Z.of_nat k - 1) /\ Z.of_nat k <= L_MAX + 1
  /\ s <= Z.of_nat k * 2147483648.
Proof.
  revert s. induction k as [|k IH]; intros s.
  - simpl. intros [= <-]. rewrite total_size_neg by lia. unfold L_MAX. lia.
  - rewrite seqZ_S, foldl_snoc, Z.add_0_l. unfold size_step at 1.
    intros (s0 & Hs0 & (n & Hn & (nn & Hnn & [= <-])%rbind_Ok)%rbind_Ok)%rbind_Ok.
    apply IH in Hs0 as (-> & Hk & Hbound).
    int_inv Hn. int_inv Hnn. rewrite Z.mul_1_l in *. fold (level_n (Z.of_nat k)) in *.
    pose proof (level_square_int (Z.of_nat k) ltac:(lia) Hr1) as Hlevel.
    apply in_int_true in Hr1. unfold INT_MIN, INT_MAX in Hr1.
    pose proof (total_size_nonneg (Z.of_nat k - 1)) as Hpos.
    pose proof (level_n_pos (Z.of_nat k) ltac:(lia)) as Hn2.
    unfold L_MAX in *.
    assert (Hsmall : level_n (Z.of_nat k) * level_n (Z.of_nat k) < SIZE_MOD)
      by (unfold SIZE_MOD; lia).
    unfold size_t. rewrite (Z.mod_small (level_n _ * level_n _)) by nia.
    rewrite Z.mod_small by (unfold SIZE_MOD in *; nia).
    rewrite total_size_nat. repeat split; lia.
Qed.

Lemma multigrid_size_Ok L s :
  multigrid_size L = Ok s -> s = total_size L /\ L <= L_MAX.
Proof.
  rewrite multigrid_size_fold. intros Hs.
  destruct (Z_lt_le_dec L 0) as [Hneg|Hpos].
  - rewrite seqZ_nil in Hs by lia. injection Hs as <-.
    rewrite total_size_neg by lia. unfold L_MAX. lia.
  - replace (L + 1) with (Z.of_nat (Z.to_nat (L + 1))) in Hs by lia.
    apply size_loop_Ok in Hs as (-> & Hk & _).
    split; [f_equal; lia|lia].
Qed.

Lemma size_loop_run k :
  Z.of_nat k <= L_MAX + 1 ->
  foldl size_step (Ok 0) (seqZ 0 (Z.of_nat k)) = Ok (total_size (Z.of_nat k - 1)).
Proof.
  induction k as [|k IH]; intros Hk.
  - simpl. now rewrite total_size_neg by lia.
  - rewrite seqZ_S, foldl_snoc, IH, Z.add_0_l by lia. unfold size_step. cbn [rbind].
    pose proof (level_n_bound (Z.of_nat k) ltac:(lia)) as Hn.
    assert (Hnn : level_n (Z.of_nat k) * level_n (Z.of_nat k) <= 1073807361) by nia.
    pose proof (total_size_nonneg (Z.of_nat k - 1)) as Hpos.
    destruct (size_loop_Ok k _ (IH ltac:(lia))) as (_ & _ & Hbound).
    unfold level_n in Hn, Hnn. unfold L_MAX in Hk.
    rewrite (ishl_run 1 (Z.of_nat k)) by (lia || int_ok).
    rewrite Z.mul_1_l. int_run. unfold of_int at 1. cbn [rbind].
    int_run. unfold of_int at 1. cbn [rbind].
    fold (level_n (Z.of_nat k)) in *.
    unfold size_t.
    rewrite (Z.mod_small (level_n _ * level_n _)) by (unfold SIZE_MOD; nia).
    rewrite Z.mod_small by (unfold SIZE_MOD; nia).
    now rewrite total_size_nat.
Qed.

Lemma multigrid_size_run L :
  L <= L_MAX -> multigrid_size L = Ok (total_size L).
Proof.
  intros HL. rewrite multigrid_size_fold.
  destruct (Z_lt_le_dec L 0) as [Hneg|Hpos].
  - rewrite seqZ_nil by lia. now rewrite total_size_neg by lia.
  - replace (L + 1) with (Z.of_nat (Z.to_nat (L + 1))) by lia.
    rewrite size_loop_run by lia. do 2 f_equal. lia.
Qed.

Lemma total_size_le L :
  0 <= L -> total_size L <= 2 * (level_n L * level_n L).
Proof.
  intros HL. replace L with (Z.of_nat (Z.to_nat L)) by lia.
  induction (Z.to_nat L) as [|k IH].
  - rewrite total_size_succ, total_size_neg by lia. nia.
  - rewrite total_size_succ by lia.
    replace (Z.of_nat (Datatypes.S k) - 1) with (Z.of_nat k) by lia.
    pose proof (level_n_square (Z.of_nat (Datatypes.S k)) ltac:(lia)) as Hsq.
    replace (Z.of_nat (Datatypes.S k) - 1) with (Z.of_nat k) in Hsq by lia. lia.
Qed.

(** An arena of [total_size L] cells reaches to the end of the region of
    level [L - 1]. *)
Lemma total_size_covers L :
  1 <= L -> 2 * (level_n (L - 1) * level_n (L - 1)) <= total_size L.
Proof.
  intros HL. rewrite total_size_succ by lia.
  pose proof (total_size_nonneg (L - 1)). pose proof (level_n_square L HL). lia.
Qed.

(** * The smoothers and the residual operator *)

Definition is_store (a : access) : bool :=
  match a with
  | Store _ _ => true
  | Load _ _ => false
  end.

(** The stores among a list of accesses, in order. *)
Definition stores (l : list access) : list access := List.filter is_store l.

Lemma stores_sweep_acc u f n pts :
  stores (sweep_acc u f n pts) = map (fun p => Store u (idx n p)) pts.
Proof.
  unfold stores, sweep_acc. induction pts as [|[i j] pts IH]; [reflexivity|].
  simpl. now rewrite IH.
Qed.

Lemma stores_app l1 l2 : stores (l1 ++ l2) = stores l1 ++ stores l2.
Proof. apply List.filter_app. Qed.

Lemma sorted_weaken {A} (R R' : relation A) l :
  (forall x y, x ∈ l -> y ∈ l -> R x y -> R' x y) ->
  StronglySorted R l -> StronglySorted R' l.
Proof.
  intros Himp Hs. induction Hs as [|x l Hs IH Hall]; constructor.
  - apply IH. intros y z Hy Hz. apply Himp; now right.
  - rewrite Forall_forall in *. intros y Hy. apply Himp; [left|now right|now apply Hall].
Qed.

(** C6: one call to [gauss_seidel u f n h] is one in-place row-major sweep
    (i outer, j inner) over the interior points [1 <= i, j <= n - 2]: it
    stores to each interior cell once, in row-major order, the value
    [-0.25 * (h^2 * f[i,j] - u[i,j+1] - u[i,j-1] - u[i+1,j] - u[i-1,j])],
    where [u[i,j-1]] and [u[i-1,j]] are read after their update in this
    sweep and [u[i,j+1]] and [u[i+1,j]] before theirs; every other cell
    keeps its content.  The call completes when the grid is addressable
    ([n <= N_MAX]) and [u] and [f] hold [n * n] cells. *)
Theorem gauss_seidel_natural_sweep u f n h w :
  (1 <= n <= N_MAX -> valid (ext w) u (n * n) -> valid (ext w) f (n * n) ->
   exists w', gauss_seidel u f n h w = Done tt w')
  /\ forall w', gauss_seidel u f n h w = Done tt w' ->
       accesses w' = accesses w ++ flat_map (gs_acc u f n) (interior n)
       /\ stores (flat_map (gs_acc u f n) (interior n))
          = map (fun p => Store u (p.2 + p.1 * n)) (interior n)
       /\ StronglySorted (fun p q => p.1 < q.1 \/ (p.1 = q.1 /\ p.2 < q.2)) (interior n)
       /\ (forall i j, (i, j) ∈ interior n <-> 1 <= i <= n - 2 /\ 1 <= j <= n - 2)
       /\ (separate u (n * n) f (n * n) ->
           forall i j, 1 <= i <= n - 2 -> 1 <= j <= n - 2 ->
             rd (mem w') u (j + i * n)
             = (- lit 0.25 * (h * h * rd (mem w) f (j + i * n)
                              - rd (mem w) u (j + 1 + i * n)
                              - rd (mem w') u (j - 1 + i * n)
                              - rd (mem w) u (j + (i + 1) * n)
                              - rd (mem w') u (j + (i - 1) * n)))%T)
       /\ (forall b a,
             (forall i j, 1 <= i <= n - 2 -> 1 <= j <= n - 2 ->
                          b <> blk u \/ a <> ofs u + (j + i * n)) ->
             mem w' b a = mem w b a).
Proof.
  split.
  - intros Hn Hu Hf. eexists. now apply gauss_seidel_run.
  - intros w' ->%gauss_seidel_Done. simpl. split; [reflexivity|].
    split; [|split; [|split; [|split]]].
    + apply (stores_sweep_acc u f n).
    + eapply sorted_weaken; [|apply (interior_sorted n)].
      intros [i j] [i' j'] Hp Hq Hlt. simpl.
      apply elem_of_interior in Hp, Hq. unfold before, idx in Hlt. simpl in Hlt. nia.
    + intros i j. apply elem_of_interior.
    + intros Hsep i j Hi Hj. now apply sweep_interior_value.
    + intros b a Hout. apply sweep_frame; [auto|].
      intros [i j] [Hi Hj]%elem_of_interior. apply (Hout i j); lia.
Qed.

(** Any number of smoother invocations, of either kind, on the same
    arguments. *)
Definition smooth_many (ks : list smoother) (u f : ptr) (n : Z) (h : T) : M unit :=
  foldr (fun S k => smooth S u f n h ;; k) (ret tt) ks.

Definition many_mem (ks : list smoother) (u f : ptr) (n : Z) (h : T) (m : memory)
    : memory :=
  foldl (fun m S => smooth_mem S u f n h m) m ks.

Lemma smooth_many_Done ks u f n h w w' :
  smooth_many ks u f n h w = Done tt w' ->
  mem w' = many_mem ks u f n h (mem w)
  /\ ext w' = ext w
  /\ accesses w' = accesses w ++ flat_map (fun S => smooth_acc S u f n) ks.
Proof.
  revert w. induction ks as [|S ks IH]; intros w; simpl.
  - intros [_ ->]%ret_Done. now rewrite app_nil_r.
  - intros ([] & w1 & ->%smooth_Done & Hrest)%bind_Done.
    apply IH in Hrest as (-> & -> & ->). simpl. now rewrite app_assoc.
Qed.

Lemma smooth_many_run ks u f n h w :
  1 <= n <= N_MAX -> valid (ext w) u (n * n) -> valid (ext w) f (n * n) ->
  exists w', smooth_many ks u f n h w = Done tt w'.
Proof.
  intros Hn. revert w. induction ks as [|S ks IH]; intros w Hu Hf; simpl.
  - eexists. reflexivity.
  - erewrite bind_run by (now apply smooth_run). now apply IH.
Qed.

Lemma many_mem_frame ks u f n h m b a :
  (forall p, p ∈ interior n -> b <> blk u \/ a <> ofs u + idx n p) ->
  many_mem ks u f n h m b a = m b a.
Proof.
  intros Hout. revert m. induction ks as [|S ks IH]; intros m; simpl; [reflexivity|].
  unfold many_mem in *. simpl. rewrite IH. now apply smooth_mem_frame.
Qed.

(** Every store of a smoother goes to an interior cell of [u]. *)
Definition interior_store (u : ptr) (n : Z) (a : access) : Prop :=
  exists i j, 1 <= i <= n - 2 /\ 1 <= j <= n - 2 /\ a = Store u (j + i * n).

Lemma sweep_stores_interior u f n pts :
  (forall p, p ∈ pts -> p ∈ interior n) ->
  Forall (interior_store u n) (stores (sweep_acc u f n pts)).
Proof.
  intros Hpts. rewrite stores_sweep_acc. apply Forall_forall. intros a Ha.
  apply list_elem_of_In, in_map_iff in Ha as ([i j] & <- & Hp%list_elem_of_In%Hpts).
  apply elem_of_interior in Hp. exists i, j. repeat split; lia.
Qed.

Lemma smooth_stores_interior S u f n :
  Forall (interior_store u n) (stores (smooth_acc S u f n)).
Proof.
  destruct S; simpl.
  - now apply sweep_stores_interior.
  - rewrite stores_app. apply Forall_app.
    split; apply sweep_stores_interior; apply color_points_interior.
Qed.

Lemma residual_stores r u f n :
  stores (flat_map (res_acc r u f n) (interior n))
  = map (fun p => Store r (idx n p)) (interior n).
Proof.
  unfold stores. induction (interior n) as [|[i j] pts IH]; [reflexivity|].
  simpl. now rewrite IH.
Qed.

(** C7: any number of invocations of [gauss_seidel] and
    [gauss_seidel_red_black] leaves the entries of [u] with [i] or [j] in
    [{0, n - 1}] unchanged and stores to interior cells of [u] only, so
    [f] is never written; [poisson_residual] leaves the boundary entries
    of [r] unchanged and stores to interior cells of [r] only, so [u] and
    [f] are never written.  The calls complete when the grid is
    addressable and the fields hold [n * n] cells. *)
Theorem interior_operators_frame u f r n h w :
  (forall ks w',
     smooth_many ks u f n h w = Done tt w' ->
     (forall i j, on_boundary n i j ->
                  rd (mem w') u (j + i * n) = rd (mem w) u (j + i * n))
     /\ (exists new, accesses w' = accesses w ++ new
                     /\ Forall (interior_store u n) (stores new))
     /\ (separate u (n * n) f (n * n) ->
         forall k, 0 <= k < n * n -> rd (mem w') f k = rd (mem w) f k))
  /\ (forall w',
        poisson_residual r u f n h w = Done tt w' ->
        (forall i j, on_boundary n i j ->
                     rd (mem w') r (j + i * n) = rd (mem w) r (j + i * n))
        /\ (exists new, accesses w' = accesses w ++ new
                        /\ Forall (interior_store r n) (stores new))
        /\ (separate r (n * n) u (n * n) ->
            forall k, 0 <= k < n * n -> rd (mem w') u k = rd (mem w) u k)
        /\ (separate r (n * n) f (n * n) ->
            forall k, 0 <= k < n * n -> rd (mem w') f k = rd (mem w) f k))
  /\ (1 <= n <= N_MAX ->
      valid (ext w) u (n * n) -> valid (ext w) f (n * n) ->
      (forall ks, exists w', smooth_many ks u f n h w = Done tt w')
      /\ (valid (ext w) r (n * n) ->
          exists w', poisson_residual r u f n h w = Done tt w')).
Proof.
  split; [|split].
  - intros ks w' (Hmem & _ & Hacc)%smooth_many_Done. rewrite Hmem. split; [|split].
    + intros i j Hb. unfold rd. apply many_mem_frame.
      intros p Hp. right. pose proof (boundary_not_interior n i j p Hb Hp) as Hne.
      unfold idx in Hne at 2. simpl in Hne. lia.
    + eexists. split; [exact Hacc|]. clear Hmem Hacc.
      induction ks as [|S ks IH]; simpl; [constructor|].
      rewrite stores_app. apply Forall_app.
      split; [apply smooth_stores_interior|exact IH].
    + intros Hsep k Hk. unfold rd. apply many_mem_frame.
      intros p [Hn Hp]%interior_range.
      eapply (separate_cells u (n * n) f (n * n)); [exact Hsep| |exact Hk]. nia.
  - intros w' ->%poisson_residual_Done. simpl. split; [|split; [|split]].
    + intros i j Hb. unfold rd. apply residual_sweep_frame.
      intros p Hp. right. pose proof (boundary_not_interior n i j p Hb Hp) as Hne.
      unfold idx in Hne at 2. simpl in Hne. lia.
    + eexists. split; [reflexivity|]. rewrite residual_stores.
      apply Forall_forall. intros a Ha.
      apply list_elem_of_In, in_map_iff in Ha as ([i j] & <- & Hp%list_elem_of_In).
      apply elem_of_interior in Hp. exists i, j. repeat split; lia.
    + intros Hsep k Hk. unfold rd. apply residual_sweep_frame.
      intros p [Hn Hp]%interior_range.
      eapply (separate_cells r (n * n) u (n * n)); [exact Hsep| |exact Hk]. nia.
    + intros Hsep k Hk. unfold rd. apply residual_sweep_frame.
      intros p [Hn Hp]%interior_range.
      eapply (separate_cells r (n * n) f (n * n)); [exact Hsep| |exact Hk]. nia.
  - intros Hn Hu Hf. split.
    + intros ks. now apply smooth_many_run.
    + intros Hr. eexists. now apply poisson_residual_run.
Qed.

(** The update statement of the smoothers applied to the points of
    [pts], in the order of the list. *)
Definition update_points (u f : ptr) (n : Z) (h : T) (pts : list (Z * Z)) : M unit :=
  foldr (fun p k => gs_update u f n h p.1 p.2 ;; k) (ret tt) pts.

Lemma update_points_Done u f n h pts w w' :
  update_points u f n h pts w = Done tt w' ->
  w' = upd_world (sweep u f n h pts) (sweep_acc u f n pts) w.
Proof.
  revert w. induction pts as [|[i j] pts IH]; intros w; simpl.
  - intros [_ ->]%ret_Done. now rewrite upd_world_id.
  - intros ([] & w1 & ->%gs_update_Done & Hrest)%bind_Done.
    apply IH in Hrest as ->. now rewrite upd_world_compose.
Qed.

Lemma update_points_run u f n h pts w :
  (forall p, p ∈ pts -> p ∈ interior n) -> n <= N_MAX ->
  valid (ext w) u (n * n) -> valid (ext w) f (n * n) ->
  exists w', update_points u f n h pts w = Done tt w'.
Proof.
  intros Hpts Hn. revert w. induction pts as [|[i j] pts IH]; intros w Hu Hf; simpl.
  - eexists. reflexivity.
  - assert (Hp : (i, j) ∈ interior n) by (apply Hpts; left).
    apply elem_of_interior in Hp as [Hi Hj].
    erewrite bind_run by (now apply gs_update_run).
    apply IH; [|assumption..]. intros p Hp. apply Hpts. now right.
Qed.

(** C5: in [gauss_seidel_red_black] the first pass stores only to points
    with [(i + j)] even and reads [u] only at their neighbours, which have
    [(i + j)] odd, and symmetrically for the second pass; so each pass
    computes the simultaneous update of the points of its colour from the
    memory at the start of the pass, whatever the order in which its
    points are visited, and the second pass runs on the result of the
    first. *)
Theorem red_black_passes_independent u f n h w :
  separate u (n * n) f (n * n) ->
  (forall color w1,
     color_pass color u f n h w = Done tt w1 ->
     accesses w1 = accesses w ++ flat_map (gs_acc u f n) (color_points color n)
     /\ (forall b a, mem w1 b a = simultaneous color u f n h (mem w) b a)
     /\ (forall pts w2,
           pts ≡ₚ color_points color n ->
           update_points u f n h pts w = Done tt w2 ->
           forall b a, mem w2 b a = mem w1 b a))
  /\ (forall color i j,
        (i, j) ∈ color_points color n ->
        (1 <= i <= n - 2 /\ 1 <= j <= n - 2 /\ Z.rem (i + j) 2 = color)
        /\ Z.rem (i + (j + 1)) 2 = 1 - color /\ Z.rem (i + (j - 1)) 2 = 1 - color
        /\ Z.rem (i + 1 + j) 2 = 1 - color /\ Z.rem (i - 1 + j) 2 = 1 - color)
  /\ (forall w',
        gauss_seidel_red_black u f n h w = Done tt w' ->
        exists w1,
          color_pass 0 u f n h (note_call (call_gauss_seidel_red_black u f n h) w)
          = Done tt w1
          /\ color_pass 1 u f n h w1 = Done tt w'
          /\ forall b a,
               mem w' b a
               = simultaneous 1 u f n h (simultaneous 0 u f n h (mem w)) b a)
  /\ (1 <= n <= N_MAX -> valid (ext w) u (n * n) -> valid (ext w) f (n * n) ->
      (exists w', gauss_seidel_red_black u f n h w = Done tt w')
      /\ (forall color, exists w1, color_pass color u f n h w = Done tt w1)
      /\ (forall color pts, pts ≡ₚ color_points color n ->
                            exists w2, update_points u f n h pts w = Done tt w2)).
Proof.
  intros Hsep. split; [|split; [|split]].
  - intros color w1 ->%color_pass_Done. simpl. split; [reflexivity|]. split.
    + intros b a. now apply color_sweep_simultaneous.
    + intros pts w2 Hperm ->%update_points_Done b a. simpl.
      rewrite !(color_sweep_simultaneous color); auto.
  - intros color i j [[Hi Hj]%elem_of_interior Hc]%color_points_elem.
    unfold has_color in Hc. simpl in Hc. apply Z.eqb_eq in Hc.
    split; [repeat split; assumption || lia|].
    rewrite !Z.rem_mod_nonneg in * by lia.
    replace (i + (j + 1)) with (i + j + 1) by lia.
    replace (i + (j - 1)) with (i + j - 1) by lia.
    replace (i + 1 + j) with (i + j + 1) by lia.
    replace (i - 1 + j) with (i + j - 1) by lia.
    clear - Hc Hi Hj; repeat split; Z.div_mod_to_equations; lia.
  - unfold gauss_seidel_red_black.
    intros w' ([] & w0 & [= <-] & ([] & w1 & Hred & Hblack)%bind_Done)%bind_Done.
    exists w1. split; [exact Hred|]. split; [exact Hblack|].
    apply color_pass_Done in Hred, Hblack. subst. simpl. intros b a.
    rewrite (color_sweep_simultaneous 1) by auto.
    apply simultaneous_agree. intros b' a'. now apply color_sweep_simultaneous.
  - intros Hn Hu Hf. split; [|split].
    + eexists. now apply gauss_seidel_red_black_run.
    + intros color. eexists. now apply color_pass_run.
    + intros color pts Hperm. apply update_points_run; try assumption; [|lia].
      intros p Hp. rewrite Hperm in Hp. now apply color_points_interior in Hp.
Qed.

(** * The V-cycle *)

(** The steps of a completed call above level 1. *)
Lemma v_cycle_steps fuel l S u f r v w h w0 w1 :
  l <> 1 ->
  v_cycle (Datatypes.S fuel) l S u f r v w h w0 = Done tt w1 ->
  let nu := level_n l in
  let nv := level_n (l - 1) in
  let el := ptr_add v (nv * nv) in
  let rl := ptr_add w (nv * nv) in
  exists wa wb wc wd we wf,
    smooth S u f nu h (note_call (call_multigrid_v_cycle l u f r v w h) w0) = Done tt wa
    /\ poisson_residual r u f nu h wa = Done tt wb
    /\ grid_restrict rl nv nv r nu nu (lit 0) (lit 1) wb = Done tt wc
    /\ v_cycle fuel (l - 1) S el rl r v w (lit 2 * h)%T wc = Done tt wd
    /\ grid_prolongate u nu nu el nv nv (lit 1) (lit 1) wd = Done tt we
    /\ smooth S u f nu h we = Done tt wf
    /\ w1 = note_call (return_multigrid_v_cycle l) wf.
Proof.
  intros Hl Hrun. rewrite v_cycle_unfold in Hrun.
  apply bind_Done in Hrun as (x & w0' & ->%enter_Done & Hrun).
  destruct (Z.eqb_spec l 1) as [?|_]; [contradiction|].
  run_inv Hrun.
  apply bind_Done in Hrun as ([] & wa & Ha & Hrun).
  apply bind_Done in Hrun as ([] & wb & Hb & Hrun).
  apply bind_Done in Hrun as ([] & wc & Hc & Hrun).
  run_inv Hrun.
  apply bind_Done in Hrun as ([] & wd & Hd & Hrun).
  apply bind_Done in Hrun as ([] & we & He & Hrun).
  apply bind_Done in Hrun as ([] & wf & Hf & ->%enter_Done).
  rewrite !Z.mul_1_l in *. fold (level_n l) in *. fold (level_n (l - 1)) in *.
  cbv zeta. exists wa, wb, wc, wd, we, wf. repeat split; assumption.
Qed.

Lemma multigrid_v_cycle_succ l S u f r v w h :
  1 < l ->
  multigrid_v_cycle l S u f r v w h
  = v_cycle (Datatypes.S (Z.to_nat (l - 1))) l S u f r v w h.
Proof.
  intros Hl. unfold multigrid_v_cycle.
  now replace (Z.to_nat l) with (Datatypes.S (Z.to_nat (l - 1))) by lia.
Qed.

Lemma multigrid_v_cycle_run l S u f r v w h w0 :
  1 <= l <= L_MAX -> v_cycle_buffers (ext w0) l u f r v w ->
  exists w1, multigrid_v_cycle l S u f r v w h w0 = Done tt w1.
Proof.
  intros Hl Hbuf. unfold multigrid_v_cycle.
  apply (v_cycle_run (Z.to_nat (l - 1))); [lia|lia|lia|exact Hbuf].
Qed.

(** C1: for every level [l > 1], one call to [multigrid_v_cycle] performs,
    in this order: one smoother application to [(u, f, n(l), h)]; the
    residual into the scratch [r]; the restriction of [r] to the coarse
    field with weights 0 and 1; the recursive call at level [l - 1] on the
    carved correction field with spacing [2 * h]; the prolongation of the
    correction onto [u] with weights 1 and 1; and a final smoother
    application to [(u, f, n(l), h)], where [n(l) = 2^l + 1].  The call
    completes for [l <= L_MAX] on buffers of the sizes of its level. *)
Theorem v_cycle_recursive_case l S u f r v w h w0 :
  1 < l ->
  let nu := 2 ^ l + 1 in
  let nv := 2 ^ (l - 1) + 1 in
  let el := ptr_add v (nv * nv) in
  let rl := ptr_add w (nv * nv) in
  (forall w1,
     multigrid_v_cycle l S u f r v w h w0 = Done tt w1 ->
     (exists wa wb wc wd we wf,
        smooth S u f nu h (note_call (call_multigrid_v_cycle l u f r v w h) w0)
        = Done tt wa
        /\ poisson_residual r u f nu h wa = Done tt wb
        /\ grid_restrict rl nv nv r nu nu (lit 0) (lit 1) wb = Done tt wc
        /\ multigrid_v_cycle (l - 1) S el rl r v w (lit 2 * h)%T wc = Done tt wd
        /\ grid_prolongate u nu nu el nv nv (lit 1) (lit 1) wd = Done tt we
        /\ smooth S u f nu h we = Done tt wf
        /\ w1 = note_call (return_multigrid_v_cycle l) wf)
     /\ map fst (history w1)
        = map fst (history w0)
          ++ [call_multigrid_v_cycle l u f r v w h;
              smooth_call S u f nu h;
              call_poisson_residual r u f nu h;
              call_grid_restrict rl nv nv r nu nu (lit 0) (lit 1)]
          ++ v_cycle_calls (Z.to_nat (l - 2)) (l - 1) S el rl r v w (lit 2 * h)%T
          ++ [call_grid_prolongate u nu nu el nv nv (lit 1) (lit 1);
              smooth_call S u f nu h;
              return_multigrid_v_cycle l])
  /\ (l <= L_MAX -> v_cycle_buffers (ext w0) l u f r v w ->
      exists w1, multigrid_v_cycle l S u f r v w h w0 = Done tt w1).
Proof.
  intros Hl nu nv el rl. split.
  - intros w1 Hrun. split.
    + rewrite multigrid_v_cycle_succ in Hrun by assumption.
      apply v_cycle_steps in Hrun; [exact Hrun|lia].
    + apply v_cycle_Done in Hrun as (_ & _ & _ & rest & Hhist & Hcalls & _).
      rewrite Hhist, map_app. cbn [map fst]. rewrite Hcalls.
      replace (Z.to_nat (l - 1)) with (Datatypes.S (Z.to_nat (l - 2))) by lia.
      cbn [v_cycle_calls]. replace (l - 1 - 1) with (l - 2) by lia. reflexivity.
  - intros Hmax Hbuf. apply multigrid_v_cycle_run; [lia|exact Hbuf].
Qed.

(** C2: for [l = 1] ([n = 3]) [multigrid_v_cycle] makes no recursive call
    and no smoother, residual or grid-transfer call: it calls [base_case],
    which sets the single interior unknown [u[1,1]] to
    [-0.5 * f[1,1] * h * h] and leaves every other cell unchanged. *)
Theorem v_cycle_base_case S u f r v w h w0 :
  (forall w1,
     multigrid_v_cycle 1 S u f r v w h w0 = Done tt w1 ->
     map fst (history w1)
     = map fst (history w0)
       ++ [call_multigrid_v_cycle 1 u f r v w h;
           call_base_case u f h;
           return_multigrid_v_cycle 1]
     /\ accesses w1 = accesses w0 ++ [Load f (1 + 1 * 3); Store u (1 + 1 * 3)]
     /\ rd (mem w1) u (1 + 1 * 3) = (- lit 0.5 * rd (mem w0) f (1 + 1 * 3) * h * h)%T
     /\ (forall b a, b <> blk u \/ a <> ofs u + (1 + 1 * 3) -> mem w1 b a = mem w0 b a))
  /\ (valid (ext w0) u (3 * 3) -> valid (ext w0) f (3 * 3) ->
      exists w1, multigrid_v_cycle 1 S u f r v w h w0 = Done tt w1).
Proof.
  split.
  - unfold multigrid_v_cycle. simpl.
    intros w1 (x & wa & ->%enter_Done
               & ([] & wb & ->%base_case_Done & ->%enter_Done)%bind_Done)%bind_Done.
    simpl. rewrite !map_app. simpl. rewrite <- !app_assoc. simpl.
    split; [reflexivity|]. split; [reflexivity|]. split.
    + apply rd_wr_same.
    + intros b a Hout. now apply wr_other.
  - intros Hu Hf. unfold multigrid_v_cycle. simpl. rewrite enter_run. cbv beta.
    erewrite bind_run by (apply base_case_run; [exact Hu|exact Hf]).
    eexists. reflexivity.
Qed.

(** ** The chain of levels *)

(** The level of a recorded V-cycle call, and of a recorded return. *)
Definition entered (c : call) : option Z :=
  match c with
  | call_multigrid_v_cycle l _ _ _ _ _ _ => Some l
  | _ => None
  end.

Definition returned (c : call) : option Z :=
  match c with
  | return_multigrid_v_cycle l => Some l
  | _ => None
  end.

Fixpoint pick {A} (f : call -> option A) (cs : list call) : list A :=
  match cs with
  | [] => []
  | c :: cs => match f c with
               | Some a => a :: pick f cs
               | None => pick f cs
               end
  end.

(** The levels entered, in order, and the levels left, in order. *)
Definition levels_entered (cs : list call) : list Z := pick entered cs.
Definition levels_returned (cs : list call) : list Z := pick returned cs.

Lemma pick_app {A} (f : call -> option A) cs1 cs2 :
  pick f (cs1 ++ cs2) = pick f cs1 ++ pick f cs2.
Proof.
  induction cs1 as [|c cs1 IH]; simpl; [reflexivity|].
  destruct (f c); simpl; now rewrite IH.
Qed.

Lemma entered_smooth_call S u f n h : entered (smooth_call S u f n h) = None.
Proof. now destruct S. Qed.

Lemma returned_smooth_call S u f n h : returned (smooth_call S u f n h) = None.
Proof. now destruct S. Qed.

Lemma seqZ_snoc m (k : nat) :
  seqZ m (Z.of_nat k + 1) = seqZ m (Z.of_nat k) ++ [m + Z.of_nat k].
Proof. rewrite <- seqZ_S. f_equal. lia. Qed.

Lemma levels_entered_calls d :
  forall l S u f r v w h,
    levels_entered (v_cycle_calls d l S u f r v w h)
    = reverse (seqZ (l - Z.of_nat d) (Z.of_nat d + 1)).
Proof.
  unfold levels_entered.
  induction d as [|d IH]; intros l S u f r v w h.
  - simpl. rewrite Z.sub_0_r. rewrite seqZ_cons, seqZ_nil by lia. reflexivity.
  - cbn [v_cycle_calls pick entered]. cbn zeta.
    rewrite !pick_app. cbn [pick]. rewrite !entered_smooth_call. cbn [entered].
    rewrite IH, app_nil_r.
    rewrite (seqZ_snoc _ (Datatypes.S d)), reverse_app. simpl.
    f_equal; [lia|]. f_equal. f_equal; lia.
Qed.

Lemma levels_returned_calls d :
  forall l S u f r v w h,
    levels_returned (v_cycle_calls d l S u f r v w h)
    = seqZ (l - Z.of_nat d) (Z.of_nat d + 1).
Proof.
  unfold levels_returned.
  induction d as [|d IH]; intros l S u f r v w h.
  - simpl. rewrite Z.sub_0_r. rewrite seqZ_cons, seqZ_nil by lia. reflexivity.
  - cbn [v_cycle_calls pick returned]. cbn zeta.
    rewrite !pick_app. cbn [pick]. rewrite !returned_smooth_call. cbn [returned].
    rewrite IH.
    rewrite (seqZ_snoc _ (Datatypes.S d)). rewrite app_nil_l.
    f_equal; [f_equal; lia|]. f_equal. lia.
Qed.

(** C9: for every level [l >= 1] a call to [multigrid_v_cycle] ends: the
    recursion descends once through each of the levels [l - 1, ..., 1],
    so its depth is bounded by [l] (the recursion bound [l] of the
    embedding is never exhausted); a completed call has entered the levels
    [l, l - 1, ..., 1] in this order, each once, which makes [l - 1]
    recursive calls, and has left them in the order [1, ..., l].  The call
    completes for [l <= L_MAX] on buffers of the sizes of its level. *)
Theorem v_cycle_linear_recursion l S u f r v w h w0 :
  1 <= l ->
  multigrid_v_cycle l S u f r v w h w0 <> Fault OutOfFuel
  /\ (forall w1,
        multigrid_v_cycle l S u f r v w h w0 = Done tt w1 ->
        exists new,
          map fst (history w1) = map fst (history w0) ++ new
          /\ levels_entered new = reverse (seqZ 1 l)
          /\ levels_entered new = l :: reverse (seqZ 1 (l - 1))
          /\ length (levels_entered new) = Datatypes.S (Z.to_nat (l - 1))
          /\ levels_returned new = seqZ 1 l)
  /\ (l <= L_MAX -> v_cycle_buffers (ext w0) l u f r v w ->
      exists w1, multigrid_v_cycle l S u f r v w h w0 = Done tt w1).
Proof.
  intros Hl. split; [|split].
  - pose proof (sound_v_cycle (ext w0) (fun _ => True) (accesses w0) (Z.to_nat l)
                  l S u f r v w h ltac:(lia) I I I I I w0) as Hsound.
    unfold multigrid_v_cycle.
    destruct (v_cycle (Z.to_nat l) l S u f r v w h w0) as [a w1|e]; [discriminate|].
    intros [= ->]. apply Hsound; [|reflexivity].
    split; [reflexivity|]. exists []. now rewrite app_nil_r.
  - intros w1 (_ & _ & _ & rest & Hhist & Hcalls & _)%v_cycle_Done.
    exists (call_multigrid_v_cycle l u f r v w h :: map fst rest).
    rewrite Hhist, map_app. split; [reflexivity|]. rewrite Hcalls.
    rewrite levels_entered_calls, levels_returned_calls.
    replace (l - Z.of_nat (Z.to_nat (l - 1))) with 1 by lia.
    replace (Z.of_nat (Z.to_nat (l - 1)) + 1) with l by lia.
    split; [reflexivity|]. split; [|split; [|reflexivity]].
    + replace l with (Z.of_nat (Z.to_nat (l - 1)) + 1) at 1 by lia.
      rewrite seqZ_snoc, reverse_app. simpl.
      f_equal; [lia|]. f_equal. f_equal. lia.
    + rewrite length_reverse, length_seqZ. lia.
  - intros Hmax Hbuf. apply multigrid_v_cycle_run; [lia|exact Hbuf].
Qed.

(** ** The arenas of the driver *)

Definition v_cycle_entry (c : call) : bool :=
  match c with
  | call_multigrid_v_cycle _ _ _ _ _ _ _ => true
  | _ => false
  end.

(** The recursive calls below level [l], [d] of them: the call at level
    [k] works on the [n(k)^2] cells of [v] and of [w] that start at offset
    [n(k)^2]. *)
Fixpoint coarse_calls (d : nat) (l : Z) (r v w : ptr) (h : T) : list call :=
  match d with
  | O => []
  | Datatypes.S d' =>
      let nv := level_n (l - 1) in
      call_multigrid_v_cycle (l - 1) (ptr_add v (nv * nv)) (ptr_add w (nv * nv))
                             r v w (lit 2 * h)%T
      :: coarse_calls d' (l - 1) r v w (lit 2 * h)%T
  end.

Lemma v_cycle_entry_smooth_call S u f n h : v_cycle_entry (smooth_call S u f n h) = false.
Proof. now destruct S. Qed.

Lemma v_cycle_entries_calls d :
  forall l S u f r v w h,
    List.filter v_cycle_entry (v_cycle_calls d l S u f r v w h)
    = call_multigrid_v_cycle l u f r v w h :: coarse_calls d l r v w h.
Proof.
  induction d as [|d IH]; intros l S u f r v w h; [reflexivity|].
  cbn [v_cycle_calls coarse_calls List.filter v_cycle_entry]. cbn zeta.
  rewrite !List.filter_app. cbn [List.filter].
  rewrite !v_cycle_entry_smooth_call. cbn [v_cycle_entry].
  rewrite IH. simpl. now rewrite app_nil_r.
Qed.

Lemma coarse_calls_regions d :
  forall l r v w h,
    Forall (fun c => exists k h',
              l - Z.of_nat d <= k < l
              /\ c = call_multigrid_v_cycle
                       k (ptr_add v (level_n k * level_n k))
                       (ptr_add w (level_n k * level_n k)) r v w h')
           (coarse_calls d l r v w h).
Proof.
  induction d as [|d IH]; intros l r v w h; [constructor|].
  cbn [coarse_calls]. cbn zeta. constructor.
  - exists (l - 1), (lit 2 * h)%T. split; [lia|reflexivity].
  - eapply Forall_impl; [apply IH|]. intros c (k & h' & Hk & ->).
    exists k, h'. split; [lia|reflexivity].
Qed.

(** The regions of two levels do not overlap. *)
Lemma regions_apart k k' :
  1 <= k' < k -> 2 * (level_n k' * level_n k') <= level_n k * level_n k.
Proof.
  intros Hk. pose proof (level_n_square (k' + 1) ltac:(lia)) as Hsq.
  replace (k' + 1 - 1) with k' in Hsq by lia.
  pose proof (level_n_mono (k' + 1) k ltac:(lia)).
  pose proof (level_n_pos (k' + 1) ltac:(lia)). nia.
Qed.

Lemma size_t_small z : 0 <= z < SIZE_MOD -> size_t z = z.
Proof. intros Hz. unfold size_t. now apply Z.mod_small. Qed.

Lemma Multigrid_call_Done mg p w0 w2 :
  Multigrid_call mg p w0 = Done tt w2 ->
  let N := mg_num_bytes mg / sizeof_T in
  multigrid_v_cycle (mg_l mg) (mg_smoother mg) (p_u p) (p_f p)
                    (mg_r mg) (mg_v mg) (mg_w mg) (p_h p)
    (upd_world (fun m => zero_fill (mg_w mg) N (zero_fill (mg_v mg) N m))
               (flat_map (fun k => [Store (mg_v mg) k]) (seqZ 0 N)
                ++ flat_map (fun k => [Store (mg_w mg) k]) (seqZ 0 N)) w0)
  = Done tt w2.
Proof.
  unfold Multigrid_call.
  intros ([] & wa & ->%memset_Done & ([] & wb & ->%memset_Done & Hrun)%bind_Done)%bind_Done.
  cbv zeta. now rewrite upd_world_compose in Hrun.
Qed.

Lemma Multigrid_call_run mg p w0 :
  let N := mg_num_bytes mg / sizeof_T in
  valid (ext w0) (mg_v mg) N -> valid (ext w0) (mg_w mg) N ->
  1 <= mg_l mg <= L_MAX ->
  v_cycle_buffers (ext w0) (mg_l mg) (p_u p) (p_f p) (mg_r mg) (mg_v mg) (mg_w mg) ->
  exists w2, Multigrid_call mg p w0 = Done tt w2.
Proof.
  intros N Hv Hw HL Hbuf. unfold Multigrid_call.
  erewrite bind_run by (apply memset_run; exact Hv). cbv beta.
  erewrite bind_run by (apply memset_run; exact Hw). cbv beta.
  apply multigrid_v_cycle_run; [exact HL|exact Hbuf].
Qed.

(** The arenas as [Multigrid_new] allocates them. *)
Definition arenas_of (mg : Multigrid) (p : Poisson) (w0 w1 : world) : Prop :=
  let b := next_block w0 in
  let L := p_l p in
  mg_l mg = L
  /\ mg_v mg = Ptr b 0 /\ mg_w mg = Ptr (Datatypes.S b) 0
  /\ mg_r mg = Ptr (Datatypes.S (Datatypes.S b)) 0
  /\ mg_num_bytes mg / sizeof_T = total_size L
  /\ ext w1 b = total_size L /\ ext w1 (Datatypes.S b) = total_size L
  /\ ext w1 (Datatypes.S (Datatypes.S b)) = level_n L * level_n L
  /\ (forall b', (b' < b)%nat -> ext w1 b' = ext w0 b')
  /\ mem w1 = mem w0 /\ history w1 = history w0 /\ accesses w1 = accesses w0.

Lemma Multigrid_new_Done S p w0 mg w1 :
  0 < sizeof_T < 2 ^ 32 ->
  Multigrid_new S p w0 = Done mg w1 ->
  0 <= p_l p <= L_MAX /\ mg_smoother mg = S /\ arenas_of mg p w0 w1.
Proof.
  intros Hsz. unfold Multigrid_new. intros Hrun.
  apply bind_Done in Hrun as (size & wa & [Hsize ->]%int_Done & Hrun).
  apply multigrid_size_Ok in Hsize as [-> HL].
  apply bind_Done in Hrun as (v & wb & [= <- <-] & Hrun).
  apply bind_Done in Hrun as (w & wc & [= <- <-] & Hrun).
  apply bind_Done in Hrun as (n & wd & [Hn ->]%int_Done & Hrun).
  int_inv Hn. rewrite Z.mul_1_l in *. fold (level_n (p_l p)) in *.
  apply bind_Done in Hrun as (r & we & [= <- <-] & [= <- <-]).
  assert (Hl : 0 <= p_l p <= L_MAX) by lia.
  pose proof (level_n_bound _ Hl) as Hnb.
  pose proof (total_size_nonneg (p_l p)) as Htot.
  assert (Htot' : total_size (p_l p) <= 2147614722).
  { pose proof (total_size_le (p_l p) ltac:(lia)). nia. }
  split; [exact Hl|]. split; [reflexivity|].
  unfold arenas_of. simpl.
  rewrite !Nat.eqb_refl.
  replace (next_block w0 =? Datatypes.S (next_block w0))%nat with false
    by (symmetry; apply Nat.eqb_neq; lia).
  replace (next_block w0 =? Datatypes.S (Datatypes.S (next_block w0)))%nat with false
    by (symmetry; apply Nat.eqb_neq; lia).
  replace (Datatypes.S (next_block w0) =? Datatypes.S (Datatypes.S (next_block w0)))%nat
    with false by (symmetry; apply Nat.eqb_neq; lia).
  assert (Hbytes : size_t (total_size (p_l p) * sizeof_T) / sizeof_T = total_size (p_l p)).
  { rewrite size_t_small by (unfold SIZE_MOD; nia). apply Z.div_mul. lia. }
  assert (Hrbytes : size_t (size_t (sizeof_T * size_t (level_n (p_l p)))
                            * size_t (level_n (p_l p))) / sizeof_T
                    = level_n (p_l p) * level_n (p_l p)).
  { rewrite (size_t_small (level_n _)) by (unfold SIZE_MOD; lia).
    rewrite (size_t_small (sizeof_T * _)) by (unfold SIZE_MOD; nia).
    rewrite size_t_small by (unfold SIZE_MOD; nia).
    replace (sizeof_T * level_n (p_l p) * level_n (p_l p))
      with (level_n (p_l p) * level_n (p_l p) * sizeof_T) by lia.
    apply Z.div_mul. lia. }
  repeat split; try assumption; try reflexivity.
  intros b' Hb'.
  repeat (replace (b' =? _)%nat with false by (symmetry; apply Nat.eqb_neq; lia)).
  reflexivity.
Qed.

Lemma Multigrid_new_run S p w0 :
  0 <= p_l p <= L_MAX -> exists mg w1, Multigrid_new S p w0 = Done mg w1.
Proof.
  intros Hl. unfold Multigrid_new.
  rewrite multigrid_size_run by lia. unfold int at 1, bind at 1.
  unfold malloc at 1, bind at 1. unfold malloc at 1, bind at 1.
  pose proof (level_n_bound _ Hl) as Hnb. unfold level_n in Hnb. unfold L_MAX in Hl.
  rewrite (ishl_run 1 (p_l p)) by (lia || int_ok). rewrite Z.mul_1_l. int_run.
  rewrite (bind_run _ _ _ _ _ (int_run _ _)). cbv beta.
  unfold malloc at 1, bind at 1. unfold ret. eexists _, _. reflexivity.
Qed.

Lemma sound_Multigrid_call E B base mg p :
  B (blk (p_u p)) -> B (blk (p_f p)) -> B (blk (mg_r mg)) -> B (blk (mg_v mg)) ->
  B (blk (mg_w mg)) ->
  sound E B base (Multigrid_call mg p).
Proof.
  intros Hu Hf Hr Hv Hw. unfold Multigrid_call.
  apply sound_bind; [now apply sound_memset|intros _].
  apply sound_bind; [now apply sound_memset|intros _].
  unfold multigrid_v_cycle. apply sound_v_cycle; auto. lia.
Qed.

Lemma zone_zero_filled L v w N m :
  blk v <> blk w ->
  2 * (level_n (L - 1) * level_n (L - 1)) <= N ->
  zone_zero L v (zero_fill w N (zero_fill v N m)).
Proof.
  intros Hvw HN k c Hk Hc. unfold rd.
  rewrite zero_fill_outside by now left.
  apply (zero_fill_inside v N m c).
  pose proof (level_n_mono k (L - 1) ltac:(lia)).
  pose proof (level_n_pos k ltac:(lia)). nia.
Qed.

(** C3: within one V-cycle at finest level [L], the recursive call at
    level [k] (for [k = L - 1, ..., 1]) works on the [n(k)^2] cells of the
    arena [v] that start at offset [n(k)^2] (its correction field) and on
    the [n(k)^2] cells of [w] at the same offset (its restricted
    residual); the regions of different levels do not overlap and each
    level is entered once, so no region is used twice; and since the
    driver zero-fills both arenas before it invokes the cycle, every
    correction field is identically zero when its recursive solve
    begins. *)
Theorem correction_regions_disjoint_and_zero mg p w0 :
  let L := mg_l mg in
  let N := mg_num_bytes mg / sizeof_T in
  (forall k k', 1 <= k' < k ->
                2 * (level_n k' * level_n k') <= level_n k * level_n k)
  /\ (forall w2,
        Multigrid_call mg p w0 = Done tt w2 ->
        exists m0 rest,
          history w2
          = history w0
            ++ (call_multigrid_v_cycle L (p_u p) (p_f p) (mg_r mg) (mg_v mg) (mg_w mg)
                                       (p_h p), m0) :: rest
          /\ List.filter v_cycle_entry (map fst rest)
             = coarse_calls (Z.to_nat (L - 1)) L (mg_r mg) (mg_v mg) (mg_w mg) (p_h p)
          /\ Forall (fun c => exists k h',
                       1 <= k < L
                       /\ c = call_multigrid_v_cycle
                                k (ptr_add (mg_v mg) (level_n k * level_n k))
                                (ptr_add (mg_w mg) (level_n k * level_n k))
                                (mg_r mg) (mg_v mg) (mg_w mg) h')
                    (List.filter v_cycle_entry (map fst rest))
          /\ levels_entered (map fst rest) = reverse (seqZ 1 (L - 1))
          /\ (blk (mg_r mg) <> blk (mg_v mg) -> blk (mg_w mg) <> blk (mg_v mg) ->
              blk (p_u p) <> blk (mg_v mg) ->
              2 * (level_n (L - 1) * level_n (L - 1)) <= N ->
              Forall entry_zero rest))
  /\ (forall S w w1,
        0 < sizeof_T < 2 ^ 32 -> 1 <= p_l p -> (blk (p_u p) < next_block w)%nat ->
        Multigrid_new S p w = Done mg w1 ->
        blk (mg_r mg) <> blk (mg_v mg) /\ blk (mg_w mg) <> blk (mg_v mg)
        /\ blk (p_u p) <> blk (mg_v mg)
        /\ 2 * (level_n (L - 1) * level_n (L - 1)) <= N).
Proof.
  intros L N. split; [exact regions_apart|]. split.
  - intros w2 Hrun%Multigrid_call_Done. cbv zeta in Hrun. fold N in Hrun. fold L in Hrun.
    pose proof Hrun as (HL & _ & _ & rest & Hhist & Hcalls & Hzero)%v_cycle_Done.
    eexists _, rest. split; [exact Hhist|].
    assert (Hent : List.filter v_cycle_entry (map fst rest)
                   = coarse_calls (Z.to_nat (L - 1)) L (mg_r mg) (mg_v mg) (mg_w mg) (p_h p)).
    { pose proof (v_cycle_entries_calls (Z.to_nat (L - 1)) L (mg_smoother mg) (p_u p) (p_f p)
                    (mg_r mg) (mg_v mg) (mg_w mg) (p_h p)) as Hf.
      rewrite <- Hcalls in Hf. cbn [List.filter v_cycle_entry] in Hf.
      now injection Hf. }
    split; [exact Hent|]. split; [|split].
    + rewrite Hent. eapply Forall_impl; [apply coarse_calls_regions|].
      intros c (k & h' & Hk & ->). exists k, h'. split; [lia|reflexivity].
    + pose proof (levels_entered_calls (Z.to_nat (L - 1)) L (mg_smoother mg) (p_u p) (p_f p)
                    (mg_r mg) (mg_v mg) (mg_w mg) (p_h p)) as Hlev.
      rewrite <- Hcalls in Hlev. unfold levels_entered in *. cbn [pick entered] in Hlev.
      replace (L - Z.of_nat (Z.to_nat (L - 1))) with 1 in Hlev by lia.
      rewrite seqZ_snoc, reverse_app in Hlev. simpl in Hlev.
      injection Hlev as _ Hlev. rewrite Hlev. do 2 f_equal. lia.
    + intros Hr Hw Hu HN. apply Hzero.
      * split; [exact Hr|]. split; [exact Hw|]. intros Heq. now rewrite Heq in Hu.
      * simpl. apply zone_zero_filled; [congruence|exact HN].
  - intros S w w1 Hsz Hl Hu (HL & _ & Harenas)%Multigrid_new_Done; [|exact Hsz].
    destruct Harenas as (Hlm & -> & -> & -> & HN & _). simpl.
    repeat split; try lia.
    unfold N, L. rewrite HN, Hlm. apply total_size_covers. exact Hl.
Qed.

Lemma tidy_start (w : world) B : tidy (ext w) B (accesses w) w.
Proof. split; [reflexivity|]. exists []. now rewrite app_nil_r. Qed.

(** C4: [multigrid_size L] is the sum over [i = 0 .. L] of [(2^i + 1)^2];
    and a V-cycle at level [L] on arenas [v] and [w] of [multigrid_size L]
    cells each and a residual scratch field of [(2^L + 1)^2] cells
    completes without a fault, every load and store of the run going to
    a cell inside the block of one of its five buffers.  The restrict and
    prolongate operators are modelled as reading their source shape and
    updating their destination shape.  The size is computed with [int]
    products, which are defined for [L <= L_MAX]. *)
Theorem arena_size_and_bounds :
  (forall L s, multigrid_size L = Ok s ->
               s = foldr Z.add 0 (map (fun i => (2 ^ i + 1) * (2 ^ i + 1)) (seqZ 0 (L + 1))))
  /\ (forall L, L <= L_MAX -> exists s, multigrid_size L = Ok s)
  /\ (forall L S u f r v w h w0 s,
        1 <= L -> multigrid_size L = Ok s ->
        ofs v = 0 -> ext w0 (blk v) = s ->
        ofs w = 0 -> ext w0 (blk w) = s ->
        ofs r = 0 -> ext w0 (blk r) = (2 ^ L + 1) * (2 ^ L + 1) ->
        valid (ext w0) u ((2 ^ L + 1) * (2 ^ L + 1)) ->
        valid (ext w0) f ((2 ^ L + 1) * (2 ^ L + 1)) ->
        exists w1,
          multigrid_v_cycle L S u f r v w h w0 = Done tt w1
          /\ ext w1 = ext w0
          /\ exists new,
               accesses w1 = accesses w0 ++ new
               /\ Forall (access_ok (ext w0)
                            (fun b => b = blk u \/ b = blk f \/ b = blk r
                                      \/ b = blk v \/ b = blk w)) new)
  /\ (forall S p w0,
        0 < sizeof_T < 2 ^ 32 -> 1 <= p_l p <= L_MAX ->
        valid (ext w0) (p_u p) (level_n (p_l p) * level_n (p_l p)) ->
        valid (ext w0) (p_f p) (level_n (p_l p) * level_n (p_l p)) ->
        (blk (p_u p) < next_block w0)%nat -> (blk (p_f p) < next_block w0)%nat ->
        exists mg w1 w2,
          Multigrid_new S p w0 = Done mg w1
          /\ ext w1 (blk (mg_v mg)) = total_size (p_l p)
          /\ ext w1 (blk (mg_w mg)) = total_size (p_l p)
          /\ ext w1 (blk (mg_r mg)) = level_n (p_l p) * level_n (p_l p)
          /\ Multigrid_call mg p w1 = Done tt w2
          /\ exists new,
               accesses w2 = accesses w1 ++ new
               /\ Forall (access_ok (ext w1)
                            (fun b => b = blk (p_u p) \/ b = blk (p_f p)
                                      \/ b = blk (mg_r mg) \/ b = blk (mg_v mg)
                                      \/ b = blk (mg_w mg))) new).
Proof.
  split; [|split; [|split]].
  - intros L s [-> _]%multigrid_size_Ok. reflexivity.
  - intros L HL. eexists. now apply multigrid_size_run.
  - intros L S u f r v w h w0 s HL [-> Hmax]%multigrid_size_Ok Hv Hvs Hw Hws Hr Hrs Hu Hf.
    fold (level_n L) in *.
    assert (Hbuf : v_cycle_buffers (ext w0) L u f r v w).
    { pose proof (total_size_covers L HL) as Hcov.
      split; [exact Hu|]. split; [exact Hf|]. unfold valid. rewrite Hv, Hvs, Hw, Hws, Hr, Hrs.
      repeat split; lia. }
    destruct (multigrid_v_cycle_run L S u f r v w h w0 ltac:(lia) Hbuf) as [w1 Hrun].
    exists w1. split; [exact Hrun|].
    pose proof (sound_v_cycle (ext w0)
                  (fun b => b = blk u \/ b = blk f \/ b = blk r \/ b = blk v \/ b = blk w)
                  (accesses w0) (Z.to_nat L) L S u f r v w h ltac:(lia)
                  ltac:(cbv beta; auto 10) ltac:(cbv beta; auto 10) ltac:(cbv beta; auto 10)
                  ltac:(cbv beta; auto 10) ltac:(cbv beta; auto 10)
                  w0 (tidy_start w0 _)) as Hsound.
    unfold multigrid_v_cycle in Hrun. rewrite Hrun in Hsound. exact Hsound.
  - intros S p w0 Hsz HL Hu Hf Hub Hfb.
    destruct (Multigrid_new_run S p w0 ltac:(lia)) as (mg & w1 & Hnew).
    pose proof (Multigrid_new_Done S p w0 mg w1 Hsz Hnew)
      as (_ & _ & Hlm & Hv & Hw & Hr & HN & Hve & Hwe & Hre & Hold & _).
    exists mg, w1. 
    assert (Hu1 : valid (ext w1) (p_u p) (level_n (p_l p) * level_n (p_l p))).
    { unfold valid in *. now rewrite Hold. }
    assert (Hf1 : valid (ext w1) (p_f p) (level_n (p_l p) * level_n (p_l p))).
    { unfold valid in *. now rewrite Hold. }
    pose proof (total_size_covers (p_l p) ltac:(lia)) as Hcov.
    destruct (Multigrid_call_run mg p w1) as [w2 Hcall].
    { rewrite HN, Hv. unfold valid. simpl. lia. }
    { rewrite HN, Hw. unfold valid. simpl. lia. }
    { rewrite Hlm. exact HL. }
    { rewrite Hlm, Hv, Hw, Hr. split; [exact Hu1|]. split; [exact Hf1|].
      unfold valid. simpl. repeat split; lia. }
    exists w2. split; [exact Hnew|].
    split; [rewrite Hv; exact Hve|]. split; [rewrite Hw; exact Hwe|].
    split; [rewrite Hr; exact Hre|]. split; [exact Hcall|].
    pose proof (sound_Multigrid_call (ext w1)
                  (fun b => b = blk (p_u p) \/ b = blk (p_f p) \/ b = blk (mg_r mg)
                            \/ b = blk (mg_v mg) \/ b = blk (mg_w mg))
                  (accesses w1) mg p
                  ltac:(cbv beta; auto 10) ltac:(cbv beta; auto 10) ltac:(cbv beta; auto 10)
                  ltac:(cbv beta; auto 10) ltac:(cbv beta; auto 10)
                  w1 (tidy_start w1 _)) as Hsound.
    rewrite Hcall in Hsound. destruct Hsound as [_ Hs]. exact Hs.
Qed.

(** ** The manufactured solution and the error norm *)

(** The value [exact_solution] assigns to the point [(i, j)]. *)
Definition exact_value (n : Z) (h modes : T) (p : Z * Z) : T :=
  let s := (lit 2 * M_PI * modes / (h * lit (inject_Z (n - 1))))%T in
  (sin (s * h * lit (inject_Z p.2)) * sin (s * h * lit (inject_Z p.1)))%T.

Definition exact_mem (v : ptr) (n : Z) (h modes : T) : memory -> memory :=
  fold_wr v n (fun _ p => exact_value n h modes p) (grid 0 n).

Definition exact_acc (v : ptr) (n : Z) : list access :=
  flat_map (fun p => [Store v (idx n p)]) (grid 0 n).

Lemma exact_solution_Done v n h modes w w' :
  exact_solution v n h modes w = Done tt w' ->
  w' = upd_world (exact_mem v n h modes) (exact_acc v n) w.
Proof.
  unfold exact_solution. intros Hrun. run_inv Hrun.
  apply (nest_Done (fun p m => wr m v (idx n p) (exact_value n h modes p))
                   (fun p => [Store v (idx n p)])) in Hrun; [exact Hrun|].
  intros i j w1 w2 Hb. run_inv Hb.
  unfold upd_world, note_access, set_mem, exact_value, idx. simpl.
  replace (j + n * i) with (j + i * n) by lia. reflexivity.
Qed.

Lemma exact_solution_run v n h modes w :
  1 <= n <= N_MAX -> valid (ext w) v (n * n) ->
  exact_solution v n h modes w
  = Done tt (upd_world (exact_mem v n h modes) (exact_acc v n) w).
Proof.
  unfold N_MAX. intros Hn Hv. unfold exact_solution. int_run.
  rewrite (bind_run _ _ _ _ _ (int_run _ _)). cbv beta zeta.
  apply (nest_run (ext w) (fun p m => wr m v (idx n p) (exact_value n h modes p))
                  (fun p => [Store v (idx n p)])); [|reflexivity].
  intros i j w1 Hi Hj Hw1.
  assert (Hni : 0 <= n * i <= 2147349260) by nia.
  int_run. rewrite store_at_run.
  - unfold upd_world, note_access, set_mem, exact_value, idx. simpl.
    replace (j + n * i) with (j + i * n) by lia. reflexivity.
  - eapply in_bounds_valid; [rewrite Hw1; exact Hv|nia].
Qed.

Lemma exact_mem_value v n h modes m i j :
  0 <= i < n -> 0 <= j < n ->
  rd (exact_mem v n h modes m) v (idx n (i, j)) = exact_value n h modes (i, j).
Proof.
  intros Hi Hj. unfold exact_mem.
  assert (Hin : (i, j) ∈ grid 0 n) by (apply elem_of_grid; lia).
  destruct (list_elem_of_split _ _ Hin) as (pre & post & Hsplit).
  pose proof (grid_sorted n 0 n ltac:(lia) ltac:(lia)) as Hs. rewrite Hsplit in Hs.
  rewrite Hsplit.
  apply (fold_wr_sorted v n (fun _ p => exact_value n h modes p) pre (i, j) post m Hs).
Qed.

Lemma exact_mem_frame v n h modes m b a :
  b <> blk v -> exact_mem v n h modes m b a = m b a.
Proof. intros Hb. apply fold_wr_frame. intros p _. now left. Qed.

Definition subtract_mem (dst a b : ptr) (len : Z) : memory -> memory :=
  fold_cells dst (fun m k => (rd m a k - rd m b k)%T) (seqZ 0 len).

Definition subtract_acc (dst a b : ptr) (len : Z) : list access :=
  flat_map (fun k => [Load a k; Load b k; Store dst k]) (seqZ 0 len).

Lemma grid_subtract_Done dst a b n m w w' :
  grid_subtract dst a b n m w = Done tt w' ->
  w' = upd_world (subtract_mem dst a b (n * m)) (subtract_acc dst a b (n * m)) w.
Proof.
  unfold grid_subtract. intros Hrun.
  apply (loop_Done (fun k m => wr m dst k (rd m a k - rd m b k)%T)
                   (fun k => [Load a k; Load b k; Store dst k])) in Hrun.
  - now rewrite Z.sub_0_r in Hrun.
  - intros k w1 w2 (x & w3 & (_ & -> & ->)%load_Done & Hrest)%bind_Done.
    apply bind_Done in Hrest as (y & w4 & (_ & -> & ->)%load_Done & [_ ->]%store_Done).
    unfold upd_world, note_access, set_mem. simpl. now rewrite <- !app_assoc.
Qed.

Lemma grid_subtract_run dst a b n m w :
  valid (ext w) dst (n * m) -> valid (ext w) a (n * m) -> valid (ext w) b (n * m) ->
  grid_subtract dst a b n m w
  = Done tt (upd_world (subtract_mem dst a b (n * m)) (subtract_acc dst a b (n * m)) w).
Proof.
  intros Hd Ha Hb. unfold grid_subtract.
  rewrite (loop_run (ext w) (fun k m => wr m dst k (rd m a k - rd m b k)%T)
                    (fun k => [Load a k; Load b k; Store dst k])).
  - now rewrite Z.sub_0_r.
  - intros k w1 Hk Hw1.
    erewrite bind_run by (apply load_run; eapply in_bounds_valid; [rewrite Hw1; exact Ha|lia]).
    cbv beta.
    erewrite bind_run
      by (apply load_run; eapply in_bounds_valid; [simpl; rewrite Hw1; exact Hb|lia]).
    cbv beta.
    rewrite store_run by (eapply in_bounds_valid; [simpl; rewrite Hw1; exact Hd|lia]).
    unfold upd_world, note_access, set_mem. simpl. now rewrite <- !app_assoc.
  - reflexivity.
Qed.

Lemma subtract_mem_value dst a b len m k :
  separate dst len a len -> separate dst len b len -> 0 <= k < len ->
  rd (subtract_mem dst a b len m) dst k = (rd m a k - rd m b k)%T.
Proof.
  intros Ha Hb Hk. unfold subtract_mem.
  assert (Hin : k ∈ seqZ 0 len) by (apply elem_of_seqZ; lia).
  destruct (list_elem_of_split _ _ Hin) as (pre & post & Hsplit).
  pose proof (NoDup_seqZ 0 len) as Hnd. rewrite Hsplit in Hnd.
  apply NoDup_app in Hnd as (_ & _ & Hnd). apply NoDup_cons in Hnd as [Hnot _].
  assert (Hpre : forall k', k' ∈ pre -> 0 <= k' < len).
  { intros k' Hk'. assert (Hk'' : k' ∈ seqZ 0 len).
    { rewrite Hsplit. apply elem_of_app. now left. }
    apply elem_of_seqZ in Hk''. lia. }
  rewrite Hsplit, fold_cells_value by exact Hnot.
  rewrite !fold_cells_rd_frame; [reflexivity| |].
  - intros k' Hk'. apply (separate_cells dst len b len); [exact Hb|now apply Hpre|exact Hk].
  - intros k' Hk'. apply (separate_cells dst len a len); [exact Ha|now apply Hpre|exact Hk].
Qed.

Lemma subtract_mem_frame dst a b len m blk' a' :
  blk' <> blk dst \/ a' < ofs dst \/ ofs dst + len <= a' ->
  subtract_mem dst a b len m blk' a' = m blk' a'.
Proof.
  intros Hout. apply fold_cells_frame. intros k Hk%elem_of_seqZ.
  destruct Hout as [?|[?|?]]; [now left|right; lia..].
Qed.

Lemma grid_l1norm_Done p n m hx hy w e w' :
  grid_l1norm p n m hx hy w = Done e w' ->
  e = l1norm (field_of (mem w) p (n * m)) hx hy
  /\ w' = upd_world (fun m => m) (map (Load p) (seqZ 0 (n * m))) w.
Proof.
  unfold grid_l1norm.
  intros (cells & w1 & [-> ->]%load_field_Done & [= <- <-])%bind_Done. now split.
Qed.

Lemma grid_l1norm_run p n m hx hy w :
  valid (ext w) p (n * m) ->
  grid_l1norm p n m hx hy w
  = Done (l1norm (field_of (mem w) p (n * m)) hx hy)
         (upd_world (fun m => m) (map (Load p) (seqZ 0 (n * m))) w).
Proof.
  intros Hv. unfold grid_l1norm. erewrite bind_run by (apply load_field_run; exact Hv).
  reflexivity.
Qed.

(** The memory [error()] leaves behind: zero-fill the scratch field [v],
    store the exact solution in it, subtract it from [u] into [r]. *)
Definition error_mem (p : Poisson) (v : ptr) (m : memory) : memory :=
  subtract_mem (p_r p) (p_u p) v (p_n p * p_n p)
    (exact_mem v (p_n p) (p_h p) (p_modes p)
       (zero_fill v (p_num_bytes p / sizeof_T) m)).

(** The solution error [u - exact], cell by cell. *)
Definition error_field (m : memory) (p : Poisson) : list T :=
  map (fun k => (rd m (p_u p) k
                 - exact_value (p_n p) (p_h p) (p_modes p) (point_of (p_n p) k))%T)
      (seqZ 0 (p_n p * p_n p)).

Lemma Poisson_error_Done p w0 e w1 :
  Poisson_error p w0 = Done e w1 ->
  let v := Ptr (next_block w0) 0 in
  mem w1 = error_mem p v (mem w0)
  /\ e = l1norm (field_of (mem w1) (p_r p) (p_n p * p_n p)) (p_h p) (p_h p)
  /\ history w1 = history w0.
Proof.
  unfold Poisson_error. intros Hrun.
  apply bind_Done in Hrun as (v & wa & [= <- <-] & Hrun).
  apply bind_Done in Hrun as ([] & wb & ->%memset_Done & Hrun).
  apply bind_Done in Hrun as ([] & wc & ->%exact_solution_Done & Hrun).
  apply bind_Done in Hrun as ([] & wd & ->%grid_subtract_Done & Hrun).
  apply bind_Done in Hrun as (err & we & [-> ->]%grid_l1norm_Done & Hrun).
  apply bind_Done in Hrun as ([] & wf & [= <-] & [= <- <-]).
  simpl. unfold error_mem. repeat split.
Qed.

Lemma point_of_range n k : 1 <= n -> 0 <= k < n * n ->
  0 <= (point_of n k).1 < n /\ 0 <= (point_of n k).2 < n /\ idx n (point_of n k) = k.
Proof.
  intros Hn Hk. unfold point_of, idx. simpl.
  pose proof (Z.div_mod k n ltac:(lia)) as Hdm.
  pose proof (Z.mod_pos_bound k n ltac:(lia)) as Hm.
  assert (0 <= k / n) by (apply Z.div_pos; lia).
  assert (k / n < n) by (apply Z.div_lt_upper_bound; lia).
  lia.
Qed.

Lemma error_mem_field p b m :
  1 <= p_n p -> blk (p_r p) <> b -> blk (p_u p) <> b ->
  separate (p_r p) (p_n p * p_n p) (p_u p) (p_n p * p_n p) ->
  field_of (error_mem p (Ptr b 0) m) (p_r p) (p_n p * p_n p) = error_field m p.
Proof.
  intros Hn Hr Hu Hsep. unfold field_of, error_field.
  apply map_ext_in. intros k Hk%list_elem_of_In%elem_of_seqZ.
  unfold error_mem. rewrite subtract_mem_value; [|exact Hsep|now left|lia].
  destruct (point_of_range (p_n p) k Hn ltac:(lia)) as (Hi & Hj & Hidx).
  f_equal.
  - unfold rd. rewrite exact_mem_frame by exact Hu.
    apply zero_fill_outside. now left.
  - rewrite <- Hidx at 1. destruct (point_of (p_n p) k) as [i j] eqn:Hp.
    now apply exact_mem_value.
Qed.

Lemma error_mem_frame p v m b a :
  b <> blk v ->
  b <> blk (p_r p) \/ a < ofs (p_r p) \/ ofs (p_r p) + p_n p * p_n p <= a ->
  error_mem p v m b a = m b a.
Proof.
  intros Hv Hr. unfold error_mem.
  rewrite subtract_mem_frame by exact Hr.
  rewrite exact_mem_frame by exact Hv.
  apply zero_fill_outside. now left.
Qed.

Lemma Poisson_error_run p w0 :
  1 <= p_n p <= N_MAX -> p_num_bytes p / sizeof_T = p_n p * p_n p ->
  valid (ext w0) (p_u p) (p_n p * p_n p) -> valid (ext w0) (p_r p) (p_n p * p_n p) ->
  (blk (p_u p) < next_block w0)%nat -> (blk (p_r p) < next_block w0)%nat ->
  exists e w1, Poisson_error p w0 = Done e w1
               /\ ext w1 (blk (p_r p)) = ext w0 (blk (p_r p)).
Proof.
  intros Hn Hbytes Hu Hr Hub Hrb. unfold Poisson_error.
  unfold malloc at 1, bind at 1.
  set (v := Ptr (next_block w0) 0).
  set (wa := World _ _ _ _ _).
  assert (Hva : valid (ext wa) v (p_n p * p_n p)).
  { unfold valid, wa, v. simpl. rewrite Nat.eqb_refl. lia. }
  assert (Hua : valid (ext wa) (p_u p) (p_n p * p_n p)).
  { unfold valid, wa. simpl.
    replace (blk (p_u p) =? next_block w0)%nat with false
      by (symmetry; apply Nat.eqb_neq; lia). exact Hu. }
  assert (Hra : valid (ext wa) (p_r p) (p_n p * p_n p)).
  { unfold valid, wa. simpl.
    replace (blk (p_r p) =? next_block w0)%nat with false
      by (symmetry; apply Nat.eqb_neq; lia). exact Hr. }
  erewrite bind_run by (apply memset_run; rewrite Hbytes; exact Hva). cbv beta.
  erewrite bind_run by (apply exact_solution_run; [exact Hn|exact Hva]). cbv beta.
  erewrite bind_run by (apply grid_subtract_run; [exact Hra|exact Hua|exact Hva]). cbv beta.
  erewrite bind_run by (apply grid_l1norm_run; exact Hra). cbv beta.
  unfold free, bind, ret. eexists _, _. split; [reflexivity|].
  simpl.
  replace (blk (p_r p) =? next_block w0)%nat with false
    by (symmetry; apply Nat.eqb_neq; lia).
  reflexivity.
Qed.

(** *** The constructor *)

(** The value [forcing_function] assigns to the point [(i, j)]. *)
Definition forcing_value (n : Z) (h modes : T) (p : Z * Z) : T :=
  let s := (lit 2 * M_PI * modes / (h * lit (inject_Z (n - 1))))%T in
  (lit (inject_Z (-2)) * s * s
   * sin (s * h * lit (inject_Z p.1)) * sin (s * h * lit (inject_Z p.2)))%T.

Definition forcing_mem (f : ptr) (n : Z) (h modes : T) (m : memory) : memory :=
  fold_wr f n (fun _ p => forcing_value n h modes p) (grid 0 n)
          (zero_fill f (size_t (size_t (n * n) * sizeof_T) / sizeof_T) m).

Definition forcing_acc (f : ptr) (n : Z) : list access :=
  flat_map (fun k => [Store f k]) (seqZ 0 (size_t (size_t (n * n) * sizeof_T) / sizeof_T))
  ++ flat_map (fun p => [Store f (idx n p)]) (grid 0 n).

Lemma forcing_function_Done f n h modes w w' :
  forcing_function f n h modes w = Done tt w' ->
  in_int (n * n) = true
  /\ w' = upd_world (forcing_mem f n h modes) (forcing_acc f n) w.
Proof.
  unfold forcing_function. intros Hrun. run_inv Hrun.
  apply bind_Done in Hrun as ([] & w1 & ->%memset_Done & Hrun).
  apply (nest_Done (fun p m => wr m f (idx n p) (forcing_value n h modes p))
                   (fun p => [Store f (idx n p)])) in Hrun.
  - split; [assumption|]. rewrite Hrun, upd_world_compose. reflexivity.
  - intros i j wa wb Hb. run_inv Hb.
    unfold upd_world, note_access, set_mem, forcing_value, idx. simpl.
    replace (j + n * i) with (j + i * n) by lia. reflexivity.
Qed.

Lemma forcing_function_run f n h modes w :
  1 <= n <= N_MAX -> 0 < sizeof_T < 2 ^ 32 -> valid (ext w) f (n * n) ->
  forcing_function f n h modes w
  = Done tt (upd_world (forcing_mem f n h modes) (forcing_acc f n) w).
Proof.
  unfold N_MAX. intros Hn Hsz Hv. unfold forcing_function.
  assert (Hnn : 1 <= n * n <= 2147395600) by nia.
  int_run. rewrite (bind_run _ _ _ _ _ (int_run _ _)). cbv beta zeta.
  rewrite (bind_run _ _ _ _ _ (int_run _ _)). cbv beta.
  assert (Hbytes : size_t (size_t (n * n) * sizeof_T) / sizeof_T = n * n).
  { rewrite (size_t_small (n * n)) by (unfold SIZE_MOD; lia).
    rewrite size_t_small by (unfold SIZE_MOD; nia). apply Z.div_mul. lia. }
  erewrite bind_run by (apply memset_run; rewrite Hbytes; exact Hv). cbv beta.
  rewrite (nest_run (ext w) (fun p m => wr m f (idx n p) (forcing_value n h modes p))
                    (fun p => [Store f (idx n p)])).
  - rewrite upd_world_compose. reflexivity.
  - intros i j w1 Hi Hj Hw1.
    assert (Hni : 0 <= n * i <= 2147349260) by nia.
    int_run. rewrite store_at_run.
    + unfold upd_world, note_access, set_mem, forcing_value, idx. simpl.
      replace (j + n * i) with (j + i * n) by lia. reflexivity.
    + eapply in_bounds_valid; [rewrite Hw1; exact Hv|nia].
  - reflexivity.
Qed.

(** The world after [malloc(num_bytes)]. *)
Definition alloc (num_bytes : Z) (w : world) : world :=
  World (mem w)
        (fun b' => if (b' =? next_block w)%nat then num_bytes / sizeof_T else ext w b')
        (Datatypes.S (next_block w)) (history w) (accesses w).

Lemma malloc_run num_bytes w :
  malloc num_bytes w = Done (Ptr (next_block w) 0) (alloc num_bytes w).
Proof. reflexivity. Qed.

(** A problem container as its constructor leaves it: the grid is
    addressable, [num_bytes] is the size of [n * n] scalars, and [u], [f]
    and [r] are three allocated fields of [n * n] cells that do not
    overlap. *)
Definition well_formed (p : Poisson) (w : world) : Prop :=
  let nn := p_n p * p_n p in
  1 <= p_n p <= N_MAX
  /\ p_num_bytes p / sizeof_T = nn
  /\ valid (ext w) (p_u p) nn /\ valid (ext w) (p_f p) nn /\ valid (ext w) (p_r p) nn
  /\ (blk (p_u p) < next_block w)%nat /\ (blk (p_f p) < next_block w)%nat
  /\ (blk (p_r p) < next_block w)%nat
  /\ separate (p_r p) nn (p_u p) nn /\ separate (p_r p) nn (p_f p) nn.

Lemma Poisson_bytes n :
  1 <= n <= N_MAX -> 0 < sizeof_T < 2 ^ 32 ->
  size_t (size_t (sizeof_T * size_t n) * size_t n) / sizeof_T = n * n.
Proof.
  unfold N_MAX. intros Hn Hsz.
  rewrite (size_t_small n) by (unfold SIZE_MOD; lia).
  rewrite (size_t_small (sizeof_T * n)) by (unfold SIZE_MOD; nia).
  rewrite size_t_small by (unfold SIZE_MOD; nia).
  replace (sizeof_T * n * n) with (n * n * sizeof_T) by lia.
  apply Z.div_mul. lia.
Qed.

Lemma Poisson_new_Done l h modes w p w' :
  0 < sizeof_T < 2 ^ 32 ->
  Poisson_new l h modes w = Done p w' ->
  p_l p = l /\ p_n p = 2 ^ l + 1 /\ p_h p = h /\ p_modes p = modes
  /\ well_formed p w'.
Proof.
  intros Hsz. unfold Poisson_new. intros Hrun.
  apply bind_Done in Hrun as (n & wa & [Hn ->]%int_Done & Hrun).
  int_inv Hn. rewrite Z.mul_1_l in *. cbv zeta in Hrun.
  apply bind_Done in Hrun as (u & wb & [= <- <-] & Hrun).
  apply bind_Done in Hrun as (f & wc & [= <- <-] & Hrun).
  apply bind_Done in Hrun as (r & wd & [= <- <-] & Hrun).
  apply bind_Done in Hrun as ([] & we & ->%memset_Done & Hrun).
  apply bind_Done in Hrun as ([] & wf & ->%memset_Done & Hrun).
  apply bind_Done in Hrun as ([] & wg & ->%memset_Done & Hrun).
  apply bind_Done in Hrun as ([] & wh & [Hnn ->]%forcing_function_Done & [= <- <-]).
  apply in_int_true in Hnn. unfold INT_MIN, INT_MAX in Hnn.
  assert (Hpow : 0 < 2 ^ l) by (apply Z.pow_pos_nonneg; lia).
  assert (HN : 1 <= 2 ^ l + 1 <= N_MAX) by (unfold N_MAX; nia).
  pose proof (Poisson_bytes _ HN Hsz) as Hbytes.
  split; [reflexivity|]. split; [reflexivity|]. split; [reflexivity|].
  split; [reflexivity|].
  unfold well_formed, valid, separate. simpl. rewrite Hbytes.
  rewrite !Nat.eqb_refl.
  replace (next_block w =? Datatypes.S (next_block w))%nat with false
    by (symmetry; apply Nat.eqb_neq; lia).
  replace (next_block w =? Datatypes.S (Datatypes.S (next_block w)))%nat with false
    by (symmetry; apply Nat.eqb_neq; lia).
  replace (Datatypes.S (next_block w) =? Datatypes.S (Datatypes.S (next_block w)))%nat
    with false by (symmetry; apply Nat.eqb_neq; lia).
  repeat split; try lia; left; lia.
Qed.

Lemma Poisson_new_run l h modes w :
  0 <= l <= L_MAX -> 0 < sizeof_T < 2 ^ 32 ->
  exists p w', Poisson_new l h modes w = Done p w'.
Proof.
  intros Hl Hsz. unfold Poisson_new.
  pose proof (level_n_bound _ Hl) as Hnb. unfold level_n in Hnb. unfold L_MAX in Hl.
  assert (HN : 1 <= 2 ^ l + 1 <= N_MAX) by (unfold N_MAX; lia).
  pose proof (Poisson_bytes _ HN Hsz) as Hbytes.
  rewrite (ishl_run 1 l) by (lia || int_ok). rewrite Z.mul_1_l. int_run.
  rewrite (bind_run _ _ _ _ _ (int_run _ _)). cbv beta zeta.
  set (n := 2 ^ l + 1) in *.
  set (bytes := size_t (size_t (sizeof_T * size_t n) * size_t n)) in *.
  rewrite (bind_run _ _ _ _ _ (malloc_run bytes w)). cbv beta.
  rewrite (bind_run _ _ _ _ _ (malloc_run bytes _)). cbv beta.
  rewrite (bind_run _ _ _ _ _ (malloc_run bytes _)). cbv beta.
  cbn [next_block alloc].
  set (b := next_block w).
  set (wd := alloc bytes (alloc bytes (alloc bytes w))).
  assert (Hext : ext wd b = n * n /\ ext wd (Datatypes.S b) = n * n
                 /\ ext wd (Datatypes.S (Datatypes.S b)) = n * n).
  { unfold wd, alloc. cbn [ext next_block]. fold b. rewrite Hbytes.
    repeat match goal with
           | |- context [(?x =? ?y)%nat] => destruct (Nat.eqb_spec x y)
           end; try lia; repeat split; reflexivity. }
  destruct Hext as (Hext0 & Hext1 & Hext2).
  assert (Hu : valid (ext wd) (Ptr b 0) (n * n)).
  { unfold valid. cbn [blk ofs]. rewrite Hext0. lia. }
  assert (Hf : valid (ext wd) (Ptr (Datatypes.S b) 0) (n * n)).
  { unfold valid. cbn [blk ofs]. rewrite Hext1. lia. }
  assert (Hr : valid (ext wd) (Ptr (Datatypes.S (Datatypes.S b)) 0) (n * n)).
  { unfold valid. cbn [blk ofs]. rewrite Hext2. lia. }
  erewrite bind_run by (apply memset_run; rewrite Hbytes; exact Hu). cbv beta.
  erewrite bind_run by (apply memset_run; rewrite Hbytes; exact Hf). cbv beta.
  erewrite bind_run by (apply memset_run; rewrite Hbytes; exact Hr). cbv beta.
  erewrite bind_run by (apply forcing_function_run; [exact HN|exact Hsz|exact Hf]).
  cbv beta. unfold ret. eexists _, _. reflexivity.
Qed.

(** C10: on a problem container as its constructor leaves it,
    [Poisson::error()] leaves in the residual field [r] the difference of
    [u] and the manufactured exact solution, cell by cell, and changes no
    other cell of the memory that was allocated before the call, so [u]
    and [f] are as they were; it returns the area-weighted L1 norm of that
    difference.  A [norm()] on a memory whose field [r] is still as
    [error()] left it returns the same number: the norm of the solution
    error.  [grid_subtract] and [grid_l1norm] are modelled as the
    elementwise difference and the weighted sum of absolute values. *)
Theorem error_overwrites_residual_field p w0 :
  (forall e w1,
     Poisson_error p w0 = Done e w1 ->
     well_formed p w0 ->
     (forall i j, 0 <= i < p_n p -> 0 <= j < p_n p ->
        rd (mem w1) (p_r p) (j + i * p_n p)
        = (rd (mem w0) (p_u p) (j + i * p_n p)
           - exact_value (p_n p) (p_h p) (p_modes p) (i, j))%T)
     /\ field_of (mem w1) (p_r p) (p_n p * p_n p) = error_field (mem w0) p
     /\ (forall k, 0 <= k < p_n p * p_n p ->
           rd (mem w1) (p_u p) k = rd (mem w0) (p_u p) k
           /\ rd (mem w1) (p_f p) k = rd (mem w0) (p_f p) k)
     /\ (forall b a, (b < next_block w0)%nat ->
           b <> blk (p_r p) \/ a < ofs (p_r p) \/ ofs (p_r p) + p_n p * p_n p <= a ->
           mem w1 b a = mem w0 b a)
     /\ e = l1norm (error_field (mem w0) p) (p_h p) (p_h p)
     /\ forall w2 e' w3,
          (forall k, 0 <= k < p_n p * p_n p ->
             rd (mem w2) (p_r p) k = rd (mem w1) (p_r p) k) ->
          Poisson_norm p w2 = Done e' w3 ->
          e' = l1norm (error_field (mem w0) p) (p_h p) (p_h p))
  /\ (well_formed p w0 ->
      exists e w1, Poisson_error p w0 = Done e w1
                   /\ exists e' w2, Poisson_norm p w1 = Done e' w2)
  /\ (forall l h modes w,
        0 < sizeof_T < 2 ^ 32 ->
        Poisson_new l h modes w = Done p w0 -> well_formed p w0)
  /\ (forall l h modes w,
        0 <= l <= L_MAX -> 0 < sizeof_T < 2 ^ 32 ->
        exists p' w', Poisson_new l h modes w = Done p' w').
Proof.
  split; [|split; [|split]].
  - intros e w1 Hrun (Hn & _ & _ & _ & _ & Hub & Hfb & Hrb & Hru & Hrf).
    cbv zeta in *.
    apply Poisson_error_Done in Hrun as (Hmem & He & _). cbv zeta in Hmem.
    assert (Hfield : field_of (mem w1) (p_r p) (p_n p * p_n p) = error_field (mem w0) p).
    { rewrite Hmem. apply error_mem_field; [lia|lia|lia|exact Hru]. }
    assert (Hframe : forall b a, (b < next_block w0)%nat ->
              b <> blk (p_r p) \/ a < ofs (p_r p) \/ ofs (p_r p) + p_n p * p_n p <= a ->
              mem w1 b a = mem w0 b a).
    { intros b a Hb Hout. rewrite Hmem. apply error_mem_frame; [simpl; lia|exact Hout]. }
    split; [|split; [exact Hfield|split; [|split; [exact Hframe|split]]]].
    + intros i j Hi Hj.
      assert (Hk : 0 <= j + i * p_n p < p_n p * p_n p) by nia.
      apply (f_equal (fun xs => xs !! Z.to_nat (j + i * p_n p))) in Hfield.
      unfold field_of, error_field in Hfield. rewrite !list_lookup_fmap in Hfield.
      rewrite (lookup_seqZ_lt 0 (p_n p * p_n p)) in Hfield by lia.
      simpl in Hfield. injection Hfield as Hfield.
      rewrite Z2Nat.id, Z.add_0_l in Hfield by lia. rewrite Hfield.
      f_equal. f_equal. apply (point_of_idx (p_n p) i j). lia.
    + intros k Hk. split; apply Hframe; try lia.
      * destruct Hru as [?|[?|?]]; [left; congruence|right; lia..].
      * destruct Hrf as [?|[?|?]]; [left; congruence|right; lia..].
    + rewrite He, Hfield. reflexivity.
    + intros w2 e' w3 Hsame [-> _]%grid_l1norm_Done.
      rewrite <- Hfield. f_equal. unfold field_of. apply map_ext_in.
      intros k Hk%list_elem_of_In%elem_of_seqZ. apply Hsame. lia.
  - intros (Hn & Hbytes & Hu & _ & Hr & Hub & _ & Hrb & _). cbv zeta in *.
    destruct (Poisson_error_run p w0 Hn Hbytes Hu Hr Hub Hrb) as (e & w1 & Hrun & Hext).
    exists e, w1. split; [exact Hrun|].
    unfold Poisson_norm. eexists _, _. apply grid_l1norm_run.
    unfold valid. rewrite Hext. exact Hr.
  - intros l h modes w Hsz Hnew. now apply Poisson_new_Done in Hnew.
  - intros l h modes w Hl Hsz. now apply Poisson_new_run.
Qed.

(** * Further properties of the operators *)

(** ** What the residual operator computes *)

Lemma residual_sweep_value r u f n h m i j :
  separate r (n * n) u (n * n) -> separate r (n * n) f (n * n) ->
  1 <= i <= n - 2 -> 1 <= j <= n - 2 ->
  rd (residual_sweep r u f n h m) r (j + i * n)
  = residual_at m u f n (lit 1 / (h * h))%T (i, j).
Proof.
  intros Hu Hf Hi Hj.
  assert (Hin : (i, j) ∈ interior n) by (apply elem_of_interior; lia).
  destruct (list_elem_of_split _ _ Hin) as (pre & post & Hsplit).
  pose proof (interior_sorted n) as Hs. rewrite Hsplit in Hs.
  rewrite residual_sweep_fold_wr, Hsplit.
  destruct (fold_wr_sorted r n (fun m p => residual_at m u f n (lit 1 / (h * h))%T p)
              pre (i, j) post m Hs) as (Hval & _ & _).
  unfold idx in Hval at 1. simpl in Hval. rewrite Hval.
  assert (Hpre : forall p, p ∈ pre -> 0 <= idx n p < n * n).
  { intros p Hp. assert (Hp' : p ∈ interior n).
    { rewrite Hsplit. apply elem_of_app. now left. }
    apply interior_range in Hp'. nia. }
  assert (Hframe : forall q k, separate r (n * n) q (n * n) -> 0 <= k < n * n ->
            rd (fold_wr r n (fun m p => residual_at m u f n (lit 1 / (h * h))%T p) pre m)
               q k = rd m q k).
  { intros q k Hq Hk. apply fold_wr_rd_frame. intros p Hp.
    eapply separate_cells; [exact Hq|now apply Hpre|exact Hk]. }
  unfold residual_at. rewrite !Hframe by (assumption || nia). reflexivity.
Qed.

(** X1: when the field [r] overlaps neither [u] nor [f], a completed
    [poisson_residual r u f n h] leaves at every interior point
    [r[i,j] = f[i,j] - (u[i,j+1] + u[i,j-1] - 4 u[i,j] + u[i+1,j] + u[i-1,j]) * (1 / (h * h))],
    every value on the right read from the memory before the call.  The
    call completes when the grid is addressable and the three fields hold
    [n * n] cells. *)
Theorem poisson_residual_value r u f n h w :
  separate r (n * n) u (n * n) -> separate r (n * n) f (n * n) ->
  (forall w',
     poisson_residual r u f n h w = Done tt w' ->
     forall i j, 1 <= i <= n - 2 -> 1 <= j <= n - 2 ->
       rd (mem w') r (j + i * n)
       = (rd (mem w) f (j + i * n)
          - (rd (mem w) u (j + 1 + i * n) + rd (mem w) u (j - 1 + i * n)
             + - lit 4 * rd (mem w) u (j + i * n)
             + rd (mem w) u (j + (i + 1) * n) + rd (mem w) u (j + (i - 1) * n))
            * (lit 1 / (h * h)))%T)
  /\ (1 <= n <= N_MAX ->
      valid (ext w) r (n * n) -> valid (ext w) u (n * n) -> valid (ext w) f (n * n) ->
      exists w', poisson_residual r u f n h w = Done tt w').
Proof.
  intros Hu Hf. split.
  - intros w' ->%poisson_residual_Done i j Hi Hj. simpl.
    now rewrite residual_sweep_value.
  - intros Hn Hvr Hvu Hvf. eexists. now apply poisson_residual_run.
Qed.

(** ** Grids without interior points *)

Lemma interior_nil n : n <= 2 -> interior n = [].
Proof. intros Hn. unfold interior. now rewrite seqZ_nil by lia. Qed.

Lemma color_points_nil color n : n <= 2 -> color_points color n = [].
Proof. intros Hn. unfold color_points. now rewrite interior_nil. Qed.

Lemma nest_nil lo hi (body : Z -> Z -> M unit) w :
  hi <= lo -> for_range lo hi (fun i => for_range lo hi (fun j => body i j)) w = Done tt w.
Proof. intros Hle. now rewrite for_range_nil. Qed.

Lemma gauss_seidel_small u f n h w :
  INT_MIN < n <= 2 ->
  gauss_seidel u f n h w = Done tt (note_call (call_gauss_seidel u f n h) w).
Proof.
  unfold INT_MIN. intros Hn. unfold gauss_seidel. rewrite enter_run. int_run.
  rewrite (bind_run _ _ _ _ _ (int_run _ _)). apply nest_nil. lia.
Qed.

Lemma color_pass_small color u f n h w :
  INT_MIN < n <= 2 -> color_pass color u f n h w = Done tt w.
Proof.
  unfold INT_MIN. intros Hn. unfold color_pass. int_run.
  rewrite (bind_run _ _ _ _ _ (int_run _ _)). apply nest_nil. lia.
Qed.

Lemma gauss_seidel_red_black_small u f n h w :
  INT_MIN < n <= 2 ->
  gauss_seidel_red_black u f n h w
  = Done tt (note_call (call_gauss_seidel_red_black u f n h) w).
Proof.
  intros Hn. unfold gauss_seidel_red_black. rewrite enter_run.
  rewrite (bind_run _ _ _ _ _ (color_pass_small 0 u f n h _ Hn)).
  now apply color_pass_small.
Qed.

Lemma poisson_residual_small r u f n h w :
  INT_MIN < n <= 2 ->
  poisson_residual r u f n h w
  = Done tt (note_call (call_poisson_residual r u f n h) w).
Proof.
  unfold INT_MIN. intros Hn. unfold poisson_residual. rewrite enter_run. cbv zeta.
  int_run. rewrite (bind_run _ _ _ _ _ (int_run _ _)). apply nest_nil. lia.
Qed.

(** X2: on a grid without interior points ([n <= 2], down to any negative
    [n] above [INT_MIN]) the two smoothers and the residual operator return
    at once: they make no load and no store, whatever the pointers are,
    and leave the memory as it is. *)
Theorem operators_without_interior u f r n h w :
  INT_MIN < n <= 2 ->
  gauss_seidel u f n h w = Done tt (note_call (call_gauss_seidel u f n h) w)
  /\ gauss_seidel_red_black u f n h w
     = Done tt (note_call (call_gauss_seidel_red_black u f n h) w)
  /\ poisson_residual r u f n h w
     = Done tt (note_call (call_poisson_residual r u f n h) w)
  /\ forall S w',
       smooth S u f n h w = Done tt w' \/ poisson_residual r u f n h w = Done tt w' ->
       mem w' = mem w /\ accesses w' = accesses w /\ ext w' = ext w.
Proof.
  intros Hn.
  pose proof (gauss_seidel_small u f n h w Hn) as Hgs.
  pose proof (gauss_seidel_red_black_small u f n h w Hn) as Hrb.
  pose proof (poisson_residual_small r u f n h w Hn) as Hres.
  split; [exact Hgs|]. split; [exact Hrb|]. split; [exact Hres|].
  intros S w' [Hrun|Hrun].
  - destruct S; simpl in Hrun; rewrite ?Hgs, ?Hrb in Hrun; injection Hrun as <-;
      repeat split.
  - rewrite Hres in Hrun. injection Hrun as <-. repeat split.
Qed.

(** ** The largest grid *)

(** Every iteration of a completed loop has run. *)
Lemma for_range_visits lo hi (body : Z -> M unit) w w' i :
  for_range lo hi body w = Done tt w' -> lo <= i < hi ->
  exists w1 w2, body i w1 = Done tt w2.
Proof.
  intros Hrun Hi. unfold for_range in Hrun.
  assert (Hin : i ∈ seqZ lo (hi - lo)) by (apply elem_of_seqZ; lia).
  revert w Hrun. induction (seqZ lo (hi - lo)) as [|k l IH]; intros w Hrun.
  - now apply elem_of_nil in Hin.
  - simpl in Hrun. apply bind_Done in Hrun as ([] & w1 & Hb & Hrest).
    apply elem_of_cons in Hin as [->|Hin]; [eauto|]. now apply (IH Hin w1).
Qed.

Lemma nest_visits lo hi (body : Z -> Z -> M unit) w w' i j :
  for_range lo hi (fun i => for_range lo hi (fun j => body i j)) w = Done tt w' ->
  lo <= i < hi -> lo <= j < hi ->
  exists w1 w2, body i j w1 = Done tt w2.
Proof.
  intros Hrun Hi Hj.
  destruct (for_range_visits _ _ _ _ _ i Hrun Hi) as (w1 & w2 & Hrow).
  apply (for_range_visits _ _ _ _ _ j Hrow Hj).
Qed.

(** The update of a point computes the index of its southern neighbour. *)
Lemma gs_update_int u f n h i j w w' :
  gs_update u f n h i j w = Done tt w' -> in_int (j + (i + 1) * n) = true.
Proof. unfold gs_update. intros Hrun. run_inv Hrun. assumption. Qed.

Lemma residual_update_int r u f n hi2 i j w w' :
  residual_update r u f n hi2 i j w = Done tt w' -> in_int (j + (i + 1) * n) = true.
Proof. unfold residual_update. intros Hrun. run_inv Hrun. assumption. Qed.

Lemma last_index_int n : 3 <= n -> in_int (n - 2 + (n - 2 + 1) * n) = true -> n <= N_MAX.
Proof. intros Hn [_ Hmax]%in_int_true. unfold INT_MAX, N_MAX in *. nia. Qed.

Lemma gauss_seidel_limit u f n h w w' :
  gauss_seidel u f n h w = Done tt w' -> n <= N_MAX.
Proof.
  destruct (Z_le_gt_dec n 2) as [Hsmall|Hbig]; [unfold N_MAX; lia|].
  unfold gauss_seidel. intros (a & w1 & [= <-] & Hrun)%bind_Done. run_inv Hrun.
  destruct (nest_visits _ _ _ _ _ (n - 2) (n - 2) Hrun) as (w1 & w2 & Hb); [lia..|].
  apply gs_update_int in Hb. apply last_index_int; [lia|exact Hb].
Qed.

Lemma color_pass_limit u f n h w w' :
  color_pass 0 u f n h w = Done tt w' -> n <= N_MAX.
Proof.
  destruct (Z_le_gt_dec n 2) as [Hsmall|Hbig]; [unfold N_MAX; lia|].
  unfold color_pass. intros Hrun. run_inv Hrun.
  destruct (nest_visits _ _ _ _ _ (n - 2) (n - 2) Hrun) as (w1 & w2 & Hb); [lia..|].
  unfold rb_update in Hb. run_inv Hb.
  replace (Z.rem (n - 2 + (n - 2)) 2 =? 0) with true in Hb.
  - apply gs_update_int in Hb. apply last_index_int; [lia|exact Hb].
  - symmetry. apply Z.eqb_eq. rewrite Z.rem_mod_nonneg by lia.
    replace (n - 2 + (n - 2)) with ((n - 2) * 2) by lia. apply Z.mod_mul. lia.
Qed.

Lemma smooth_limit S u f n h w w' : smooth S u f n h w = Done tt w' -> n <= N_MAX.
Proof.
  destruct S; simpl; [apply gauss_seidel_limit|].
  unfold gauss_seidel_red_black.
  intros (a & w1 & _ & (a' & w2 & Hred & _)%bind_Done)%bind_Done.
  destruct a'. now apply color_pass_limit in Hred.
Qed.

Lemma poisson_residual_limit r u f n h w w' :
  poisson_residual r u f n h w = Done tt w' -> n <= N_MAX.
Proof.
  destruct (Z_le_gt_dec n 2) as [Hsmall|Hbig]; [unfold N_MAX; lia|].
  unfold poisson_residual. intros (a & w1 & [= <-] & Hrun)%bind_Done. run_inv Hrun.
  destruct (nest_visits _ _ _ _ _ (n - 2) (n - 2) Hrun) as (w1 & w2 & Hb); [lia..|].
  apply residual_update_int in Hb. apply last_index_int; [lia|exact Hb].
Qed.

(** X3: the grid indices are [int]s, and the largest index the operators
    compute is [n * n - 2]: a smoother or the residual operator completes
    only for [n <= 46340], whatever the buffers are, and for every such [n]
    above [INT_MIN] it does complete on fields of [n * n] cells.  For a
    larger [n] the run ends in a fault (signed overflow, or an access
    outside a block). *)
Theorem operators_grid_limit u f r n h w :
  (forall S w', smooth S u f n h w = Done tt w' -> n <= 46340)
  /\ (forall w', poisson_residual r u f n h w = Done tt w' -> n <= 46340)
  /\ (46340 < n -> forall S,
        (exists e, smooth S u f n h w = Fault e)
        /\ exists e, poisson_residual r u f n h w = Fault e)
  /\ (INT_MIN < n <= 46340 ->
      valid (ext w) u (n * n) -> valid (ext w) f (n * n) ->
      (forall S, exists w', smooth S u f n h w = Done tt w')
      /\ (valid (ext w) r (n * n) ->
          exists w', poisson_residual r u f n h w = Done tt w')).
Proof.
  change 46340 with N_MAX. split; [|split; [|split]].
  - intros S w'. apply smooth_limit.
  - intros w'. apply poisson_residual_limit.
  - intros Hn S. split.
    + destruct (smooth S u f n h w) as [[] w'|e] eqn:Hrun; [|eauto].
      apply smooth_limit in Hrun. lia.
    + destruct (poisson_residual r u f n h w) as [[] w'|e] eqn:Hrun; [|eauto].
      apply poisson_residual_limit in Hrun. lia.
  - intros Hn Hu Hf.
    destruct (Z_le_gt_dec n 0) as [Hsmall|Hpos].
    + assert (Hint : INT_MIN < n <= 2) by lia. split.
      * intros S. destruct S; simpl; eexists;
          [now apply gauss_seidel_small|now apply gauss_seidel_red_black_small].
      * intros _. eexists. now apply poisson_residual_small.
    + split.
      * intros S. eexists. apply smooth_run; [lia|exact Hu|exact Hf].
      * intros Hr. eexists. apply poisson_residual_run; [lia|exact Hr|exact Hu|exact Hf].
Qed.

(** ** The range of levels *)

Lemma foldl_size_step_Err e l : foldl size_step (Err e) l = Err e.
Proof. induction l as [|i l IH]; [reflexivity|exact IH]. Qed.

Lemma size_step_16 s : size_step (Ok s) 16 = Err SignedOverflow.
Proof. reflexivity. Qed.

(** X4: [multigrid_size(L)] is defined exactly for [L <= 15]: it is 0 for
    a negative [L], and from [L = 16] on the product [n * n] with
    [n = 2^16 + 1] is not an [int], so the computation is a signed
    overflow at [i = 16] whatever [L] is. *)
Theorem multigrid_size_range :
  (forall L, L < 0 -> multigrid_size L = Ok 0)
  /\ (forall L s, multigrid_size L = Ok s -> L <= 15)
  /\ (forall L, L <= 15 -> exists s, multigrid_size L = Ok s)
  /\ (forall L, 15 < L -> multigrid_size L = Err SignedOverflow).
Proof.
  split; [|split; [|split]].
  - intros L HL. rewrite multigrid_size_fold. now rewrite seqZ_nil by lia.
  - intros L s [_ HL]%multigrid_size_Ok. exact HL.
  - intros L HL. eexists. now apply multigrid_size_run.
  - intros L HL. rewrite multigrid_size_fold.
    replace (L + 1) with (16 + (L - 15)) by lia.
    rewrite seqZ_app by lia. rewrite foldl_app.
    change (foldl size_step (Ok 0) (seqZ 0 16))
      with (foldl size_step (Ok 0) (seqZ 0 (Z.of_nat 16))).
    rewrite size_loop_run by (unfold L_MAX; lia).
    rewrite seqZ_cons by lia. cbn [foldl]. rewrite Z.add_0_l, size_step_16.
    apply foldl_size_step_Err.
Qed.

Lemma level_n_limit l : level_n l <= N_MAX -> l <= L_MAX.
Proof.
  unfold N_MAX, L_MAX. intros Hn.
  destruct (Z_le_gt_dec l 15) as [|Hgt]; [assumption|exfalso].
  pose proof (level_n_mono 16 l ltac:(lia)) as Hmono.
  change (level_n 16) with 65537 in Hmono. lia.
Qed.

Lemma v_cycle_level_limit fuel l S u f r v w h w0 w1 :
  v_cycle fuel l S u f r v w h w0 = Done tt w1 -> 1 <= l <= L_MAX.
Proof.
  intros Hrun. pose proof (v_cycle_Done _ _ _ _ _ _ _ _ _ _ _ Hrun) as [Hl _].
  split; [exact Hl|].
  destruct (Z.eq_dec l 1) as [->|Hl1]; [unfold L_MAX; lia|].
  destruct fuel as [|fuel].
  - rewrite v_cycle_unfold in Hrun.
    apply bind_Done in Hrun as (x & wa & _ & Hrun).
    destruct (Z.eqb_spec l 1) as [?|_]; [contradiction|].
    run_inv Hrun. unfold fail in Hrun.
    apply bind_Done in Hrun as (? & ? & _ & Hrun).
    apply bind_Done in Hrun as (? & ? & _ & Hrun).
    apply bind_Done in Hrun as (? & ? & _ & Hrun).
    run_inv Hrun. apply bind_Done in Hrun as (? & ? & Hrun & _). discriminate Hrun.
  - apply v_cycle_steps in Hrun as (wa & _ & _ & _ & _ & _ & Hsm & _); [|exact Hl1].
    apply smooth_limit in Hsm. now apply level_n_limit.
Qed.

(** X5: a call [multigrid_v_cycle(l, ...)] completes only for
    [1 <= l <= 15].  For [l <= 0] the level never reaches the base case:
    the first shift [1 << l] or [1 << (l - 1)] has a negative count, which
    is a fault before any memory access.  For [l >= 16] the grid of the
    finest level cannot be indexed with [int]. *)
Theorem v_cycle_level_range l S u f r v w h w0 :
  (l <= 0 -> multigrid_v_cycle l S u f r v w h w0 = Fault InvalidShift)
  /\ (forall w1, multigrid_v_cycle l S u f r v w h w0 = Done tt w1 -> 1 <= l <= 15)
  /\ (15 < l -> exists e, multigrid_v_cycle l S u f r v w h w0 = Fault e).
Proof.
  split; [|split].
  - intros Hl. unfold multigrid_v_cycle.
    replace (Z.to_nat l) with O by lia. rewrite v_cycle_unfold, enter_run.
    destruct (Z.eqb_spec l 1) as [?|_]; [lia|].
    destruct (Z.eq_dec l 0) as [->|Hneg]; [reflexivity|].
    unfold bind at 1, int at 1, iadd at 1, ishl, of_int. cbn [rbind].
    replace (0 <=? l) with false by (symmetry; apply Z.leb_gt; lia).
    reflexivity.
  - intros w1 Hrun. apply v_cycle_level_limit in Hrun. exact Hrun.
  - intros Hl. destruct (multigrid_v_cycle l S u f r v w h w0) as [[] w1|e] eqn:Hrun;
      [|eauto].
    apply v_cycle_level_limit in Hrun. unfold L_MAX in Hrun. lia.
Qed.

(** ** What a run leaves alone *)

Section Quiet.

(** The blocks [W] a run may write to. *)
Variable W : nat -> Prop.

(** A completed run of [m] changes no cell outside the blocks of [W] and
    neither allocates nor frees. *)
Definition quiet {A} (m : M A) : Prop :=
  forall w a w', m w = Done a w' ->
    (forall b c, ~ W b -> mem w' b c = mem w b c)
    /\ ext w' = ext w /\ next_block w' = next_block w.

Lemma quiet_ret {A} (a : A) : quiet (ret a).
Proof. intros w a' w' [= _ <-]. auto. Qed.

Lemma quiet_bind {A A'} (m : M A) (k : A -> M A') :
  quiet m -> (forall a, quiet (k a)) -> quiet (bind m k).
Proof.
  intros Hm Hk w a' w' (a & w1 & H1 & H2)%bind_Done.
  destruct (Hm _ _ _ H1) as (Hmem1 & Hext1 & Hnb1).
  destruct (Hk _ _ _ _ H2) as (Hmem2 & Hext2 & Hnb2).
  split; [|split; congruence].
  intros b c Hb. rewrite Hmem2, Hmem1 by exact Hb. reflexivity.
Qed.

Lemma quiet_int {A} (r : result A) : quiet (int r).
Proof. intros w a w' [_ ->]%int_Done. auto. Qed.

Lemma quiet_fail {A} e : quiet (@fail A e).
Proof. intros w a w' [=]. Qed.

Lemma quiet_enter c : quiet (enter c).
Proof. intros w a w' ->%enter_Done. auto. Qed.

Lemma quiet_load p k : quiet (load p k).
Proof. intros w a w' (_ & _ & ->)%load_Done. auto. Qed.

Lemma quiet_store p k x : W (blk p) -> quiet (store p k x).
Proof.
  intros Hp w [] w' (_ & ->)%store_Done. simpl. split; [|auto].
  intros b c Hb. apply wr_other. left. intros ->. contradiction.
Qed.

Lemma quiet_load_at p e : quiet (load_at p e).
Proof. apply quiet_bind; [apply quiet_int|intros k; apply quiet_load]. Qed.

Lemma quiet_store_at p e x : W (blk p) -> quiet (store_at p e x).
Proof. intros Hp. apply quiet_bind; [apply quiet_int|intros k; now apply quiet_store]. Qed.

Lemma quiet_for_range lo hi (body : Z -> M unit) :
  (forall i, quiet (body i)) -> quiet (for_range lo hi body).
Proof.
  intros Hbody. unfold for_range.
  induction (seqZ lo (hi - lo)) as [|i l IH]; simpl.
  - apply quiet_ret.
  - apply quiet_bind; [apply Hbody|]. intros _. exact IH.
Qed.

Lemma quiet_load_field p len : quiet (load_field p len).
Proof.
  unfold load_field. induction (seqZ 0 len) as [|k l IH]; simpl.
  - apply quiet_ret.
  - apply quiet_bind; [apply quiet_load|]. intros x.
    apply quiet_bind; [exact IH|]. intros xs. apply quiet_ret.
Qed.

Ltac quiet_step :=
  lazymatch goal with
  | |- quiet (ret _) => apply quiet_ret
  | |- quiet (enter _) => apply quiet_enter
  | |- quiet (load_at _ _) => apply quiet_load_at
  | |- quiet (store_at _ _ _) => apply quiet_store_at; assumption
  | |- quiet (load _ _) => apply quiet_load
  | |- quiet (store _ _ _) => apply quiet_store; assumption
  | |- quiet (load_field _ _) => apply quiet_load_field
  | |- quiet (int _) => apply quiet_int
  | |- quiet (for_range _ _ _) => apply quiet_for_range; intros ?
  | |- quiet (bind _ _) => apply quiet_bind; [|intros ?]
  | |- quiet (if ?c then _ else _) => destruct c
  end.

Ltac quiet := repeat quiet_step.

Lemma quiet_gs_update u f n h i j : W (blk u) -> quiet (gs_update u f n h i j).
Proof. intros Hu. unfold gs_update. quiet. Qed.

Lemma quiet_smooth S u f n h : W (blk u) -> quiet (smooth S u f n h).
Proof.
  intros Hu. destruct S; simpl.
  - unfold gauss_seidel. quiet. now apply quiet_gs_update.
  - unfold gauss_seidel_red_black, color_pass, rb_update. quiet;
      now apply quiet_gs_update.
Qed.

Lemma quiet_poisson_residual r u f n h : W (blk r) -> quiet (poisson_residual r u f n h).
Proof. intros Hr. unfold poisson_residual, residual_update. cbv zeta. quiet. Qed.

Lemma quiet_grid_restrict dst dn dm src sn sm a b :
  W (blk dst) -> quiet (grid_restrict dst dn dm src sn sm a b).
Proof. intros Hd. unfold grid_restrict. quiet. Qed.

Lemma quiet_grid_prolongate dst dn dm src sn sm a b :
  W (blk dst) -> quiet (grid_prolongate dst dn dm src sn sm a b).
Proof. intros Hd. unfold grid_prolongate. quiet. Qed.

Lemma quiet_base_case u f h : W (blk u) -> quiet (base_case u f h).
Proof. intros Hu. unfold base_case. quiet. Qed.

Lemma quiet_memset p num_bytes : W (blk p) -> quiet (memset p num_bytes).
Proof. intros Hp. unfold memset. quiet. Qed.

Lemma quiet_v_cycle fuel :
  forall l S u f r v w h,
    W (blk u) -> W (blk r) -> W (blk v) -> W (blk w) ->
    quiet (v_cycle fuel l S u f r v w h).
Proof.
  induction fuel as [|fuel IH]; intros l S u f r v w h Hu Hr Hv Hw;
    rewrite v_cycle_unfold;
    (apply quiet_bind; [apply quiet_enter|intros _]);
    destruct (l =? 1).
  - apply quiet_bind; [now apply quiet_base_case|intros _; apply quiet_enter].
  - cbv zeta. repeat (apply quiet_bind; [apply quiet_int|intros ?]).
    apply quiet_bind; [now apply quiet_smooth|intros _].
    apply quiet_bind; [now apply quiet_poisson_residual|intros _].
    apply quiet_bind; [now apply quiet_grid_restrict|intros _].
    apply quiet_bind; [apply quiet_int|intros ?].
    apply quiet_bind; [apply quiet_fail|intros _].
    apply quiet_bind; [now apply quiet_grid_prolongate|intros _].
    apply quiet_bind; [now apply quiet_smooth|intros _]. apply quiet_enter.
  - apply quiet_bind; [now apply quiet_base_case|intros _; apply quiet_enter].
  - cbv zeta. repeat (apply quiet_bind; [apply quiet_int|intros ?]).
    apply quiet_bind; [now apply quiet_smooth|intros _].
    apply quiet_bind; [now apply quiet_poisson_residual|intros _].
    apply quiet_bind; [now apply quiet_grid_restrict|intros _].
    apply quiet_bind; [apply quiet_int|intros ?].
    apply quiet_bind; [now apply IH|intros _].
    apply quiet_bind; [now apply quiet_grid_prolongate|intros _].
    apply quiet_bind; [now apply quiet_smooth|intros _]. apply quiet_enter.
Qed.

End Quiet.

(** X6: a completed V-cycle writes to the blocks of [u], of the scratch
    [r] and of the arenas [v] and [w] only: every cell of every other
    block, in particular the right-hand side [f] of the finest level when
    it has a block of its own, is as before the call; and the V-cycle
    neither allocates nor frees.  The same holds for the driver's
    [operator()], whose [memset]s go to the arenas.  [grid_restrict] and
    [grid_prolongate] are modelled as storing to their destination only. *)
Theorem v_cycle_frame l S u f r v w h w0 :
  (forall w1,
     multigrid_v_cycle l S u f r v w h w0 = Done tt w1 ->
     (forall b c, b <> blk u -> b <> blk r -> b <> blk v -> b <> blk w ->
                  mem w1 b c = mem w0 b c)
     /\ (blk f <> blk u -> blk f <> blk r -> blk f <> blk v -> blk f <> blk w ->
         forall k, rd (mem w1) f k = rd (mem w0) f k)
     /\ ext w1 = ext w0 /\ next_block w1 = next_block w0)
  /\ (forall mg p w1,
        Multigrid_call mg p w0 = Done tt w1 ->
        (forall b c, b <> blk (p_u p) -> b <> blk (mg_r mg) -> b <> blk (mg_v mg) ->
                     b <> blk (mg_w mg) -> mem w1 b c = mem w0 b c)
        /\ ext w1 = ext w0 /\ next_block w1 = next_block w0).
Proof.
  split.
  - intros w1 Hrun.
    set (Wr := fun b => b = blk u \/ b = blk r \/ b = blk v \/ b = blk w).
    assert (Hq : quiet Wr (multigrid_v_cycle l S u f r v w h)).
    { apply quiet_v_cycle; unfold Wr; auto. }
    destruct (Hq w0 tt w1 Hrun) as (Hmem & Hext & Hnb).
    assert (Hframe : forall b c, b <> blk u -> b <> blk r -> b <> blk v -> b <> blk w ->
                                 mem w1 b c = mem w0 b c).
    { intros b c H1 H2 H3 H4. apply Hmem. intros [?|[?|[?|?]]]; contradiction. }
    split; [exact Hframe|]. split; [|split; assumption].
    intros H1 H2 H3 H4 k. unfold rd. now apply Hframe.
  - intros mg p w1 Hrun.
    set (Wr := fun b => b = blk (p_u p) \/ b = blk (mg_r mg) \/ b = blk (mg_v mg)
                        \/ b = blk (mg_w mg)).
    assert (Hq : quiet Wr (Multigrid_call mg p)).
    { unfold Multigrid_call.
      apply quiet_bind; [apply quiet_memset; unfold Wr; auto|intros _].
      apply quiet_bind; [apply quiet_memset; unfold Wr; auto|intros _].
      apply quiet_v_cycle; unfold Wr; auto. }
    destruct (Hq w0 tt w1 Hrun) as (Hmem & Hext & Hnb).
    split; [|split; assumption].
    intros b c H1 H2 H3 H4. apply Hmem. intros [?|[?|[?|?]]]; contradiction.
Qed.

(** ** The manufactured fields *)

Lemma grid_idx_range n p : p ∈ grid 0 n -> 0 <= idx n p < n * n.
Proof.
  destruct p as [i j]. intros [Hi Hj]%elem_of_grid. unfold idx. simpl. nia.
Qed.

Lemma exact_mem_outside v n h modes m b a :
  b <> blk v \/ a < ofs v \/ ofs v + n * n <= a -> exact_mem v n h modes m b a = m b a.
Proof.
  intros Hout. apply fold_wr_frame. intros p Hp%grid_idx_range.
  destruct Hout as [?|[?|?]]; [now left|right; lia..].
Qed.

(** X7: a completed [exact_solution(u, n, h, modes)] leaves in every cell
    [u[j + n*i]] with [0 <= i, j < n] the product
    [sin(s*h*j) * sin(s*h*i)], [s = 2*M_PI*modes / (h*(n-1))], and changes
    no cell outside [u[0 .. n*n-1]]; it completes for [1 <= n <= 46340] on a
    field of [n * n] cells, and for [n <= 0] it returns without an access. *)
Theorem exact_solution_field u n h modes w :
  (forall w',
     exact_solution u n h modes w = Done tt w' ->
     (forall i j, 0 <= i < n -> 0 <= j < n ->
        rd (mem w') u (j + n * i) = exact_value n h modes (i, j))
     /\ (forall b a, b <> blk u \/ a < ofs u \/ ofs u + n * n <= a ->
                     mem w' b a = mem w b a)
     /\ ext w' = ext w /\ history w' = history w)
  /\ (1 <= n <= N_MAX -> valid (ext w) u (n * n) ->
      exists w', exact_solution u n h modes w = Done tt w')
  /\ (INT_MIN < n <= 0 -> exact_solution u n h modes w = Done tt w).
Proof.
  split; [|split].
  - intros w' ->%exact_solution_Done. simpl. split; [|split; [|split; reflexivity]].
    + intros i j Hi Hj. replace (j + n * i) with (idx n (i, j)) by (unfold idx; simpl; lia).
      now apply exact_mem_value.
    + intros b a Hout. now apply exact_mem_outside.
  - intros Hn Hv. eexists. now apply exact_solution_run.
  - unfold INT_MIN. intros Hn. unfold exact_solution. int_run.
    rewrite (bind_run _ _ _ _ _ (int_run _ _)). cbv beta zeta. apply nest_nil. lia.
Qed.

Lemma forcing_bytes n :
  0 < sizeof_T < 2 ^ 32 -> in_int (n * n) = true ->
  size_t (size_t (n * n) * sizeof_T) / sizeof_T = n * n.
Proof.
  intros Hsz [_ Hmax]%in_int_true. unfold INT_MAX in Hmax.
  assert (Hnn : 0 <= n * n) by nia.
  rewrite (size_t_small (n * n)) by (unfold SIZE_MOD; lia).
  rewrite size_t_small by (unfold SIZE_MOD; nia). apply Z.div_mul. lia.
Qed.

Lemma forcing_mem_value f n h modes m i j :
  0 <= i < n -> 0 <= j < n ->
  rd (forcing_mem f n h modes m) f (idx n (i, j)) = forcing_value n h modes (i, j).
Proof.
  intros Hi Hj. unfold forcing_mem.
  assert (Hin : (i, j) ∈ grid 0 n) by (apply elem_of_grid; lia).
  destruct (list_elem_of_split _ _ Hin) as (pre & post & Hsplit).
  pose proof (grid_sorted n 0 n ltac:(lia) ltac:(lia)) as Hs. rewrite Hsplit in Hs.
  rewrite Hsplit.
  apply (fold_wr_sorted f n (fun _ p => forcing_value n h modes p) pre (i, j) post _ Hs).
Qed.

Lemma forcing_mem_outside f n h modes m b a :
  0 < sizeof_T < 2 ^ 32 -> in_int (n * n) = true ->
  b <> blk f \/ a < ofs f \/ ofs f + n * n <= a ->
  forcing_mem f n h modes m b a = m b a.
Proof.
  intros Hsz Hnn Hout. unfold forcing_mem. rewrite fold_wr_frame.
  - apply zero_fill_outside. now rewrite forcing_bytes.
  - intros p Hp%grid_idx_range. destruct Hout as [?|[?|?]]; [now left|right; lia..].
Qed.

(** X8: a completed [forcing_function(f, n, h, modes)] leaves in every
    cell [f[j + n*i]] with [0 <= i, j < n] the value
    [-2*s*s*sin(s*h*i)*sin(s*h*j)]: every zero of its [memset] is
    overwritten, so the result does not depend on the earlier content of
    [f]; no cell outside [f[0 .. n*n-1]] changes.  For a negative [n] the
    loops do not run and the [n * n] cells are left zero.  It completes
    for [1 <= n <= 46340] on a field of [n * n] cells. *)
Theorem forcing_function_field f n h modes w :
  0 < sizeof_T < 2 ^ 32 ->
  (forall w',
     forcing_function f n h modes w = Done tt w' ->
     (forall i j, 0 <= i < n -> 0 <= j < n ->
        rd (mem w') f (j + n * i) = forcing_value n h modes (i, j))
     /\ (n <= 0 -> forall k, 0 <= k < n * n -> rd (mem w') f k = lit 0)
     /\ (forall b a, b <> blk f \/ a < ofs f \/ ofs f + n * n <= a ->
                     mem w' b a = mem w b a)
     /\ ext w' = ext w /\ history w' = history w)
  /\ (1 <= n <= N_MAX -> valid (ext w) f (n * n) ->
      exists w', forcing_function f n h modes w = Done tt w').
Proof.
  intros Hsz. split.
  - intros w' [Hnn ->]%forcing_function_Done. simpl.
    split; [|split; [|split; [|split; reflexivity]]].
    + intros i j Hi Hj. replace (j + n * i) with (idx n (i, j)) by (unfold idx; simpl; lia).
      now apply forcing_mem_value.
    + intros Hn k Hk. unfold forcing_mem, grid. rewrite (seqZ_nil 0 (n - 0)) by lia.
      simpl. rewrite forcing_bytes by assumption. now apply zero_fill_inside.
    + intros b a Hout. now apply forcing_mem_outside.
  - intros Hn Hv. eexists. now apply forcing_function_run.
Qed.

(** ** The problem container: construction, [error()] and destruction *)

(** X9: a completed constructor [Poisson(l, h, modes)] (its three
    allocations having succeeded) had [0 <= l <= 15]; it returns
    [n = 2^l + 1] and three fresh blocks of [n * n] cells for [u], [f] and
    [r], with [u] and [r] zero everywhere and [f] holding the forcing
    function; the cells and the extents of the blocks allocated before are
    unchanged. *)
Theorem Poisson_constructed l h modes w :
  0 < sizeof_T < 2 ^ 32 ->
  forall p w',
     Poisson_new l h modes w = Done p w' ->
     0 <= l <= 15 /\ p_n p = 2 ^ l + 1 /\ p_l p = l /\ p_h p = h /\ p_modes p = modes
     /\ p_u p = Ptr (next_block w) 0
     /\ p_f p = Ptr (Datatypes.S (next_block w)) 0
     /\ p_r p = Ptr (Datatypes.S (Datatypes.S (next_block w))) 0
     /\ next_block w' = Datatypes.S (Datatypes.S (Datatypes.S (next_block w)))
     /\ ext w' (blk (p_u p)) = p_n p * p_n p
     /\ ext w' (blk (p_f p)) = p_n p * p_n p
     /\ ext w' (blk (p_r p)) = p_n p * p_n p
     /\ (forall k, 0 <= k < p_n p * p_n p ->
           rd (mem w') (p_u p) k = lit 0 /\ rd (mem w') (p_r p) k = lit 0)
     /\ (forall i j, 0 <= i < p_n p -> 0 <= j < p_n p ->
           rd (mem w') (p_f p) (j + p_n p * i) = forcing_value (p_n p) h modes (i, j))
     /\ (forall b, (b < next_block w)%nat ->
           ext w' b = ext w b /\ forall a, mem w' b a = mem w b a).
Proof.
  intros Hsz p w' Hrun. unfold Poisson_new in Hrun.
  apply bind_Done in Hrun as (n & wa & [Hn ->]%int_Done & Hrun).
  int_inv Hn. rewrite Z.mul_1_l in *. cbv zeta in Hrun.
  apply bind_Done in Hrun as (u & wb & [= <- <-] & Hrun).
  apply bind_Done in Hrun as (f & wc & [= <- <-] & Hrun).
  apply bind_Done in Hrun as (r & wd & [= <- <-] & Hrun).
  apply bind_Done in Hrun as ([] & we & ->%memset_Done & Hrun).
  apply bind_Done in Hrun as ([] & wf & ->%memset_Done & Hrun).
  apply bind_Done in Hrun as ([] & wg & ->%memset_Done & Hrun).
  apply bind_Done in Hrun as ([] & wh & [Hnn ->]%forcing_function_Done & [= <- <-]).
  pose proof Hnn as Hnn'. apply in_int_true in Hnn'. unfold INT_MIN, INT_MAX in Hnn'.
  assert (Hpow : 0 < 2 ^ l) by (apply Z.pow_pos_nonneg; lia).
  assert (HN : 1 <= 2 ^ l + 1 <= N_MAX) by (unfold N_MAX; nia).
  pose proof (level_n_limit l (proj2 HN)) as HL. unfold L_MAX in HL.
  pose proof (Poisson_bytes _ HN Hsz) as Hbytes.
  set (n := 2 ^ l + 1) in *. set (b0 := next_block w).
  cbn [p_n p_l p_h p_modes p_u p_f p_r blk ofs mem ext next_block upd_world].
  fold b0. rewrite !Hbytes.
  assert (Hne1 : b0 <> Datatypes.S b0) by lia.
  assert (Hne2 : b0 <> Datatypes.S (Datatypes.S b0)) by lia.
  assert (Hne3 : Datatypes.S b0 <> Datatypes.S (Datatypes.S b0)) by lia.
  repeat (split; [first [lia | reflexivity]|]).
  split; [|split; [|split; [|split; [|split]]]].
  - rewrite Nat.eqb_refl.
    repeat match goal with
           | |- context [(?x =? ?y)%nat] => destruct (Nat.eqb_spec x y); try lia
           end.
  - repeat match goal with
           | |- context [(?x =? ?y)%nat] => destruct (Nat.eqb_spec x y); try lia
           end.
  - repeat match goal with
           | |- context [(?x =? ?y)%nat] => destruct (Nat.eqb_spec x y); try lia
           end.
  - intros k Hk. unfold rd. split.
    + rewrite forcing_mem_outside by (assumption || (left; simpl; lia)).
      rewrite 2!zero_fill_outside by (left; simpl; lia).
      now apply zero_fill_inside.
    + rewrite forcing_mem_outside by (assumption || (left; simpl; lia)).
      now apply zero_fill_inside.
  - intros i j Hi Hj. replace (j + n * i) with (idx n (i, j)) by (unfold idx; simpl; lia).
    now apply forcing_mem_value.
  - intros b Hb. split.
    + repeat match goal with
             | |- context [(?x =? ?y)%nat] => destruct (Nat.eqb_spec x y); try lia
             end.
    + intros a. rewrite forcing_mem_outside by (assumption || (left; simpl; lia)).
      rewrite 3!zero_fill_outside by (left; simpl; lia). reflexivity.
Qed.

(** [Poisson::~Poisson()] (lines 264-268). *)
Definition Poisson_delete (p : Poisson) : M unit :=
  free (p_u p) ;;
  free (p_f p) ;;
  free (p_r p).

(** X10: [Poisson::error()] allocates one temporary field and frees it
    before it returns: after a completed call (its allocation having
    succeeded) the temporary's block is released, every other block has
    the extent it had, and the call history is unchanged. *)
Theorem error_releases_temporary p w0 e w1 :
  Poisson_error p w0 = Done e w1 ->
  next_block w1 = Datatypes.S (next_block w0)
  /\ ext w1 (next_block w0) = 0
  /\ (forall b, b <> next_block w0 -> ext w1 b = ext w0 b)
  /\ history w1 = history w0
  /\ forall k, load (Ptr (next_block w0) 0) k w1 = Fault OutOfBounds.
Proof.
  intros Hrun. unfold Poisson_error in Hrun.
  apply bind_Done in Hrun as (v & wa & [= <- <-] & Hrun).
  apply bind_Done in Hrun as ([] & wb & ->%memset_Done & Hrun).
  apply bind_Done in Hrun as ([] & wc & ->%exact_solution_Done & Hrun).
  apply bind_Done in Hrun as ([] & wd & ->%grid_subtract_Done & Hrun).
  apply bind_Done in Hrun as (err & we & [-> ->]%grid_l1norm_Done & Hrun).
  apply bind_Done in Hrun as ([] & wf & [= <-] & [= <- <-]).
  cbn [next_block ext history upd_world blk].
  rewrite Nat.eqb_refl. split; [reflexivity|]. split; [reflexivity|].
  split; [|split; [reflexivity|]].
  - intros b Hb. now repeat (replace (b =? next_block w0)%nat with false
                               by (symmetry; apply Nat.eqb_neq; exact Hb)).
  - intros k. unfold load, in_bounds. cbn [next_block ext upd_world blk ofs].
    rewrite Nat.eqb_refl.
    destruct (0 <=? 0 + k) eqn:H0; [|reflexivity].
    replace (0 + k <? 0) with false; [reflexivity|].
    symmetry. apply Z.ltb_ge. apply Z.leb_le in H0. exact H0.
Qed.

(** X11: the destructor releases the three fields the constructor
    allocated and nothing else: after [Poisson(l, h, modes)] and then
    [~Poisson()], the blocks of [u], [f] and [r] have no cell left, so
    [residual()] on a grid with interior points is then a fault, while the
    extents of all other blocks and the whole content of memory are as
    the destructor found them. *)
Theorem Poisson_lifecycle l h modes w p w1 :
    Poisson_new l h modes w = Done p w1 ->
    exists w2,
      Poisson_delete p w1 = Done tt w2
      /\ ext w2 (blk (p_u p)) = 0 /\ ext w2 (blk (p_f p)) = 0 /\ ext w2 (blk (p_r p)) = 0
      /\ (forall b, (b < next_block w)%nat -> ext w2 b = ext w b)
      /\ mem w2 = mem w1
      /\ (1 <= l -> Poisson_residual p w2 = Fault OutOfBounds).
Proof.
  intros Hnew. unfold Poisson_new in Hnew.
  apply bind_Done in Hnew as (n & wa & [Hn' ->]%int_Done & Hnew).
  int_inv Hn'. rewrite Z.mul_1_l in *. cbv zeta in Hnew.
  apply bind_Done in Hnew as (u & wb & [= <- <-] & Hnew).
  apply bind_Done in Hnew as (f & wc & [= <- <-] & Hnew).
  apply bind_Done in Hnew as (r & wd & [= <- <-] & Hnew).
  apply bind_Done in Hnew as ([] & we & ->%memset_Done & Hnew).
  apply bind_Done in Hnew as ([] & wf & ->%memset_Done & Hnew).
  apply bind_Done in Hnew as ([] & wg & ->%memset_Done & Hnew).
  apply bind_Done in Hnew as ([] & wh & [Hnn ->]%forcing_function_Done & [= <- <-]).
  unfold Poisson_delete, free, bind.
  cbn [p_u p_f p_r p_n blk ofs mem ext next_block history accesses upd_world].
  eexists. split; [reflexivity|].
  cbn [p_u p_f p_r p_n blk ofs mem ext next_block history accesses upd_world].
  set (b0 := next_block w) in *.
  split; [|split; [|split; [|split; [|split; [reflexivity|]]]]].
  - repeat match goal with
           | |- context [(?x =? ?y)%nat] => destruct (Nat.eqb_spec x y); try lia
           end.
  - repeat match goal with
           | |- context [(?x =? ?y)%nat] => destruct (Nat.eqb_spec x y); try lia
           end.
  - repeat match goal with
           | |- context [(?x =? ?y)%nat] => destruct (Nat.eqb_spec x y); try lia
           end.
  - intros b Hb.
    repeat match goal with
           | |- context [(?x =? ?y)%nat] => destruct (Nat.eqb_spec x y); try lia
           end.
  - intros Hl1. unfold Poisson_residual. cbn [p_u p_f p_r p_n p_h].
    assert (Hpow : 2 <= 2 ^ l).
    { change 2 with (2 ^ 1) at 1. apply Z.pow_le_mono_r; lia. }
    apply in_int_true in Hnn. unfold INT_MIN, INT_MAX in Hnn.
    set (n := 2 ^ l + 1) in *.
    assert (Hn3 : 3 <= n <= 46340) by (unfold n; nia).
    unfold poisson_residual. rewrite enter_run. cbv zeta. int_run.
    rewrite (bind_run _ _ _ _ _ (int_run _ _)). cbv beta.
    rewrite for_range_unfold by lia. unfold bind at 1.
    rewrite for_range_unfold by lia. unfold bind at 1.
    unfold residual_update. int_run.
    unfold bind at 1, load_at at 1, bind at 1, int at 1, of_int at 1, load at 1, in_bounds.
    cbn [p_u p_f p_r p_n blk ofs mem ext next_block history accesses upd_world note_call].
    fold b0.
    repeat match goal with
           | |- context [(?x =? ?y)%nat] => destruct (Nat.eqb_spec x y); try lia
           end.
    replace (0 + (1 + 1 * n) <? 0) with false by (symmetry; apply Z.ltb_ge; lia).
    rewrite andb_false_r. reflexivity.
Qed.

(** ** The objects in use *)

Lemma Multigrid_new_next S p w0 mg w1 :
  Multigrid_new S p w0 = Done mg w1 ->
  next_block w1 = Datatypes.S (Datatypes.S (Datatypes.S (next_block w0))).
Proof.
  unfold Multigrid_new. intros Hrun.
  apply bind_Done in Hrun as (size & wa & [Hsize ->]%int_Done & Hrun).
  apply bind_Done in Hrun as (v & wb & [= <- <-] & Hrun).
  apply bind_Done in Hrun as (w & wc & [= <- <-] & Hrun).
  apply bind_Done in Hrun as (n & wd & [Hn ->]%int_Done & Hrun).
  apply bind_Done in Hrun as (r & we & [= <- <-] & [= <- <-]).
  reflexivity.
Qed.

Lemma Poisson_error_blocks p w0 e w1 :
  Poisson_error p w0 = Done e w1 ->
  next_block w1 = Datatypes.S (next_block w0)
  /\ forall b, b <> next_block w0 -> ext w1 b = ext w0 b.
Proof.
  intros Hrun. unfold Poisson_error in Hrun.
  apply bind_Done in Hrun as (v & wa & [= <- <-] & Hrun).
  apply bind_Done in Hrun as ([] & wb & ->%memset_Done & Hrun).
  apply bind_Done in Hrun as ([] & wc & ->%exact_solution_Done & Hrun).
  apply bind_Done in Hrun as ([] & wd & ->%grid_subtract_Done & Hrun).
  apply bind_Done in Hrun as (err & we & [-> ->]%grid_l1norm_Done & Hrun).
  apply bind_Done in Hrun as ([] & wf & [= <-] & [= <- <-]).
  cbn [next_block ext history upd_world blk].
  split; [reflexivity|].
  intros b Hb. now repeat (replace (b =? next_block w0)%nat with false
                             by (symmetry; apply Nat.eqb_neq; exact Hb)).
Qed.

(** The calls a program makes on a problem [p] and its solver [mg]:
    [mg(p)], [p.residual()], [p.norm()] and [p.error()]. *)
Inductive method := do_solve | do_residual | do_norm | do_error.

Definition invoke (mg : Multigrid) (p : Poisson) (c : method) : M unit :=
  match c with
  | do_solve => Multigrid_call mg p
  | do_residual => Poisson_residual p
  | do_norm => let! _ := Poisson_norm p in ret tt
  | do_error => let! _ := Poisson_error p in ret tt
  end.

(** The calls [cs], one after the other. *)
Fixpoint invoke_all (mg : Multigrid) (p : Poisson) (cs : list method) : M unit :=
  match cs with
  | [] => ret tt
  | c :: cs' => invoke mg p c ;; invoke_all mg p cs'
  end.

(** The problem and the solver own allocated buffers of the sizes of their
    level. *)
Definition usable (mg : Multigrid) (p : Poisson) (w : world) : Prop :=
  well_formed p w
  /\ 1 <= mg_l mg <= L_MAX
  /\ valid (ext w) (mg_v mg) (mg_num_bytes mg / sizeof_T)
  /\ valid (ext w) (mg_w mg) (mg_num_bytes mg / sizeof_T)
  /\ v_cycle_buffers (ext w) (mg_l mg) (p_u p) (p_f p) (mg_r mg) (mg_v mg) (mg_w mg)
  /\ (blk (mg_v mg) < next_block w)%nat /\ (blk (mg_w mg) < next_block w)%nat
  /\ (blk (mg_r mg) < next_block w)%nat.

Lemma valid_later (w w' : world) q len :
  (forall b, (b < next_block w)%nat -> ext w' b = ext w b) ->
  (blk q < next_block w)%nat -> valid (ext w) q len -> valid (ext w') q len.
Proof. intros Hext Hq. unfold valid. now rewrite Hext. Qed.

Lemma well_formed_later p w w' :
  (forall b, (b < next_block w)%nat -> ext w' b = ext w b) ->
  (next_block w <= next_block w')%nat ->
  well_formed p w -> well_formed p w'.
Proof.
  intros Hext Hnb (Hn & Hbytes & Hu & Hf & Hr & Hub & Hfb & Hrb & Hs1 & Hs2).
  cbv zeta in *. unfold well_formed. cbv zeta.
  split; [exact Hn|]. split; [exact Hbytes|].
  split; [now apply (valid_later w)|]. split; [now apply (valid_later w)|].
  split; [now apply (valid_later w)|].
  split; [lia|]. split; [lia|]. split; [lia|]. split; assumption.
Qed.

Lemma usable_later mg p w w' :
  (forall b, (b < next_block w)%nat -> ext w' b = ext w b) ->
  (next_block w <= next_block w')%nat ->
  usable mg p w -> usable mg p w'.
Proof.
  intros Hext Hnb (Hwf & HL & Hv & Hw & Hbuf & Hvb & Hwb & Hrb).
  pose proof Hwf as (_ & _ & _ & _ & _ & Hub & Hfb & _). cbv zeta in *.
  destruct Hbuf as (B1 & B2 & B3 & B4).
  split; [now apply (well_formed_later p w)|]. split; [exact HL|].
  split; [now apply (valid_later w)|]. split; [now apply (valid_later w)|].
  split; [|lia].
  split; [now apply (valid_later w)|]. split; [now apply (valid_later w)|].
  split; [now apply (valid_later w)|].
  intros H2. destruct (B4 H2) as [B5 B6].
  split; now apply (valid_later w).
Qed.

(** With every allocation succeeding, each call completes on usable
    objects. *)
Lemma invoke_usable mg p c w :
  usable mg p w ->
  exists w', invoke mg p c w = Done tt w'
             /\ (forall b, (b < next_block w)%nat -> ext w' b = ext w b)
             /\ (next_block w <= next_block w')%nat.
Proof.
  intros (Hwf & HL & Hv & Hw & Hbuf & Hvb & Hwb & Hrb).
  destruct Hwf as (Hn & Hbytes & Hu & Hf & Hr & Hub & Hfb & Hrb' & Hs1 & Hs2).
  cbv zeta in *.
  destruct c; simpl.
  - destruct (Multigrid_call_run mg p w Hv Hw HL Hbuf) as [w' Hrun].
    exists w'. split; [exact Hrun|].
    assert (Hq : quiet (fun _ => True) (Multigrid_call mg p)).
    { unfold Multigrid_call.
      apply quiet_bind; [now apply quiet_memset|intros _].
      apply quiet_bind; [now apply quiet_memset|intros _].
      now apply quiet_v_cycle. }
    destruct (Hq w tt w' Hrun) as (_ & Hext & Hnext).
    rewrite Hext, Hnext. split; [reflexivity|lia].
  - unfold Poisson_residual. rewrite poisson_residual_run by assumption.
    eexists. split; [reflexivity|]. simpl. split; [reflexivity|lia].
  - unfold Poisson_norm, bind. rewrite grid_l1norm_run by assumption.
    eexists. split; [reflexivity|]. simpl. split; [reflexivity|lia].
  - destruct (Poisson_error_run p w Hn Hbytes Hu Hr Hub Hrb') as (e & w' & Hrun & _).
    exists w'. unfold bind. rewrite Hrun. split; [reflexivity|].
    destruct (Poisson_error_blocks p w e w' Hrun) as [Hnext Hext].
    split; [|lia]. intros b Hb. apply Hext. lia.
Qed.

Lemma invoke_all_usable mg p cs :
  forall w, usable mg p w ->
            exists w', invoke_all mg p cs w = Done tt w'
                       /\ (forall b, (b < next_block w)%nat -> ext w' b = ext w b)
                       /\ (next_block w <= next_block w')%nat.
Proof.
  induction cs as [|c cs IH]; intros w Hw.
  - exists w. split; [reflexivity|]. split; [reflexivity|lia].
  - destruct (invoke_usable mg p c w Hw) as (w1 & Hrun & Hext & Hnb).
    destruct (IH w1 (usable_later mg p w w1 Hext Hnb Hw)) as (w2 & Hrun2 & Hext2 & Hnb2).
    exists w2. cbn [invoke_all]. unfold bind. rewrite Hrun.
    split; [exact Hrun2|]. split; [|lia].
    intros b Hb. rewrite Hext2 by lia. now apply Hext.
Qed.

Lemma constructed_usable l S h modes w p w1 mg w2 :
  0 < sizeof_T < 2 ^ 32 -> 1 <= l ->
  Poisson_new l h modes w = Done p w1 ->
  Multigrid_new S p w1 = Done mg w2 ->
  usable mg p w2.
Proof.
  intros Hsz Hl Hp Hmg.
  destruct (Poisson_new_Done l h modes w p w1 Hsz Hp) as (Hpl & Hpn & _ & _ & Hwf).
  pose proof (Multigrid_new_next S p w1 mg w2 Hmg) as Hnext.
  destruct (Multigrid_new_Done S p w1 mg w2 Hsz Hmg)
    as (HL & _ & Hlm & Hv & Hw & Hr & HN & Hve & Hwe & Hre & Hold & _).
  rewrite Hpl in *.
  assert (Hwf2 : well_formed p w2).
  { apply (well_formed_later p w1); [exact Hold|lia|exact Hwf]. }
  pose proof Hwf2 as (_ & _ & Hu & Hf & _). cbv zeta in Hu, Hf.
  rewrite Hpn in Hu, Hf. fold (level_n l) in Hu, Hf.
  pose proof (total_size_covers l ltac:(lia)) as Hcov.
  split; [exact Hwf2|]. rewrite Hlm, HN, Hv, Hw, Hr.
  split; [lia|].
  split; [unfold valid; simpl; lia|]. split; [unfold valid; simpl; lia|].
  split; [|simpl; lia].
  split; [exact Hu|]. split; [exact Hf|].
  unfold valid. simpl. repeat split; lia.
Qed.

Lemma invoke_kept mg p c w w' :
  invoke mg p c w = Done tt w' ->
  (forall b, (b < next_block w)%nat -> ext w' b = ext w b)
  /\ (next_block w <= next_block w')%nat.
Proof.
  destruct c; simpl; intros Hrun.
  - assert (Hq : quiet (fun _ => True) (Multigrid_call mg p)).
    { unfold Multigrid_call.
      apply quiet_bind; [now apply quiet_memset|intros _].
      apply quiet_bind; [now apply quiet_memset|intros _].
      now apply quiet_v_cycle. }
    destruct (Hq w tt w' Hrun) as (_ & Hext & Hnext).
    rewrite Hext, Hnext. split; [reflexivity|lia].
  - destruct (quiet_poisson_residual (fun _ => True) (p_r p) (p_u p) (p_f p) (p_n p)
                (p_h p) I w tt w' Hrun) as (_ & Hext & Hnext).
    rewrite Hext, Hnext. split; [reflexivity|lia].
  - apply bind_Done in Hrun as (e & w1 & [_ ->]%grid_l1norm_Done & [= <-]).
    simpl. split; [reflexivity|lia].
  - apply bind_Done in Hrun as (e & w1 & Herr & [= <-]).
    destruct (Poisson_error_blocks p w e w1 Herr) as [Hnext Hext].
    split; [|lia]. intros b Hb. apply Hext. lia.
Qed.

Lemma invoke_all_kept mg p cs :
  forall w w', invoke_all mg p cs w = Done tt w' ->
               (forall b, (b < next_block w)%nat -> ext w' b = ext w b)
               /\ (next_block w <= next_block w')%nat.
Proof.
  induction cs as [|c cs IH]; intros w w' Hrun.
  - injection Hrun as <-. split; [reflexivity|lia].
  - cbn [invoke_all] in Hrun. apply bind_Done in Hrun as ([] & w1 & Hc & Hrest).
    destruct (invoke_kept mg p c w w1 Hc) as [Hext Hnb].
    destruct (IH w1 w' Hrest) as [Hext' Hnb'].
    split; [|lia]. intros b Hb. rewrite Hext' by lia. now apply Hext.
Qed.

(** The calls that do not allocate complete on usable objects. *)
Lemma usable_run mg p w :
  usable mg p w ->
  (exists w', Multigrid_call mg p w = Done tt w')
  /\ (exists w', Poisson_residual p w = Done tt w')
  /\ (exists e w', Poisson_norm p w = Done e w').
Proof.
  intros (Hwf & HL & Hv & Hw & Hbuf & _).
  destruct Hwf as (Hn & _ & Hu & Hf & Hr & _). cbv zeta in *.
  split; [exact (Multigrid_call_run mg p w Hv Hw HL Hbuf)|]. split.
  - unfold Poisson_residual. rewrite poisson_residual_run by assumption. eauto.
  - unfold Poisson_norm. rewrite grid_l1norm_run by assumption. eauto.
Qed.

(** X14: the objects the two constructors build stay usable.  When
    [Poisson(l, h, modes)] with [l >= 1] and then [Multigrid(p)] have
    completed, then after every sequence of completed calls [mg(p)],
    [p.residual()], [p.norm()] and [p.error()], in any order, no block that
    existed after the constructors has changed its extent, and each of
    [mg(p)], [p.residual()] and [p.norm()] runs to completion without a
    fault.  The calls that allocate (the constructors and [error()]) are
    taken as completed: nothing is said of a failing allocation. *)
Theorem constructed_objects_stay_usable l S h modes w p w1 mg w2 :
  0 < sizeof_T < 2 ^ 32 -> 1 <= l ->
  Poisson_new l h modes w = Done p w1 ->
  Multigrid_new S p w1 = Done mg w2 ->
  forall cs w3,
    invoke_all mg p cs w2 = Done tt w3 ->
    (forall b, (b < next_block w2)%nat -> ext w3 b = ext w2 b)
    /\ (exists w4, Multigrid_call mg p w3 = Done tt w4)
    /\ (exists w4, Poisson_residual p w3 = Done tt w4)
    /\ (exists e w4, Poisson_norm p w3 = Done e w4).
Proof.
  intros Hsz Hl Hp Hmg cs w3 Hrun.
  pose proof (constructed_usable l S h modes w p w1 mg w2 Hsz Hl Hp Hmg) as Hus.
  destruct (invoke_all_kept mg p cs w2 w3 Hrun) as [Hext Hnb].
  split; [exact Hext|].
  apply usable_run. exact (usable_later mg p w2 w3 Hext Hnb Hus).
Qed.

(** ** The right-hand side and the manufactured solution *)

(** X16: the right-hand side is [-2*s*s] times the manufactured solution.
    When the multiplication of [T] is commutative and associative, the
    value [forcing_function] stores at a point of the grid is the product
    of [-2 * s * s] and the value [exact_solution] stores at the same point
    of its field, [s = 2*M_PI*modes / (h*(n-1))], the two fields not
    overlapping. *)
Theorem forcing_scales_exact_solution v f n h modes w w1 w2 :
  (forall a b : T, (a * b)%T = (b * a)%T) ->
  (forall a b c : T, (a * (b * c))%T = (a * b * c)%T) ->
  0 < sizeof_T < 2 ^ 32 -> separate f (n * n) v (n * n) ->
  exact_solution v n h modes w = Done tt w1 ->
  forcing_function f n h modes w1 = Done tt w2 ->
  let s := (lit 2 * M_PI * modes / (h * lit (inject_Z (n - 1))))%T in
  forall i j, 0 <= i < n -> 0 <= j < n ->
    rd (mem w2) f (j + n * i)
    = (lit (inject_Z (-2)) * s * s * rd (mem w2) v (j + n * i))%T.
Proof.
  intros Hcomm Hassoc Hsz Hsep ->%exact_solution_Done [Hnn ->]%forcing_function_Done
         s i j Hi Hj.
  cbn [mem upd_world].
  assert (Hk : 0 <= j + i * n < n * n) by nia.
  replace (j + n * i) with (idx n (i, j)) by (unfold idx; simpl; lia).
  rewrite forcing_mem_value by assumption.
  assert (Hv : rd (forcing_mem f n h modes (exact_mem v n h modes (mem w))) v (idx n (i, j))
               = exact_value n h modes (i, j)).
  { unfold rd at 1. rewrite forcing_mem_outside; [|exact Hsz|exact Hnn|].
    - now apply exact_mem_value.
    - unfold idx. simpl. destruct Hsep as [?|[?|?]]; [left; congruence|right; lia..]. }
  rewrite Hv. unfold forcing_value, exact_value. cbv zeta. fold s. simpl.
  rewrite (Hcomm (sin (s * h * lit (inject_Z j)))%T). apply eq_sym, Hassoc.
Qed.
End Model.

Arguments Done {T A} a w.
Arguments Fault {T A} e.

(** * The smoothers in exact arithmetic *)

(** The rationals as the scalar type: the field operations are exact.  The
    smoothers, the residual and the V-cycle use nothing else; the sine has
    no rational counterpart and the identity stands in its place. *)
#[export] Instance Q_scalar : Scalar Q :=
  {| lit q := q; add := Qplus; sub := Qminus; mul := Qmult; div := Qdiv;
     neg := Qopp; sin x := x; fabs := Qabs; sizeof_T := 8 |}.

Section Exact.









Local Open Scope Q_scope.
















(** ** Contraction *)














(** ** Fixed points of the smoothers *)

(** The memories [m1] and [m2] hold equal numbers in every cell. *)
Definition same_values (m1 m2 : memory) : Prop := forall b a, m1 b a == m2 b a.

Lemma stencil_same_values (m1 m2 : memory) u f n (h : Q) p :
  same_values m1 m2 -> stencil m1 u f n h p == stencil m2 u f n h p.
Proof.
  intros Hm. assert (Hm' : forall b a, m1 b a == m2 b a) by exact Hm.
  destruct p as [i j]. unfold stencil, rd.
  cbv [mul add sub neg lit Q_scalar]. rewrite !Hm'. reflexivity.
Qed.

Lemma residual_same_values (m1 m2 : memory) u f n (x : Q) p :
  same_values m1 m2 -> residual_at m1 u f n x p == residual_at m2 u f n x p.
Proof.
  intros Hm. assert (Hm' : forall b a, m1 b a == m2 b a) by exact Hm.
  destruct p as [i j]. unfold residual_at, rd.
  cbv [mul add sub neg lit Q_scalar]. rewrite !Hm'. reflexivity.
Qed.

(** The smoother's assignment at a point is the value that makes the
    residual at the point zero. *)
Lemma stencil_residual (m : memory) u f n (h : Q) i j :
  ~ h == 0 ->
  stencil m u f n h (i, j) == rd m u (j + i * n)%Z
  <-> residual_at m u f n (1 / (h * h)) (i, j) == 0.
Proof.
  intros Hh. unfold stencil, residual_at. cbv [mul add sub neg lit Q_scalar].
  set (F := rd m f (j + i * n)%Z). set (C := rd m u (j + i * n)%Z).
  set (E := rd m u (j + 1 + i * n)%Z). set (Wt := rd m u (j - 1 + i * n)%Z).
  set (So := rd m u (j + (i + 1) * n)%Z). set (No := rd m u (j + (i - 1) * n)%Z).
  assert (Hinv : h * h * (1 / (h * h)) == 1) by (field; exact Hh).
  set (x := 1 / (h * h)) in *. split; intros Hyp.
  - assert (Hsum : E + Wt + - (4) * C + So + No == h * h * F) by lra.
    rewrite Hsum.
    assert (Hx : h * h * F * x == F) by (rewrite <- (Qmult_1_r F) at 2; rewrite <- Hinv; ring).
    rewrite Hx. ring.
  - assert (HF : F == (E + Wt + - (4) * C + So + No) * x) by lra.
    assert (Hmul : h * h * F == E + Wt + - (4) * C + So + No).
    { rewrite HF at 1.
      assert (Eq1 : (h * h * ((E + Wt + - (4) * C + So + No) * x))
                 == ((E + Wt + - (4) * C + So + No) * (h * h * x))) by ring.
    rewrite Eq1.
      rewrite Hinv. ring. }
    lra.
Qed.

(** Every interior point satisfies the discrete equation. *)
Definition solved (m : memory) (u f : ptr) (n : Z) (h : Q) : Prop :=
  forall i j, (1 <= i <= n - 2)%Z -> (1 <= j <= n - 2)%Z ->
              residual_at m u f n (1 / (h * h)) (i, j) == 0.

Lemma sweep_solved u f n (h : Q) (m : memory) pts :
  ~ h == 0 -> solved m u f n h -> (forall p, p ∈ pts -> p ∈ interior n) ->
  forall m', same_values m' m -> same_values (sweep u f n h pts m') m.
Proof.
  intros Hh Hs. induction pts as [|[i j] pts IH]; intros Hpts m' Hm'; [exact Hm'|].
  change (sweep u f n h ((i, j) :: pts) m')
    with (sweep u f n h pts (gs_mem u f n h (i, j) m')).
  apply IH; [intros p Hp; apply Hpts; now right|].
  assert (Hp : (i, j) ∈ interior n) by (apply Hpts; left).
  apply elem_of_interior in Hp as [Hi Hj].
  intros b a. unfold gs_mem, wr.
  destruct ((b =? blk u)%nat && (a =? ofs u + idx n (i, j))%Z) eqn:Hcell; [|apply Hm'].
  apply andb_true_iff in Hcell as [->%Nat.eqb_eq ->%Z.eqb_eq].
  rewrite (stencil_same_values m' m) by exact Hm'.
  apply (stencil_residual m u f n h i j Hh). now apply Hs.
Qed.

Lemma smooth_solved S u f n (h : Q) (m : memory) :
  ~ h == 0 -> solved m u f n h -> same_values (smooth_mem S u f n h m) m.
Proof.
  intros Hh Hs. destruct S; simpl.
  - apply sweep_solved; auto. intros b a. reflexivity.
  - apply sweep_solved; auto; [apply color_points_interior|].
    apply sweep_solved; auto; [apply color_points_interior|]. intros b a. reflexivity.
Qed.

(** X12: in exact arithmetic and for [h <> 0], the smoothers and the
    residual operator agree on the discrete equation: the value a smoother
    assigns at a point equals the value already there exactly when the
    residual at the point is zero; so a field whose residual is zero at
    every interior point is left unchanged (cell by cell, as numbers) by
    [gauss_seidel] and by [gauss_seidel_red_black]; and a field that one
    natural-order sweep leaves unchanged has zero residual everywhere. *)
Theorem smoother_fixed_points (u f : ptr) (n : Z) (h : Q) (w : world) :
  ~ h == 0 ->
  (forall i j,
     stencil (mem w) u f n h (i, j) == rd (mem w) u (j + i * n)%Z
     <-> residual_at (mem w) u f n (1 / (h * h)) (i, j) == 0)
  /\ (forall S w',
        solved (mem w) u f n h ->
        smooth S u f n h w = Done tt w' ->
        same_values (mem w') (mem w))
  /\ (forall w',
        separate u (n * n) f (n * n) ->
        gauss_seidel u f n h w = Done tt w' ->
        same_values (mem w') (mem w) ->
        solved (mem w) u f n h).
Proof.
  intros Hh. split; [|split].
  - intros i j. now apply stencil_residual.
  - intros S w' Hs ->%smooth_Done. simpl. now apply smooth_solved.
  - intros w' Hsep Hrun Hsame i j Hi Hj.
    apply gauss_seidel_Done in Hrun. subst w'. simpl in Hsame.
    apply (stencil_residual (mem w) u f n h i j Hh).
    pose proof (sweep_interior_value u f n h (mem w) i j Hsep Hi Hj) as Hval.
    cbv zeta in Hval.
    assert (Hc : rd (sweep u f n h (interior n) (mem w)) u (j + i * n)%Z
                 == rd (mem w) u (j + i * n)%Z) by apply Hsame.
    assert (Hsame' : forall b a, sweep u f n h (interior n) (mem w) b a == mem w b a)
      by exact Hsame.
    rewrite <- Hc, Hval. unfold stencil, rd.
    cbv [mul add sub neg lit Q_scalar]. rewrite !Hsame'. reflexivity.
Qed.

(** ** The base case and the exact coarse solve *)

(** X13: on the 3 x 3 grid with zero values at the four neighbours of the
    centre, [base_case] leaves the residual [-f[1,1]] at the centre: its
    constant [-0.5] is twice the one that solves the one-unknown system.
    One [gauss_seidel] sweep of the same grid (any boundary values) leaves
    the residual zero.  Exact arithmetic, [h <> 0], [u] and [f] not
    overlapping. *)
Theorem base_case_residual (u f : ptr) (h : Q) (w : world) :
  ~ h == 0 -> separate u (3 * 3) f (3 * 3) ->
  (forall w',
     base_case u f h w = Done tt w' ->
     rd (mem w) u 1 == 0 -> rd (mem w) u 3 == 0 ->
     rd (mem w) u 5 == 0 -> rd (mem w) u 7 == 0 ->
     residual_at (mem w') u f 3 (1 / (h * h)) (1, 1)%Z == - rd (mem w) f 4)
  /\ (forall w',
        gauss_seidel u f 3 h w = Done tt w' ->
        residual_at (mem w') u f 3 (1 / (h * h)) (1, 1)%Z == 0).
Proof.
  intros Hh Hsep.
  assert (Hinv : h * h * (1 / (h * h)) == 1) by (field; exact Hh).
  assert (Hfu : forall k x, (0 <= k < 9)%Z -> rd (wr (mem w) u 4 x) f k = rd (mem w) f k).
  { intros k x Hk. apply rd_wr_other.
    apply (separate_cells u (3 * 3) f (3 * 3) 4 k Hsep); lia. }
  assert (Huu : forall k x, k <> 4%Z -> rd (wr (mem w) u 4 x) u k = rd (mem w) u k).
  { intros k x Hk. apply rd_wr_other. right. lia. }
  split.
  - intros w' ->%base_case_Done H1 H3 H5 H7. simpl.
    unfold residual_at. change (1 + 1 * 3)%Z with 4%Z. change (1 + 1 + 1 * 3)%Z with 5%Z.
    change (1 - 1 + 1 * 3)%Z with 3%Z. change (1 + (1 + 1) * 3)%Z with 7%Z.
    change (1 + (1 - 1) * 3)%Z with 1%Z.
    rewrite Hfu by lia. rewrite (Huu 5%Z), (Huu 3%Z), (Huu 7%Z), (Huu 1%Z) by lia.
    rewrite rd_wr_same.
    cbv [mul add sub neg lit Q_scalar]. rewrite H1, H3, H5, H7.
    set (F := rd (mem w) f 4) in *. set (x := 1 / (h * h)) in *.
    assert (Eq2 : (F - (0 + 0 + - (4) * (- (0.5) * F * h * h) + 0 + 0) * x)
                 == (F - 2 * F * (h * h * x))) by ring.
    rewrite Eq2.
    rewrite Hinv. ring.
  - intros w' ->%gauss_seidel_Done. simpl.
    change (interior 3) with [(1, 1)%Z]. cbn [sweep foldl]. unfold gs_mem, idx. cbn [fst snd].
    unfold residual_at, stencil.
    change (1 + 1 * 3)%Z with 4%Z. change (1 + 1 + 1 * 3)%Z with 5%Z.
    change (1 - 1 + 1 * 3)%Z with 3%Z. change (1 + (1 + 1) * 3)%Z with 7%Z.
    change (1 + (1 - 1) * 3)%Z with 1%Z.
    rewrite Hfu by lia. rewrite (Huu 5%Z), (Huu 3%Z), (Huu 7%Z), (Huu 1%Z) by lia.
    rewrite rd_wr_same.
    cbv [mul add sub neg lit Q_scalar].
    change (Z.of_nat 0 + 1 + (Z.of_nat 0 + 1) * 3)%Z with 4%Z.
    change (Z.of_nat 0 + 1 + 1 + (Z.of_nat 0 + 1) * 3)%Z with 5%Z.
    change (Z.of_nat 0 + 1 - 1 + (Z.of_nat 0 + 1) * 3)%Z with 3%Z.
    change (Z.of_nat 0 + 1 + (Z.of_nat 0 + 1 + 1) * 3)%Z with 7%Z.
    change (Z.of_nat 0 + 1 + (Z.of_nat 0 + 1 - 1) * 3)%Z with 1%Z.
    set (F := rd (mem w) f 4). set (E := rd (mem w) u 5). set (Wt := rd (mem w) u 3).
    set (So := rd (mem w) u 7). set (No := rd (mem w) u 1). set (x := 1 / (h * h)) in *.
    transitivity (F - F * (h * h * x)); [ring|].
    rewrite Hinv. ring.
Qed.

(** ** The domain along the recursion *)

(** The call [c] works on the domain of width [H]: a smoother or residual
    call on [n - 1] intervals of its spacing, a V-cycle entry at level [k]
    on [2^k] intervals, the base case on two; a transfer goes between a
    grid and the grid of half as many intervals. *)
Definition same_domain (H : Q) (c : call) : Prop :=
  match c with
  | call_gauss_seidel _ _ n h' => h' * inject_Z (n - 1) == H
  | call_gauss_seidel_red_black _ _ n h' => h' * inject_Z (n - 1) == H
  | call_poisson_residual _ _ _ n h' => h' * inject_Z (n - 1) == H
  | call_base_case _ _ h' => h' * 2 == H
  | call_multigrid_v_cycle k _ _ _ _ _ h' => h' * inject_Z (2 ^ k) == H
  | call_grid_restrict _ dn _ _ sn _ _ _ => (sn - 1 = 2 * (dn - 1))%Z
  | call_grid_prolongate _ dn _ _ sn _ _ _ => (dn - 1 = 2 * (sn - 1))%Z
  | return_multigrid_v_cycle _ => True
  end.

Lemma same_domain_smooth (H : Q) S u f n h :
  h * inject_Z (n - 1) == H -> same_domain H (smooth_call S u f n h).
Proof. intros Hh. destruct S; exact Hh. Qed.

Lemma same_domain_calls d :
  forall l S u f r v w (h H : Q),
    l = (Z.of_nat d + 1)%Z -> h * inject_Z (2 ^ l) == H ->
    Forall (same_domain H) (v_cycle_calls d l S u f r v w h).
Proof.
  induction d as [|d IH]; intros l S u f r v w h H Hl Hh.
  - subst l. cbn [v_cycle_calls].
    constructor; [exact Hh|]. constructor; [exact Hh|].
    constructor; [exact I|constructor].
  - cbn [v_cycle_calls]. cbn zeta.
    assert (Hpow : (2 ^ l = 2 * 2 ^ (l - 1))%Z).
    { rewrite <- Z.pow_succ_r by lia. f_equal. lia. }
    assert (Hnu : (level_n l - 1 = 2 ^ l)%Z) by (unfold level_n; lia).
    assert (Hnv : (level_n (l - 1) - 1 = 2 ^ (l - 1))%Z) by (unfold level_n; lia).
    assert (Hsm : same_domain H (smooth_call S u f (level_n l) h)).
    { apply same_domain_smooth. rewrite Hnu. exact Hh. }
    constructor; [exact Hh|].
    constructor; [exact Hsm|].
    constructor; [cbn [same_domain]; rewrite Hnu; exact Hh|].
    constructor; [cbn [same_domain]; lia|].
    apply Forall_app. split.
    + apply IH; [lia|]. cbv [mul lit Q_scalar]. rewrite <- Hh, Hpow.
      rewrite inject_Z_mult. change (inject_Z 2) with 2. ring.
    + constructor; [cbn [same_domain]; lia|].
      constructor; [exact Hsm|]. constructor; [exact I|constructor].
Qed.

(** X15: a V-cycle works on one domain at every level.  In a completed
    call at level [l] with spacing [h], every smoother and residual call
    is given a grid size [n] and a spacing [h'] with
    [h' * (n - 1) = h * 2^l], every recursive entry at level [k] a spacing
    [h'] with [h' * 2^k = h * 2^l], the base case the spacing
    [h * 2^l / 2], and every restriction and prolongation goes between a
    grid of [n - 1] intervals and one of [(n - 1) / 2]. *)
Theorem v_cycle_keeps_domain (R I : Z -> Z -> Z -> Z -> list Q -> Z -> Q)
    l S u f r v w (h : Q) w0 w1 :
  multigrid_v_cycle R I l S u f r v w h w0 = Done tt w1 ->
  exists new,
    map fst (history w1) = map fst (history w0) ++ new
    /\ Forall (same_domain (h * inject_Z (2 ^ l))) new.
Proof.
  intros Hrun. unfold multigrid_v_cycle in Hrun.
  destruct (v_cycle_Done R I (Z.to_nat l) l S u f r v w h w0 w1 Hrun)
    as (Hl & _ & _ & rest & Hhist & Hcalls & _).
  exists (call_multigrid_v_cycle l u f r v w h :: map fst rest).
  rewrite Hhist, map_app. split; [reflexivity|].
  rewrite Hcalls. apply same_domain_calls; [lia|apply Qeq_refl].
Qed.
End Exact.

(** * The smoothers in binary64 arithmetic *)

(** The rational [q] rounded to the nearest binary64 number, ties to even:
    the quotient is taken with more than 53 bits and one sticky bit. *)
Definition Q2float (q : Q) : float :=
  let p := Qnum q in
  let d := Zpos (Qden q) in
  if p =? 0 then 0%float
  else
    let k := Z.max 0 (60 + Z.log2 d - Z.log2 (Z.abs p)) in
    let n := Z.abs p * 2 ^ k in
    let sticky := if n mod d =? 0 then 0 else 1 in
    let r := SF2Prim (binary_normalize prec emax (2 * (n / d) + sticky) (- k - 1) false) in
    if p <? 0 then (- r)%float else r.

(** [T = double]: the IEEE 754 binary64 numbers with the operations of the
    hardware, rounding to nearest.  A literal is the nearest binary64
    number.  The sine is not among the primitive operations and the
    identity stands in its place; the smoothers do not use it. *)
#[export] Instance binary64 : Scalar float :=
  {| lit := Q2float; add := PrimFloat.add; sub := PrimFloat.sub;
     mul := PrimFloat.mul; div := PrimFloat.div; neg := PrimFloat.opp;
     sin x := x; fabs := PrimFloat.abs; sizeof_T := 8 |}.

Section Agree.

Context {T : Type} {ST : Scalar T}.





End Agree.






(** * Worked instances *)

(** A transfer stencil for the instances: the source cell of the same index. *)
Definition same_cell (sn sm dn dm : Z) (src : list Q) (k : Z) : Q :=
  nth (Z.to_nat k) src 0%Q.

(** Five blocks of 100 cells; the field in block 0 is 1 at the centre of a
    5 x 5 grid and 0 elsewhere, cell [a] of block 2 holds [a], every other
    block is zero. *)
Definition demo_mem : memory :=
  fun b a => if (b =? 0)%nat && (a =? 12) then 1%Q
             else if (b =? 2)%nat then inject_Z a else 0%Q.

Definition demo_problem : Poisson :=
  {| p_n := 5; p_l := 2; p_h := 1%Q; p_modes := 1%Q;
     p_u := Ptr 0 0; p_f := Ptr 1 0; p_r := Ptr 2 0; p_num_bytes := 200 |}.

Definition demo_world : world :=
  World demo_mem (fun b => if (b <? 5)%nat then 100 else 0) 5 [] [].

Lemma demo_buffers l :
  1 <= l <= 3 ->
  v_cycle_buffers (ext demo_world) l (Ptr 0 0) (Ptr 1 0) (Ptr 2 0) (Ptr 3 0) (Ptr 4 0).
Proof.
  intros Hl. assert (Hcases : l = 1 \/ l = 2 \/ l = 3) by lia.
  destruct Hcases as [ -> | [ -> | -> ] ]; unfold v_cycle_buffers, valid, level_n; cbn; lia.
Qed.

(** A V-cycle at level 2 on the five blocks runs to completion. *)
Lemma v_cycle_recursive_case_witness :
  1 < 2
  /\ exists w1,
       multigrid_v_cycle same_cell same_cell 2 GaussSeidel (Ptr 0 0) (Ptr 1 0) (Ptr 2 0)
                         (Ptr 3 0) (Ptr 4 0) 1%Q demo_world = Done tt w1.
Proof.
  assert (Hl : 1 < 2) by lia.
  split; [exact Hl|].
  pose proof (v_cycle_recursive_case same_cell same_cell 2 GaussSeidel (Ptr 0 0) (Ptr 1 0)
                (Ptr 2 0) (Ptr 3 0) (Ptr 4 0) 1%Q demo_world Hl) as Hthm.
  cbv zeta in Hthm. destruct Hthm as [_ Hrun].
  apply Hrun; [unfold L_MAX; lia|apply demo_buffers; lia].
Defined.

(** A V-cycle at level 3 with the red-black smoother runs to completion. *)
Lemma v_cycle_linear_recursion_witness :
  1 <= 3
  /\ exists w1,
       multigrid_v_cycle same_cell same_cell 3 GaussSeidelRedBlack (Ptr 0 0) (Ptr 1 0)
                         (Ptr 2 0) (Ptr 3 0) (Ptr 4 0) 1%Q demo_world = Done tt w1.
Proof.
  assert (Hl : 1 <= 3) by lia.
  split; [exact Hl|].
  pose proof (v_cycle_linear_recursion same_cell same_cell 3 GaussSeidelRedBlack (Ptr 0 0)
                (Ptr 1 0) (Ptr 2 0) (Ptr 3 0) (Ptr 4 0) 1%Q demo_world Hl)
    as Hthm.
  destruct Hthm as (_ & _ & Hrun).
  apply Hrun; [unfold L_MAX; lia|apply demo_buffers; lia].
Defined.

(** The red-black smoother on the 5 x 5 grid of blocks 0 and 1. *)
Lemma red_black_passes_independent_witness :
  separate (Ptr 0 0) (5 * 5) (Ptr 1 0) (5 * 5)
  /\ exists w', gauss_seidel_red_black (Ptr 0 0) (Ptr 1 0) 5 1%Q demo_world = Done tt w'.
Proof.
  assert (Hsep : separate (Ptr 0 0) (5 * 5) (Ptr 1 0) (5 * 5)) by (left; simpl; lia).
  split; [exact Hsep|].
  pose proof (red_black_passes_independent (Ptr 0 0) (Ptr 1 0) 5 1%Q demo_world Hsep)
    as (_ & _ & _ & Hrun).
  assert (Hn : 1 <= 5 <= N_MAX) by (unfold N_MAX; lia).
  assert (Hu : valid (ext demo_world) (Ptr 0 0) (5 * 5)) by (unfold valid; cbn; lia).
  assert (Hf : valid (ext demo_world) (Ptr 1 0) (5 * 5)) by (unfold valid; cbn; lia).
  destruct (Hrun Hn Hu Hf) as [Hex _]. exact Hex.
Defined.


(** The base case with [h = 2] and [f[1,1] = 4] leaves [u[1,1] = -8]. *)
Lemma v_cycle_base_case_witness :
  exists w1,
    multigrid_v_cycle same_cell same_cell 1 GaussSeidel (Ptr 0 0) (Ptr 2 0) (Ptr 1 0)
                      (Ptr 3 0) (Ptr 4 0) 2%Q demo_world = Done tt w1
    /\ (rd (mem w1) (Ptr 0 0) 4 == - 8)%Q.
Proof.
  destruct (v_cycle_base_case same_cell same_cell GaussSeidel (Ptr 0 0) (Ptr 2 0) (Ptr 1 0)
              (Ptr 3 0) (Ptr 4 0) 2%Q demo_world) as [Hstep Hrun].
  assert (Hu : valid (ext demo_world) (Ptr 0 0) (3 * 3)) by (unfold valid; cbn; lia).
  assert (Hf : valid (ext demo_world) (Ptr 2 0) (3 * 3)) by (unfold valid; cbn; lia).
  destruct (Hrun Hu Hf) as [w1 Hw1]. exists w1. split; [exact Hw1|].
  destruct (Hstep w1 Hw1) as (_ & _ & Hval & _).
  change (1 + 1 * 3) with 4 in Hval. rewrite Hval. reflexivity.
Defined.

(** One natural-order sweep of the 5 x 5 grid keeps the boundary of [u]. *)
Lemma gauss_seidel_natural_sweep_witness :
  exists w',
    gauss_seidel (Ptr 0 0) (Ptr 1 0) 5 1%Q demo_world = Done tt w'
    /\ (forall i j, on_boundary 5 i j ->
          mem w' 0%nat (j + i * 5) = mem demo_world 0%nat (j + i * 5)).
Proof.
  destruct (gauss_seidel_natural_sweep (Ptr 0 0) (Ptr 1 0) 5 1%Q demo_world)
    as [Hrun Hstep].
  assert (Hn : 1 <= 5 <= N_MAX) by (unfold N_MAX; lia).
  assert (Hu : valid (ext demo_world) (Ptr 0 0) (5 * 5)) by (unfold valid; cbn; lia).
  assert (Hf : valid (ext demo_world) (Ptr 1 0) (5 * 5)) by (unfold valid; cbn; lia).
  destruct (Hrun Hn Hu Hf) as [w' Hw']. exists w'. split; [exact Hw'|].
  destruct (Hstep w' Hw') as (_ & _ & _ & _ & _ & Hframe).
  intros i j (Hi & Hj & Hb). apply Hframe. intros i' j' Hi' Hj'. right.
  cbn [ofs]. lia.
Defined.

(** Smoothers and residual run to completion on the 5 x 5 grid. *)
Lemma interior_operators_frame_witness :
  (forall ks, exists w',
     smooth_many ks (Ptr 0 0) (Ptr 1 0) 5 1%Q demo_world = Done tt w')
  /\ exists w', poisson_residual (Ptr 2 0) (Ptr 0 0) (Ptr 1 0) 5 1%Q demo_world
                = Done tt w'.
Proof.
  destruct (interior_operators_frame (Ptr 0 0) (Ptr 1 0) (Ptr 2 0) 5 1%Q demo_world)
    as (_ & _ & Hrun).
  assert (Hn : 1 <= 5 <= N_MAX) by (unfold N_MAX; lia).
  assert (Hu : valid (ext demo_world) (Ptr 0 0) (5 * 5)) by (unfold valid; cbn; lia).
  assert (Hf : valid (ext demo_world) (Ptr 1 0) (5 * 5)) by (unfold valid; cbn; lia).
  assert (Hr : valid (ext demo_world) (Ptr 2 0) (5 * 5)) by (unfold valid; cbn; lia).
  destruct (Hrun Hn Hu Hf) as [Hmany Hres]. split; [exact Hmany|exact (Hres Hr)].
Defined.

(** [multigrid_size 3 = 4 + 9 + 25 + 81], and the driver constructed for
    the level-2 problem runs its V-cycle to completion. *)
Lemma arena_size_and_bounds_witness :
  multigrid_size 3 = Ok 119
  /\ exists mg w1 w2,
       Multigrid_new GaussSeidel demo_problem demo_world = Done mg w1
       /\ Multigrid_call same_cell same_cell mg demo_problem w1 = Done tt w2.
Proof.
  destruct (arena_size_and_bounds (T := Q) same_cell same_cell)
    as (Hsum & Hsize & _ & Hdriver).
  split.
  - destruct (Hsize 3 ltac:(unfold L_MAX; lia)) as [s Hs].
    rewrite Hs. f_equal. apply (Hsum 3 s Hs).
  - assert (Hsz : 0 < sizeof_T < 2 ^ 32) by (cbn; lia).
    assert (Hl : 1 <= p_l demo_problem <= L_MAX) by (unfold L_MAX; cbn; lia).
    assert (Hu : valid (ext demo_world) (p_u demo_problem)
                       (level_n (p_l demo_problem) * level_n (p_l demo_problem)))
      by (unfold valid, level_n; cbn; lia).
    assert (Hf : valid (ext demo_world) (p_f demo_problem)
                       (level_n (p_l demo_problem) * level_n (p_l demo_problem)))
      by (unfold valid, level_n; cbn; lia).
    assert (Hub : (blk (p_u demo_problem) < next_block demo_world)%nat) by (cbn; lia).
    assert (Hfb : (blk (p_f demo_problem) < next_block demo_world)%nat) by (cbn; lia).
    destruct (Hdriver GaussSeidel demo_problem demo_world Hsz Hl Hu Hf Hub Hfb)
      as (mg & w1 & w2 & Hnew & _ & _ & _ & Hcall & _).
    exists mg, w1, w2. split; [exact Hnew|exact Hcall].
Defined.

(** The correction regions of levels 1, 2 and 3 follow one another. *)
Lemma correction_regions_disjoint_and_zero_witness :
  2 * (level_n 1 * level_n 1) <= level_n 2 * level_n 2
  /\ 2 * (level_n 2 * level_n 2) <= level_n 3 * level_n 3.
Proof.
  destruct (correction_regions_disjoint_and_zero
              (T := Q) same_cell same_cell
              {| mg_v := Ptr 3 0; mg_w := Ptr 4 0; mg_r := Ptr 2 0; mg_l := 3;
                 mg_num_bytes := 800; mg_smoother := GaussSeidel |}
              demo_problem demo_world) as (Hapart & _).
  split; apply Hapart; lia.
Defined.

(** [error()] on the level-2 problem keeps [u], and the [norm()] that
    follows returns the value [error()] returned. *)
Lemma error_overwrites_residual_field_witness :
  exists e w1,
    Poisson_error demo_problem demo_world = Done e w1
    /\ (forall k, 0 <= k < 25 -> rd (mem w1) (Ptr 0 0) k = rd (mem demo_world) (Ptr 0 0) k)
    /\ exists w2, Poisson_norm demo_problem w1 = Done e w2.
Proof.
  destruct (error_overwrites_residual_field demo_problem demo_world)
    as (Hstep & Hrun & _).
  assert (Hwf : well_formed demo_problem demo_world).
  { unfold well_formed, valid, separate, N_MAX. cbn.
    repeat split; try lia; left; lia. }
  destruct (Hrun Hwf) as (e & w1 & Herr & e' & w2 & Hnorm).
  destruct (Hstep e w1 Herr Hwf) as (_ & _ & Hsame & _ & He & Hlater).
  exists e, w1. split; [exact Herr|]. split.
  - intros k Hk. apply (Hsame k). exact Hk.
  - exists w2. rewrite He, <- (Hlater w1 e' w2 (fun k _ => eq_refl) Hnorm). exact Hnorm.
Defined.

(** The residual of the unit spike at the centre of the 5 x 5 grid, with a
    zero right-hand side and [h = 1], is 4 at the centre. *)
Lemma poisson_residual_value_witness :
  separate (Ptr 2 0) (5 * 5) (Ptr 0 0) (5 * 5)
  /\ separate (Ptr 2 0) (5 * 5) (Ptr 1 0) (5 * 5)
  /\ exists w',
       poisson_residual (Ptr 2 0) (Ptr 0 0) (Ptr 1 0) 5 1%Q demo_world = Done tt w'
       /\ (rd (mem w') (Ptr 2 0) (2 + 2 * 5) == 4)%Q.
Proof.
  assert (Hs1 : separate (Ptr 2 0) (5 * 5) (Ptr 0 0) (5 * 5)) by (left; simpl; lia).
  assert (Hs2 : separate (Ptr 2 0) (5 * 5) (Ptr 1 0) (5 * 5)) by (left; simpl; lia).
  split; [exact Hs1|]. split; [exact Hs2|].
  destruct (poisson_residual_value (Ptr 2 0) (Ptr 0 0) (Ptr 1 0) 5 1%Q demo_world Hs1 Hs2)
    as [Hval Hrun].
  assert (Hn : 1 <= 5 <= N_MAX) by (unfold N_MAX; lia).
  assert (Hr : valid (ext demo_world) (Ptr 2 0) (5 * 5)) by (unfold valid; cbn; lia).
  assert (Hu : valid (ext demo_world) (Ptr 0 0) (5 * 5)) by (unfold valid; cbn; lia).
  assert (Hf : valid (ext demo_world) (Ptr 1 0) (5 * 5)) by (unfold valid; cbn; lia).
  destruct (Hrun Hn Hr Hu Hf) as [w' Hw']. exists w'. split; [exact Hw'|].
  rewrite (Hval w' Hw' 2 2 ltac:(lia) ltac:(lia)). vm_compute. reflexivity.
Defined.

(** With [n = -7] the three operators return at once, whatever the
    pointers are. *)
Lemma operators_without_interior_witness :
  INT_MIN < -7 <= 2
  /\ gauss_seidel (Ptr 9 (-3)) (Ptr 9 40) (-7) 1%Q demo_world
     = Done tt (note_call (call_gauss_seidel (Ptr 9 (-3)) (Ptr 9 40) (-7) 1%Q) demo_world)
  /\ poisson_residual (Ptr 8 0) (Ptr 9 (-3)) (Ptr 9 40) (-7) 1%Q demo_world
     = Done tt (note_call (call_poisson_residual (Ptr 8 0) (Ptr 9 (-3)) (Ptr 9 40) (-7) 1%Q)
                          demo_world).
Proof.
  assert (Hn : INT_MIN < -7 <= 2) by (unfold INT_MIN; lia).
  split; [exact Hn|].
  destruct (operators_without_interior (Ptr 9 (-3)) (Ptr 9 40) (Ptr 8 0) (-7) 1%Q
              demo_world Hn) as (Hgs & _ & Hres & _).
  split; [exact Hgs|exact Hres].
Defined.

(** The right-hand side of the 5 x 5 grid in block 1. *)
Lemma forcing_function_field_witness :
  0 < sizeof_T (T := Q) < 2 ^ 32
  /\ exists w', forcing_function (Ptr 1 0) 5 1%Q 1%Q demo_world = Done tt w'.
Proof.
  assert (Hsz : 0 < sizeof_T (T := Q) < 2 ^ 32) by (cbn; lia).
  split; [exact Hsz|].
  destruct (forcing_function_field (Ptr 1 0) 5 1%Q 1%Q demo_world Hsz) as [_ Hrun].
  assert (Hn : 1 <= 5 <= N_MAX) by (unfold N_MAX; lia).
  assert (Hf : valid (ext demo_world) (Ptr 1 0) (5 * 5)) by (unfold valid; cbn; lia).
  exact (Hrun Hn Hf).
Defined.

(** The level-2 problem constructed after the five blocks: a 5 x 5 grid
    with [u] in block 5. *)
Lemma Poisson_constructed_witness :
  0 < sizeof_T (T := Q) < 2 ^ 32
  /\ exists p w',
       Poisson_new 2 1%Q 1%Q demo_world = Done p w'
       /\ p_n p = 5 /\ p_u p = Ptr 5 0 /\ ext w' 5%nat = 25.
Proof.
  assert (Hsz : 0 < sizeof_T (T := Q) < 2 ^ 32) by (cbn; lia).
  split; [exact Hsz|].
  destruct (Poisson_new_run 2 1%Q 1%Q demo_world ltac:(unfold L_MAX; lia) Hsz)
    as (p & w' & Hnew).
  exists p, w'. split; [exact Hnew|].
  destruct (Poisson_constructed 2 1%Q 1%Q demo_world Hsz p w' Hnew)
    as (_ & Hn & _ & _ & _ & Hu & _ & _ & _ & Hue & _).
  rewrite Hu, Hn in Hue. split; [exact Hn|]. split; [exact Hu|exact Hue].
Defined.

(** The level-2 problem constructed and destroyed: [residual()] then
    faults. *)
Lemma Poisson_lifecycle_witness :
  exists p w1 w2,
    Poisson_new 2 1%Q 1%Q demo_world = Done p w1
    /\ Poisson_delete p w1 = Done tt w2
    /\ Poisson_residual p w2 = Fault OutOfBounds.
Proof.
  assert (Hsz : 0 < sizeof_T (T := Q) < 2 ^ 32) by (cbn; lia).
  destruct (Poisson_new_run 2 1%Q 1%Q demo_world ltac:(unfold L_MAX; lia) Hsz)
    as (p & w1 & Hnew).
  destruct (Poisson_lifecycle 2 1%Q 1%Q demo_world p w1 Hnew)
    as (w2 & Hdel & _ & _ & _ & _ & _ & Hres).
  exists p, w1, w2. split; [exact Hnew|]. split; [exact Hdel|].
  apply Hres. lia.
Defined.

(** [error()] on the level-2 problem: the temporary is block 5, released
    on return. *)
Lemma error_releases_temporary_witness :
  exists e w1,
    Poisson_error demo_problem demo_world = Done e w1
    /\ next_block w1 = 6%nat /\ ext w1 5%nat = 0.
Proof.
  assert (Hn : 1 <= p_n demo_problem <= N_MAX) by (unfold N_MAX; cbn; lia).
  assert (Hbytes : p_num_bytes demo_problem / sizeof_T (T := Q)
                   = p_n demo_problem * p_n demo_problem) by reflexivity.
  assert (Hu : valid (ext demo_world) (p_u demo_problem)
                     (p_n demo_problem * p_n demo_problem)) by (unfold valid; cbn; lia).
  assert (Hr : valid (ext demo_world) (p_r demo_problem)
                     (p_n demo_problem * p_n demo_problem)) by (unfold valid; cbn; lia).
  assert (Hub : (blk (p_u demo_problem) < next_block demo_world)%nat) by (cbn; lia).
  assert (Hrb : (blk (p_r demo_problem) < next_block demo_world)%nat) by (cbn; lia).
  destruct (Poisson_error_run demo_problem demo_world Hn Hbytes Hu Hr Hub Hrb)
    as (e & w1 & Hrun & _).
  exists e, w1. split; [exact Hrun|].
  destruct (error_releases_temporary demo_problem demo_world e w1 Hrun)
    as (Hnext & Hext & _).
  split; [exact Hnext|exact Hext].
Defined.

(** The level-2 problem and its solver: after a solve, the residual, its
    norm and the error, the solver, the residual and the norm complete
    again. *)
Lemma constructed_objects_stay_usable_witness :
  exists p w1 mg w2 w3,
    Poisson_new 2 1%Q 1%Q demo_world = Done p w1
    /\ Multigrid_new GaussSeidelRedBlack p w1 = Done mg w2
    /\ invoke_all same_cell same_cell mg p [do_solve; do_residual; do_norm; do_error] w2
       = Done tt w3
    /\ (exists w4, Multigrid_call same_cell same_cell mg p w3 = Done tt w4)
    /\ (exists w4, Poisson_residual p w3 = Done tt w4)
    /\ (exists e w4, Poisson_norm p w3 = Done e w4).
Proof.
  assert (Hsz : 0 < sizeof_T (T := Q) < 2 ^ 32) by (cbn; lia).
  assert (Hl : 1 <= 2) by lia.
  destruct (Poisson_new_run 2 1%Q 1%Q demo_world ltac:(unfold L_MAX; lia) Hsz)
    as (p & w1 & Hp).
  destruct (Poisson_new_Done 2 1%Q 1%Q demo_world p w1 Hsz Hp) as (Hpl & _).
  destruct (Multigrid_new_run GaussSeidelRedBlack p w1
              ltac:(rewrite Hpl; unfold L_MAX; lia)) as (mg & w2 & Hmg).
  destruct (invoke_all_usable same_cell same_cell mg p
              [do_solve; do_residual; do_norm; do_error] w2
              (constructed_usable 2 GaussSeidelRedBlack 1%Q 1%Q demo_world p w1 mg w2
                 Hsz Hl Hp Hmg)) as (w3 & Hrun & _).
  destruct (constructed_objects_stay_usable same_cell same_cell 2 GaussSeidelRedBlack
              1%Q 1%Q demo_world p w1 mg w2 Hsz Hl Hp Hmg
              [do_solve; do_residual; do_norm; do_error] w3 Hrun)
    as (_ & Hsolve & Hres & Hnorm).
  exists p, w1, mg, w2, w3. split; [exact Hp|]. split; [exact Hmg|].
  split; [exact Hrun|]. split; [exact Hsolve|]. split; [exact Hres|exact Hnorm].
Defined.

(** The rationals multiply commutatively and associatively, term for
    term; the two fields of the 5 x 5 grid in blocks 0 and 1. *)
Lemma forcing_scales_exact_solution_witness :
  exists w1 w2,
    exact_solution (Ptr 0 0) 5 1%Q 1%Q demo_world = Done tt w1
    /\ forcing_function (Ptr 1 0) 5 1%Q 1%Q w1 = Done tt w2
    /\ forall i j, 0 <= i < 5 -> 0 <= j < 5 ->
         rd (mem w2) (Ptr 1 0) (j + 5 * i)
         = (lit (inject_Z (-2)) * (lit 2 * M_PI * 1%Q / (1%Q * lit (inject_Z (5 - 1))))
            * (lit 2 * M_PI * 1%Q / (1%Q * lit (inject_Z (5 - 1))))
            * rd (mem w2) (Ptr 0 0) (j + 5 * i))%T.
Proof.
  assert (Hcomm : forall a b : Q, (a * b)%T = (b * a)%T).
  { intros [a1 a2] [b1 b2]. unfold mul, Q_scalar, Qmult. cbn [Qnum Qden].
    f_equal; [apply Z.mul_comm|apply Pos.mul_comm]. }
  assert (Hassoc : forall a b c : Q, (a * (b * c))%T = (a * b * c)%T).
  { intros [a1 a2] [b1 b2] [c1 c2]. unfold mul, Q_scalar, Qmult. cbn [Qnum Qden].
    f_equal; [apply Z.mul_assoc|apply Pos.mul_assoc]. }
  assert (Hsz : 0 < sizeof_T (T := Q) < 2 ^ 32) by (cbn; lia).
  assert (Hsep : separate (Ptr 1 0) (5 * 5) (Ptr 0 0) (5 * 5)) by (left; simpl; lia).
  assert (Hn : 1 <= 5 <= N_MAX) by (unfold N_MAX; lia).
  assert (Hv : valid (ext demo_world) (Ptr 0 0) (5 * 5)) by (unfold valid; cbn; lia).
  pose proof (exact_solution_run (Ptr 0 0) 5 1%Q 1%Q demo_world Hn Hv) as Hex.
  set (w1 := upd_world _ _ _) in Hex.
  assert (Hf : valid (ext w1) (Ptr 1 0) (5 * 5)) by (unfold valid; cbn; lia).
  pose proof (forcing_function_run (Ptr 1 0) 5 1%Q 1%Q w1 Hn Hsz Hf) as Hfo.
  set (w2 := upd_world _ _ _) in Hfo.
  exists w1, w2. split; [exact Hex|]. split; [exact Hfo|].
  exact (forcing_scales_exact_solution (Ptr 0 0) (Ptr 1 0) 5 1%Q 1%Q demo_world w1 w2
           Hcomm Hassoc Hsz Hsep Hex Hfo).
Defined.

(** With [h = 1]: the smoother keeps a value exactly where the residual
    is zero. *)
Lemma smoother_fixed_points_witness :
  ~ (1 == 0)%Q
  /\ forall i j,
       (stencil (mem demo_world) (Ptr 0 0) (Ptr 1 0) 5 1%Q (i, j)
        == rd (mem demo_world) (Ptr 0 0) (j + i * 5)%Z)%Q
       <-> (residual_at (mem demo_world) (Ptr 0 0) (Ptr 1 0) 5 (1 / (1 * 1))%Q (i, j) == 0)%Q.
Proof.
  assert (Hh : ~ (1 == 0)%Q) by (intros H; discriminate H).
  split; [exact Hh|].
  destruct (smoother_fixed_points (Ptr 0 0) (Ptr 1 0) 5 1%Q demo_world Hh) as [Hpt _].
  exact Hpt.
Defined.

(** On the 3 x 3 grid of blocks 3 and 2, where [f[1,1] = 4]: the base case
    leaves the residual [-4], one sweep of [gauss_seidel] leaves [0]. *)
Lemma base_case_residual_witness :
  ~ (1 == 0)%Q
  /\ separate (Ptr 3 0) (3 * 3) (Ptr 2 0) (3 * 3)
  /\ (exists w',
        base_case (Ptr 3 0) (Ptr 2 0) 1%Q demo_world = Done tt w'
        /\ (residual_at (mem w') (Ptr 3 0) (Ptr 2 0) 3 (1 / (1 * 1))%Q (1, 1)%Z == - (4))%Q)
  /\ (exists w',
        gauss_seidel (Ptr 3 0) (Ptr 2 0) 3 1%Q demo_world = Done tt w'
        /\ (residual_at (mem w') (Ptr 3 0) (Ptr 2 0) 3 (1 / (1 * 1))%Q (1, 1)%Z == 0)%Q).
Proof.
  assert (Hh : ~ (1 == 0)%Q) by (intros H; discriminate H).
  assert (Hsep : separate (Ptr 3 0) (3 * 3) (Ptr 2 0) (3 * 3)) by (left; simpl; lia).
  split; [exact Hh|]. split; [exact Hsep|].
  destruct (base_case_residual (Ptr 3 0) (Ptr 2 0) 1%Q demo_world Hh Hsep) as [Hbase Hgs].
  assert (Hu : valid (ext demo_world) (Ptr 3 0) 9) by (unfold valid; cbn; lia).
  assert (Hf : valid (ext demo_world) (Ptr 2 0) 9) by (unfold valid; cbn; lia).
  split.
  - pose proof (base_case_run (Ptr 3 0) (Ptr 2 0) 1%Q demo_world Hu Hf) as Hrun.
    set (w' := upd_world _ _ _) in Hrun. exists w'. split; [exact Hrun|].
    assert (H0 : forall k, (rd (mem demo_world) (Ptr 3 0) k == 0)%Q) by (intros k; reflexivity).
    assert (H4 : (rd (mem demo_world) (Ptr 2 0) 4 == 4)%Q) by reflexivity.
    rewrite <- H4. exact (Hbase w' Hrun (H0 1) (H0 3) (H0 5) (H0 7)).
  - assert (Hn : 1 <= 3 <= N_MAX) by (unfold N_MAX; lia).
    pose proof (gauss_seidel_run (Ptr 3 0) (Ptr 2 0) 3 1%Q demo_world Hn Hu Hf) as Hrun.
    set (w' := upd_world _ _ _) in Hrun. exists w'. split; [exact Hrun|].
    exact (Hgs w' Hrun).
Defined.

(** The V-cycle at level 3 with [h = 1] works on the domain of width 8. *)
Lemma v_cycle_keeps_domain_witness :
  exists w1 new,
    multigrid_v_cycle same_cell same_cell 3 GaussSeidel (Ptr 0 0) (Ptr 1 0) (Ptr 2 0)
                      (Ptr 3 0) (Ptr 4 0) 1%Q demo_world = Done tt w1
    /\ map fst (history w1) = map fst (history demo_world) ++ new
    /\ Forall (same_domain (1 * inject_Z (2 ^ 3))) new.
Proof.
  destruct (multigrid_v_cycle_run same_cell same_cell 3 GaussSeidel (Ptr 0 0) (Ptr 1 0)
              (Ptr 2 0) (Ptr 3 0) (Ptr 4 0) 1%Q demo_world
              ltac:(unfold L_MAX; lia) (demo_buffers 3 ltac:(lia))) as [w1 Hrun].
  destruct (v_cycle_keeps_domain same_cell same_cell 3 GaussSeidel (Ptr 0 0) (Ptr 1 0)
              (Ptr 2 0) (Ptr 3 0) (Ptr 4 0) 1%Q demo_world w1 Hrun) as (new & Hhist & Hdom).
  exists w1, new. split; [exact Hrun|]. split; [exact Hhist|exact Hdom].
Defined.
